(** * prodsafe: the rate-limiting decision engine

    A shallow embedding of [src/lib/rate-limiter.ts], of the rule catalog
    [src/lib/rate-limit-config.ts] and of [logSecurityEvent] from
    [src/lib/security.ts], followed by the properties of the decision
    engine that the specification states.

    Conventions of the embedding.
    - JavaScript numbers that hold counts and millisecond timestamps are
      integers [Z]; the only non-finite number the code produces is
      [Infinity], in the two [limit]/[remaining] fields of a bypass result.
    - An [async] function is a computation in the monad [M]: it threads the
      mutable world (the Redis key space, the limiter's own storage, the
      module-level limiter cache, the two database tables and the console)
      and either returns a value or throws an exception.
    - Everything the function reads but does not own is in [Env]: the clock,
      the request headers, the process environment and, for each external
      call, whether that call throws.  One call of the engine is evaluated at
      one clock instant [now]: every [Date.now()] and [new Date()] of the
      call reads the same value.
    - The three tables of [rate-limit-config.ts] are plain objects read with
      [table[key]]: a read finds the keys written in the table and, behind
      them, the properties that every object inherits from
      [Object.prototype].  The two tables of configurations are finite maps
      that hold both.
    - The sliding-window algorithm of the [@upstash/ratelimit] package is not
      part of the repository; it is a parameter of the development, and
      whether the package accepts a window text when a limiter is built is
      left to the environment.  The Prisma schema is not part of the
      repository either: row ids are generated fresh, and what depends on the
      schema is left to the environment. *)

From Stdlib Require Import ZArith Lia.
From stdpp Require Import gmap strings list.

Open Scope string_scope.
Open Scope Z_scope.

(** ** Data model: [rate-limit-config.ts] *)

Inductive UserRole := USER | ADMIN | SECURITY_LEAD.

Record RateLimitRule := {
  requests : Z;
  window : string;
  windowMs : Z
}.

(** A value that the engine handles as a configuration.  Every configuration
    has an [identifier]; the field is [None] ([undefined]) only on a value that
    a table read finds on the prototype chain. *)
Record RateLimitConfig := {
  identifier : option string;
  rules : list RateLimitRule;
  blockDuration : option string;
  blockDurationMs : option Z
}.

Definition mkConfig (i : string) (n : Z) (w : string) (wms : Z)
    (b : string) (bms : Z) : RateLimitConfig :=
  {| identifier := Some i;
     rules := [ {| requests := n; window := w; windowMs := wms |} ];
     blockDuration := Some b;
     blockDurationMs := Some bms |}.

(** The properties that every object inherits from [Object.prototype]: the
    functions, and [__proto__], which reads as the prototype object. *)
Definition Object_prototype_functions : list string :=
  [ "constructor"; "__defineGetter__"; "__defineSetter__"; "hasOwnProperty";
    "__lookupGetter__"; "__lookupSetter__"; "isPrototypeOf";
    "propertyIsEnumerable"; "toString"; "valueOf"; "toLocaleString" ].

Definition Object_prototype_names : list string :=
  "__proto__" :: Object_prototype_functions.

(** An inherited property read as a configuration: the value is truthy and has
    none of the four fields.  Its [rules] are [undefined]; [config.rules[0]]
    throws the [TypeError] on it that [rule.requests] throws on a configuration
    with an empty [rules], in the same place, so the empty sequence stands for
    them. *)
Definition inherited_value : RateLimitConfig :=
  {| identifier := None; rules := []; blockDuration := None; blockDurationMs := None |}.

Definition inherited_properties : list (string * RateLimitConfig) :=
  (fun name => (name, inherited_value)) <$> Object_prototype_names.

(** [RATE_LIMIT_CONFIGS[key]]: the eight entries of the table, then what the
    object inherits. *)
Definition RATE_LIMIT_CONFIGS : gmap string RateLimitConfig :=
  list_to_map
    ([ ("auth_login", mkConfig "auth:login" 5 "15 m" (15 * 60 * 1000) "30 m" (30 * 60 * 1000));
      ("auth_register", mkConfig "auth:register" 3 "1 h" (60 * 60 * 1000) "1 h" (60 * 60 * 1000));
      ("auth_password_reset",
        mkConfig "auth:password_reset" 3 "1 h" (60 * 60 * 1000) "1 h" (60 * 60 * 1000));
      ("api_user", mkConfig "api:user" 100 "1 h" (60 * 60 * 1000) "15 m" (15 * 60 * 1000));
      ("api_admin", mkConfig "api:admin" 1000 "1 h" (60 * 60 * 1000) "5 m" (5 * 60 * 1000));
      ("api_security_lead",
        mkConfig "api:security_lead" 2000 "1 h" (60 * 60 * 1000) "5 m" (5 * 60 * 1000));
      ("security_sensitive",
        mkConfig "security:sensitive" 10 "1 h" (60 * 60 * 1000) "1 h" (60 * 60 * 1000));
      ("public", mkConfig "public" 20 "1 m" (60 * 1000) "5 m" (5 * 60 * 1000)) ]
     ++ inherited_properties)%list.

(** [RATE_LIMIT_CONFIGS.public], [.api_user], ...: the property reads of the
    catalog.  The keys are present, so the default is never taken. *)
Definition catalog (k : string) : RateLimitConfig :=
  default (mkConfig "public" 20 "1 m" (60 * 1000) "5 m" (5 * 60 * 1000))
          (RATE_LIMIT_CONFIGS !! k).

Definition getRateLimitConfig (endpointType : string) (userRole : option UserRole)
    : RateLimitConfig :=
  if String.eqb endpointType "api_user" then
    match userRole with
    | Some SECURITY_LEAD => catalog "api_security_lead"
    | Some ADMIN => catalog "api_admin"
    | Some USER | None => catalog "api_user"
    end
  else
    match RATE_LIMIT_CONFIGS !! endpointType with
    | Some c => c
    | None => catalog "public"
    end.

(** [OPERATION_RATE_LIMITS[key]]: the four entries of the table, then what the
    object inherits. *)
Definition OPERATION_RATE_LIMITS : gmap string RateLimitConfig :=
  list_to_map
    ([ ("profile_update",
        mkConfig "op:profile_update" 5 "1 h" (60 * 60 * 1000) "30 m" (30 * 60 * 1000));
      ("password_change",
        mkConfig "op:password_change" 3 "24 h" (24 * 60 * 60 * 1000) "1 h" (60 * 60 * 1000));
      ("email_change",
        mkConfig "op:email_change" 2 "24 h" (24 * 60 * 60 * 1000) "2 h" (2 * 60 * 60 * 1000));
      ("mfa_operations",
        mkConfig "op:mfa" 5 "1 h" (60 * 60 * 1000) "30 m" (30 * 60 * 1000)) ]
     ++ inherited_properties)%list.

Definition RATE_LIMIT_WHITELIST : list string := [].

Definition EMERGENCY_BYPASS_HEADER : string := "x-emergency-bypass".

Inductive RateLimitSeverity := LOW | MEDIUM | HIGH | CRITICAL.

Definition severity_value (s : RateLimitSeverity) : string :=
  match s with
  | LOW => "low" | MEDIUM => "medium" | HIGH => "high" | CRITICAL => "critical"
  end.

(** The eight entries of [ENDPOINT_SEVERITY]; what a read finds behind them
    is in [severity_detail]. *)
Definition ENDPOINT_SEVERITY : gmap string RateLimitSeverity :=
  list_to_map
    [ ("auth_login", CRITICAL); ("auth_register", HIGH);
      ("auth_password_reset", HIGH); ("security_sensitive", CRITICAL);
      ("api_user", MEDIUM); ("api_admin", LOW);
      ("api_security_lead", LOW); ("public", MEDIUM) ].

(** ** Data model: [rate-limiter.ts] *)

Record RateLimitContext := {
  userId : option string;
  userRole : option UserRole;
  ip : string;
  userAgent : string;
  endpoint : string;
  operationType : option string
}.

(** A JavaScript number in a result: an integer or [Infinity]. *)
Inductive JSNumber := Finite (z : Z) | Infinity.

Record RateLimitResult := {
  success : bool;
  limit : JSNumber;
  remaining : JSNumber;
  reset : Z;
  blocked : option bool;
  blockUntil : option Z;
  retryAfter : option Z;
  error : option string
}.

(** ** Exceptions *)

Inductive Exn :=
| ExternalError (source : string)   (* thrown by a call outside the repository *)
| TypeError                         (* property read on [undefined] *)
| RangeError                        (* [toISOString] of an invalid date *)
| Error (message : string).         (* [throw new Error(message)] *)

(** ** The persistent tables and the event sink *)

Inductive SecurityAction :=
| LOGIN_SUCCESS | LOGIN_FAILED | LOGOUT | PROFILE_UPDATE | SUSPICIOUS_ACTIVITY
| RATE_LIMIT_EXCEEDED | ACCOUNT_LOCKED | ACCOUNT_UNLOCKED.

Definition is_RATE_LIMIT_EXCEEDED (a : SecurityAction) : bool :=
  match a with RATE_LIMIT_EXCEEDED => true | _ => false end.

(** A value of the [details] object of an event. [DDate t] is the ISO-8601
    rendering of the instant [t]; [DMessage e] is [e.message]; [DEmptyObject]
    is an object without enumerable properties of its own, written [{}]. *)
Inductive DetailValue :=
| DString (s : string)
| DDate (t : Z)
| DMessage (e : Exn)
| DEmptyObject.

(** The argument of [logSecurityEvent]. An [undefined] field of [details]
    is left out, as [JSON.stringify] leaves it out. *)
Record SecurityEventData := {
  ev_userId : option string;
  ev_action : SecurityAction;
  ev_details : option (list (string * DetailValue));
  ev_ip : option string;
  ev_userAgent : option string;
  ev_success : bool
}.

(** A row of the [securityLog] table. *)
Record SecurityLog := {
  log_userId : option string;
  log_action : SecurityAction;
  log_details : option (list (string * DetailValue));
  log_ip : string;
  log_userAgent : string;
  log_success : bool;
  log_createdAt : Z
}.

(** A row of the [rateLimitEntry] table. *)
Record RateLimitEntry := {
  entry_id : nat;
  entry_userId : option string;
  entry_ip : string;
  entry_endpoint : string;
  attempts : Z;
  windowStart : Z;
  expiresAt : Z;
  updatedAt : Z
}.

(** ** Redis *)

Inductive RedisValue := RNumber (z : Z) | RString (s : string).

(** A key holds a value and the instant at which its time to live ends. *)
Abbreviation RedisStore := (gmap string (RedisValue * Z)).

(** A [Ratelimit] instance: the arguments of [Ratelimit.slidingWindow] and the
    key prefix. *)
Record Ratelimit := {
  tokens : Z;
  interval : string;
  prefix : string
}.

(** The response of [limiter.limit]. *)
Record RatelimitResponse := {
  resp_success : bool;
  resp_limit : Z;
  resp_remaining : Z;
  resp_reset : Z
}.

(** ** What a call reads from outside *)

Record Env := {
  now : Z;
  (** [headers()]: the request headers, or [None] when the call throws *)
  requestHeaders : option (string -> option string);
  (** [process.env.EMERGENCY_BYPASS_TOKEN] *)
  EMERGENCY_BYPASS_TOKEN : option string;
  redisGetFails : bool;
  redisSetexFails : bool;
  (** whether [Ratelimit.slidingWindow(tokens, window)] throws: the package
      rejects a window text that it cannot parse *)
  slidingWindowFails : Z -> string -> bool;
  limiterFails : bool;
  findFirstFails : bool;
  (** whether the upsert throws, for whatever reason: no connection, or a
      constraint of the table, whose schema is not in the repository *)
  upsertFails : bool;
  countFails : bool;
  (** how the database answers the filter
      [details: { path: ["endpoint"], equals: endpoint }] of that count on a
      stored [details] value; it depends on the type of the column, and the
      schema is not in the repository *)
  detailsEndpointEquals : option (list (string * DetailValue)) -> string -> bool;
  (** the event sink: whether [prisma.securityLog.create] throws on a row *)
  createFails : SecurityLog -> bool
}.

(** ** JavaScript helpers *)

(** [Math.ceil(x / 1000)] for an integer [x]. *)
Definition ceil_div_1000 (x : Z) : Z := - ((- x) / 1000).

(** The range in which [new Date(t).toISOString()] does not throw. *)
Definition valid_time (t : Z) : bool :=
  (-8640000000000000 <=? t) && (t <=? 8640000000000000).

(** Truthiness of a string and of an optional number. *)
Definition truthy_string (s : string) : bool := negb (String.eqb s EmptyString).

Definition truthy_opt_string (s : option string) : bool :=
  match s with Some s => truthy_string s | None => false end.

Definition truthy_opt_number (n : option Z) : bool :=
  match n with Some n => negb (n =? 0) | None => false end.

(** [a === b] for a header value ([string | null]) and an environment
    variable ([string | undefined]). *)
Definition strict_eq (a b : option string) : bool :=
  match a, b with
  | Some x, Some y => String.eqb x y
  | _, _ => false
  end.

(** A value used as a property key or in a template literal. *)
Definition property_key (k : option string) : string := default "undefined" k.

Definition isWhitelisted (i : string) : bool :=
  existsb (String.eqb i) RATE_LIMIT_WHITELIST.

Definition createRateLimitIdentifier (context : RateLimitContext) : string :=
  match userId context with
  | Some u => if truthy_string u then "user:" ++ u ++ ":" ++ ip context
              else "ip:" ++ ip context
  | None => "ip:" ++ ip context
  end.

(** ** The engine, over any implementation of the sliding-window limiter *)

Section Engine.

(** The storage that [@upstash/ratelimit] keeps in Redis for its windows, and
    one [limiter.limit(identifier)] call at a given instant. *)
Context {LimiterState : Type}.
Variable slidingWindow_limit :
  Ratelimit -> string -> Z -> LimiterState -> LimiterState * RatelimitResponse.

(** The mutable world.  [redis] is the module-level client: [None] is the
    [null] left by a failed initialisation, [Some store] a client together
    with the keys the engine itself writes ([block:...]).  [rateLimiters] is
    the module-level [Map] of limiters; a key is the [identifier] that the
    limiter was built for, [None] being [undefined]. *)
Record World := {
  redis : option RedisStore;
  limiterState : LimiterState;
  rateLimiters : gmap (option string) Ratelimit;
  rateLimitEntry : list RateLimitEntry;
  securityLog : list SecurityLog;
  console : list (string * option Exn)
}.

Definition set_redis (s : RedisStore) (w : World) : World :=
  {| redis := Some s; limiterState := limiterState w;
     rateLimiters := rateLimiters w; rateLimitEntry := rateLimitEntry w;
     securityLog := securityLog w; console := console w |}.

Definition set_limiterState (s : LimiterState) (w : World) : World :=
  {| redis := redis w; limiterState := s;
     rateLimiters := rateLimiters w; rateLimitEntry := rateLimitEntry w;
     securityLog := securityLog w; console := console w |}.

Definition set_rateLimiters (m : gmap (option string) Ratelimit) (w : World) : World :=
  {| redis := redis w; limiterState := limiterState w;
     rateLimiters := m; rateLimitEntry := rateLimitEntry w;
     securityLog := securityLog w; console := console w |}.

Definition set_rateLimitEntry (t : list RateLimitEntry) (w : World) : World :=
  {| redis := redis w; limiterState := limiterState w;
     rateLimiters := rateLimiters w; rateLimitEntry := t;
     securityLog := securityLog w; console := console w |}.

Definition set_securityLog (t : list SecurityLog) (w : World) : World :=
  {| redis := redis w; limiterState := limiterState w;
     rateLimiters := rateLimiters w; rateLimitEntry := rateLimitEntry w;
     securityLog := t; console := console w |}.

Definition set_console (c : list (string * option Exn)) (w : World) : World :=
  {| redis := redis w; limiterState := limiterState w;
     rateLimiters := rateLimiters w; rateLimitEntry := rateLimitEntry w;
     securityLog := securityLog w; console := c |}.

(** *** The monad of [async] functions *)

Definition M (A : Type) : Type := World -> World * (Exn + A).

Definition ret {A} (a : A) : M A := fun w => (w, inr a).

Definition throw {A} (e : Exn) : M A := fun w => (w, inl e).

Definition bind {A B} (m : M A) (k : A -> M B) : M B :=
  fun w =>
    match m w with
    | (w', inl e) => (w', inl e)
    | (w', inr a) => k a w'
    end.

(** [try { m } catch (error) { h error }] *)
Definition try_catch {A} (m : M A) (h : Exn -> M A) : M A :=
  fun w =>
    match m w with
    | (w', inl e) => h e w'
    | (w', inr a) => (w', inr a)
    end.

Notation "'let*' x ':=' m 'in' k" := (bind m (fun x => k))
  (at level 10, x pattern, m at level 100, k at level 200).
Notation "m '>>' k" := (bind m (fun _ => k))
  (at level 100, k at level 200, right associativity).

(** *** External calls *)

Definition headers (env : Env) : M (string -> option string) :=
  match requestHeaders env with
  | Some h => ret h
  | None => throw (ExternalError "headers")
  end.

Definition console_error (msg : string) (e : Exn) : M unit :=
  fun w => (set_console (console w ++ [(msg, Some e)])%list w, inr tt).

Definition console_warn (msg : string) : M unit :=
  fun w => (set_console (console w ++ [(msg, None)])%list w, inr tt).

(** [redis.get(key)]: the value of a key whose time to live has not ended. *)
Definition redis_get (env : Env) (key : string) : M (option RedisValue) :=
  fun w =>
    match redis w with
    | None => (w, inl TypeError)
    | Some store =>
        if redisGetFails env then (w, inl (ExternalError "redis"))
        else
          (w, inr (match store !! key with
                   | Some (v, ttlEnd) => if now env <? ttlEnd then Some v else None
                   | None => None
                   end))
    end.

(** [redis.setex(key, seconds, value)]; Redis refuses a time to live that is
    not positive. *)
Definition redis_setex (env : Env) (key : string) (seconds : Z) (v : RedisValue)
    : M unit :=
  fun w =>
    match redis w with
    | None => (w, inl TypeError)
    | Some store =>
        if redisSetexFails env || (seconds <=? 0) then (w, inl (ExternalError "redis"))
        else (set_redis (<[key := (v, now env + seconds * 1000)]> store) w, inr tt)
    end.

(** [limiter.limit(identifier)] *)
Definition limiter_limit (env : Env) (limiter : Ratelimit) (ident : string)
    : M RatelimitResponse :=
  fun w =>
    if limiterFails env then (w, inl (ExternalError "ratelimit"))
    else
      let '(s, r) := slidingWindow_limit limiter ident (now env) (limiterState w) in
      (set_limiterState s w, inr r).

(** The [where] clause of the [findFirst] of [checkRateLimitDatabase]:
    [OR: [{ userId }, { ip }], endpoint, expiresAt: { gt: new Date() }].
    A filter on an [undefined] user id is no filter and drops out of the [OR]. *)
Definition entry_matches (env : Env) (context : RateLimitContext) (e : RateLimitEntry)
    : bool :=
  ((match userId context with
    | Some u => match entry_userId e with Some u' => String.eqb u u' | None => false end
    | None => false
    end) || String.eqb (entry_ip e) (ip context))
  && String.eqb (entry_endpoint e) (endpoint context)
  && (now env <? expiresAt e).

Definition prisma_rateLimitEntry_findFirst (env : Env) (context : RateLimitContext)
    : M (option RateLimitEntry) :=
  fun w =>
    if findFirstFails env then (w, inl (ExternalError "prisma"))
    else (w, inr (List.find (entry_matches env context) (rateLimitEntry w))).

Definition fresh_id (t : list RateLimitEntry) : nat :=
  S (list_max (List.map entry_id t)).

(** The [update] branch of the upsert: [attempts: { increment: 1 }],
    [updatedAt: new Date()]. *)
Definition increment_entry (date : Z) (e : RateLimitEntry) : RateLimitEntry :=
  {| entry_id := entry_id e; entry_userId := entry_userId e; entry_ip := entry_ip e;
     entry_endpoint := entry_endpoint e; attempts := attempts e + 1;
     windowStart := windowStart e; expiresAt := expiresAt e;
     updatedAt := date |}.

Fixpoint update_by_id (date : Z) (i : nat) (t : list RateLimitEntry)
    : option (list RateLimitEntry) :=
  match t with
  | [] => None
  | e :: t' =>
      if Nat.eqb (entry_id e) i then Some (increment_entry date e :: t')
      else match update_by_id date i t' with
           | Some t'' => Some (e :: t'')
           | None => None
           end
  end.

(** [prisma.rateLimitEntry.upsert({ where: { id }, update, create })] with the
    [update] and [create] of [checkRateLimitDatabase].  [whereId = None] is the
    literal id ["new"], which no stored row carries. *)
Definition prisma_rateLimitEntry_upsert (env : Env) (whereId : option nat)
    (context : RateLimitContext) (rule : RateLimitRule) : M unit :=
  fun w =>
    if upsertFails env then (w, inl (ExternalError "prisma"))
    else
      let t := rateLimitEntry w in
      let created :=
        {| entry_id := fresh_id t; entry_userId := userId context;
           entry_ip := ip context; entry_endpoint := endpoint context;
           attempts := 1; windowStart := now env - windowMs rule;
           expiresAt := now env + windowMs rule; updatedAt := now env |} in
      let t' :=
        match whereId with
        | Some i => match update_by_id (now env) i t with
                    | Some t' => t'
                    | None => (t ++ [created])%list
                    end
        | None => (t ++ [created])%list
        end in
      (set_rateLimitEntry t' w, inr tt).

(** The [where] clause of the [count] of [checkBlockStatus]:
    [OR: [{ userId }], action, createdAt: { gte }, details.endpoint equals].
    With an [undefined] user id the [OR] is left without a filter and selects
    no row. *)
Definition violation_matches (env : Env) (context : RateLimitContext) (d : Z)
    (l : SecurityLog) : bool :=
  (match userId context with
   | Some u => match log_userId l with Some u' => String.eqb u u' | None => false end
   | None => false
   end)
  && is_RATE_LIMIT_EXCEEDED (log_action l)
  && (now env - d <=? log_createdAt l)
  && detailsEndpointEquals env (log_details l) (endpoint context).

Definition prisma_securityLog_count (env : Env) (context : RateLimitContext) (d : Z)
    : M Z :=
  fun w =>
    if countFails env then (w, inl (ExternalError "prisma"))
    else (w, inr (Z.of_nat (length (List.filter (violation_matches env context d)
                                                (securityLog w))))).

Definition prisma_securityLog_create (env : Env) (row : SecurityLog) : M unit :=
  fun w =>
    if createFails env row then (w, inl (ExternalError "prisma"))
    else (set_securityLog (securityLog w ++ [row])%list w, inr tt).

Definition get_redis : M (option RedisStore) := fun w => (w, inr (redis w)).

Definition get_rateLimiters : M (gmap (option string) Ratelimit) :=
  fun w => (w, inr (rateLimiters w)).

Definition put_rateLimiters (m : gmap (option string) Ratelimit) : M unit :=
  fun w => (set_rateLimiters m w, inr tt).

(** [new Date(t).toISOString()] *)
Definition toISOString (t : Z) : M DetailValue :=
  if valid_time t then ret (DDate t) else throw RangeError.

(** *** [security.ts]: [logSecurityEvent] *)

(** [a || b] where [b] is a string. *)
Definition or_string (a : option string) (b : string) : string :=
  match a with
  | Some s => if truthy_string s then s else b
  | None => b
  end.

Definition logSecurityEvent (env : Env) (d : SecurityEventData) : M unit :=
  try_catch
    (let* resolved :=
       (if negb (truthy_opt_string (ev_ip d)) || negb (truthy_opt_string (ev_userAgent d))
        then
          let* headersList := headers env in
          ret (or_string (ev_ip d)
                 (or_string (headersList "x-forwarded-for")
                    (or_string (headersList "x-real-ip") "unknown")),
               or_string (ev_userAgent d)
                 (or_string (headersList "user-agent") "unknown"))
        else ret (default EmptyString (ev_ip d), default EmptyString (ev_userAgent d))) in
     prisma_securityLog_create env
       {| log_userId := ev_userId d; log_action := ev_action d;
          log_details := ev_details d; log_ip := fst resolved;
          log_userAgent := snd resolved;
          log_success := ev_success d; log_createdAt := now env |})
    (fun e => console_error "Failed to log security event:" e).

(** *** [rate-limiter.ts] *)

(** [Ratelimit.slidingWindow(tokens, window)] *)
Definition Ratelimit_slidingWindow (env : Env) (tokens : Z) (window : string)
    : M (Z * string) :=
  if slidingWindowFails env tokens window then throw (ExternalError "ratelimit")
  else ret (tokens, window).

Definition getRateLimiter (env : Env) (config : RateLimitConfig)
    : M (option Ratelimit) :=
  let* r := get_redis in
  match r with
  | None => console_warn "Redis not available, rate limiting disabled" >> ret None
  | Some _ =>
      let key := identifier config in
      let* cache := get_rateLimiters in
      match cache !! key with
      | Some limiter => ret (Some limiter)
      | None =>
          match rules config !! 0%nat with
          | None => throw TypeError
          | Some primaryRule =>
              let* algorithm :=
                Ratelimit_slidingWindow env (requests primaryRule) (window primaryRule) in
              let limiter :=
                {| tokens := fst algorithm; interval := snd algorithm;
                   prefix := "ratelimit:" ++ property_key key |} in
              put_rateLimiters (<[key := limiter]> cache) >> ret (Some limiter)
          end
      end
  end.

(** The [severity] field of the details of a violation, as [JSON.stringify]
    writes it: [ENDPOINT_SEVERITY[config.identifier] || RateLimitSeverity.MEDIUM].
    An inherited function is truthy and is left out of the text; the inherited
    [__proto__] is written as an empty object. *)
Definition severity_detail (key : option string) : option DetailValue :=
  let name := property_key key in
  match ENDPOINT_SEVERITY !! name with
  | Some s => Some (DString (severity_value s))
  | None =>
      if existsb (String.eqb name) Object_prototype_functions then None
      else if String.eqb name "__proto__" then Some DEmptyObject
      else Some (DString (severity_value MEDIUM))
  end.

Definition optional_field (k : string) (v : option DetailValue)
    : list (string * DetailValue) :=
  match v with Some v => [(k, v)] | None => [] end.

Definition logRateLimitViolation (env : Env) (context : RateLimitContext)
    (config : RateLimitConfig) (violationType : string) (blockUntil : option Z)
    : M unit :=
  let* iso :=
    (match blockUntil with
     | Some t => if t =? 0 then ret None
                 else let* s := toISOString t in ret (Some s)
     | None => ret None
     end) in
  logSecurityEvent env
    {| ev_userId := userId context;
       ev_action := RATE_LIMIT_EXCEEDED;
       ev_details :=
         Some ([ ("endpoint", DString (endpoint context)) ]
               ++ optional_field "config" (DString <$> identifier config)
               ++ [ ("violationType", DString violationType) ]
               ++ optional_field "severity" (severity_detail (identifier config))
               ++ optional_field "blockUntil" iso
               ++ [ ("userAgent", DString (userAgent context)) ])%list;
       ev_ip := Some (ip context);
       ev_userAgent := Some (userAgent context);
       ev_success := false |}.

(** The two shapes of the object that [checkBlockStatus] returns:
    [{ blocked: false }] and [{ blocked: true, blockUntil }]. *)
Inductive BlockStatus := NotBlocked | Blocked (until : Z).

Definition checkBlockStatus (env : Env) (context : RateLimitContext)
    (config : RateLimitConfig) : M BlockStatus :=
  if negb (truthy_opt_number (blockDurationMs config)) then ret NotBlocked
  else
    let d := default 0 (blockDurationMs config) in
    try_catch
      (let blockKey := "block:" ++ createRateLimitIdentifier context in
       let* r := get_redis in
       match r with
       | Some _ =>
           let* stored := redis_get env blockKey in
           match stored with
           | Some (RNumber until) =>
               if negb (until =? 0) && (now env <? until) then ret (Blocked until)
               else ret NotBlocked
           | _ => ret NotBlocked
           end
       | None =>
           let* recentViolations := prisma_securityLog_count env context d in
           if 3 <=? recentViolations then ret (Blocked (now env + d))
           else ret NotBlocked
       end)
      (fun e => console_error "Error checking block status:" e >> ret NotBlocked).

Definition handleRateLimitBlock (env : Env) (context : RateLimitContext)
    (config : RateLimitConfig) : M unit :=
  if negb (truthy_opt_number (blockDurationMs config)) then ret tt
  else
    let d := default 0 (blockDurationMs config) in
    try_catch
      (let blockKey := "block:" ++ createRateLimitIdentifier context in
       let until := now env + d in
       let* r := get_redis in
       (match r with
        | Some _ => redis_setex env blockKey (ceil_div_1000 d) (RNumber until)
        | None => ret tt
        end) >>
       let* iso := toISOString until in
       logSecurityEvent env
         {| ev_userId := userId context;
            ev_action := RATE_LIMIT_EXCEEDED;
            ev_details :=
              Some ([ ("endpoint", DString (endpoint context));
                      ("action", DString "blocked") ]
                    ++ optional_field "blockDuration" (DString <$> blockDuration config)
                    ++ [ ("blockUntil", iso) ])%list;
            ev_ip := Some (ip context);
            ev_userAgent := Some (userAgent context);
            ev_success := false |})
      (fun e => console_error "Error handling rate limit block:" e).

(** The part of [checkRateLimitDatabase] that follows the [findFirst]: the
    threshold test, the upsert and the result. *)
Definition checkRateLimitDatabase_write (env : Env) (context : RateLimitContext)
    (config : RateLimitConfig) (rule : RateLimitRule) (existing : option RateLimitEntry)
    : M RateLimitResult :=
  let accept_request : M RateLimitResult :=
    prisma_rateLimitEntry_upsert env (entry_id <$> existing) context rule >>
    let currentAttempts := (match existing with Some e => attempts e | None => 0 end) + 1 in
    ret {| success := true; limit := Finite (requests rule);
           remaining := Finite (Z.max 0 (requests rule - currentAttempts));
           reset := now env + windowMs rule; blocked := None; blockUntil := None;
           retryAfter := None; error := None |} in
  match existing with
  | Some e =>
      if requests rule <=? attempts e then
        logRateLimitViolation env context config "exceeded_database" None >>
        ret {| success := false; limit := Finite (requests rule); remaining := Finite 0;
               reset := expiresAt e; blocked := None; blockUntil := None;
               retryAfter := Some (ceil_div_1000 (expiresAt e - now env));
               error := None |}
      else accept_request
  | None => accept_request
  end.

Definition checkRateLimitDatabase (env : Env) (context : RateLimitContext)
    (config : RateLimitConfig) : M RateLimitResult :=
  match rules config !! 0%nat with
  | None => throw TypeError
  | Some rule =>
      try_catch
        (let* existing := prisma_rateLimitEntry_findFirst env context in
         checkRateLimitDatabase_write env context config rule existing)
        (fun e =>
           console_error "Database rate limiting error:" e >>
           ret {| success := true; limit := Finite (requests rule);
                  remaining := Finite (requests rule - 1);
                  reset := now env + windowMs rule; blocked := None; blockUntil := None;
                  retryAfter := None; error := Some "Database rate limiting error" |})
  end.

(** The result of both bypass paths. *)
Definition unlimited (env : Env) : RateLimitResult :=
  {| success := true; limit := Infinity; remaining := Infinity;
     reset := now env + 60000; blocked := None; blockUntil := None;
     retryAfter := None; error := None |}.

(** Lines 131-133 of [checkRateLimit]:
    [customConfig || OPERATION_RATE_LIMITS[configKey] || getRateLimitConfig(...)]. *)
Definition selectConfig (context : RateLimitContext) (configKey : string)
    (customConfig : option RateLimitConfig) : RateLimitConfig :=
  match customConfig with
  | Some c => c
  | None =>
      match OPERATION_RATE_LIMITS !! configKey with
      | Some c => c
      | None => getRateLimitConfig configKey (userRole context)
      end
  end.

(** Lines 150-188 of [checkRateLimit]: the counter check. *)
Definition counterCheck (env : Env) (context : RateLimitContext)
    (config : RateLimitConfig) : M RateLimitResult :=
  let* r := get_redis in
  match r with
  | None => checkRateLimitDatabase env context config
  | Some _ =>
      let* limiter := getRateLimiter env config in
      match limiter with
      | None => throw (Error "Failed to create rate limiter")
      | Some limiter =>
          let ident := createRateLimitIdentifier context in
          let* result := limiter_limit env limiter ident in
          if negb (resp_success result) then
            logRateLimitViolation env context config "exceeded" None >>
            handleRateLimitBlock env context config >>
            ret {| success := false; limit := Finite (resp_limit result);
                   remaining := Finite (resp_remaining result);
                   reset := resp_reset result; blocked := None; blockUntil := None;
                   retryAfter := Some (ceil_div_1000 (resp_reset result - now env));
                   error := None |}
          else
            ret {| success := true; limit := Finite (resp_limit result);
                   remaining := Finite (resp_remaining result);
                   reset := resp_reset result; blocked := None; blockUntil := None;
                   retryAfter := None; error := None |}
      end
  end.

(** Lines 135-188 of [checkRateLimit]: the block check, then the counter
    check, for the selected configuration. *)
Definition enforce (env : Env) (context : RateLimitContext)
    (config : RateLimitConfig) : M RateLimitResult :=
  let* blockStatus := checkBlockStatus env context config in
  match blockStatus with
  | Blocked until =>
      logRateLimitViolation env context config "blocked" (Some until) >>
      match rules config !! 0%nat with
      | None => throw TypeError
      | Some rule0 =>
          ret {| success := false; limit := Finite (requests rule0);
                 remaining := Finite 0; reset := until; blocked := Some true;
                 blockUntil := Some until;
                 retryAfter := Some (ceil_div_1000 (until - now env));
                 error := None |}
      end
  | NotBlocked => counterCheck env context config
  end.

(** The [try] block of [checkRateLimit]. *)
Definition checkRateLimit_try (env : Env) (context : RateLimitContext)
    (configKey : string) (customConfig : option RateLimitConfig) : M RateLimitResult :=
  let* headersList := headers env in
  let emergencyBypass := headersList EMERGENCY_BYPASS_HEADER in
  if strict_eq emergencyBypass (EMERGENCY_BYPASS_TOKEN env) then ret (unlimited env)
  else if isWhitelisted (ip context) then ret (unlimited env)
  else enforce env context (selectConfig context configKey customConfig).

(** The [catch] block of [checkRateLimit]. *)
Definition checkRateLimit_catch (env : Env) (context : RateLimitContext) (e : Exn)
    : M RateLimitResult :=
  console_error "Rate limiting error:" e >>
  logSecurityEvent env
    {| ev_userId := userId context;
       ev_action := RATE_LIMIT_EXCEEDED;
       ev_details := Some [ ("endpoint", DString (endpoint context));
                            ("error", DMessage e);
                            ("ip", DString (ip context)) ];
       ev_ip := Some (ip context);
       ev_userAgent := Some (userAgent context);
       ev_success := false |} >>
  ret {| success := true; limit := Finite 1000; remaining := Finite 999;
         reset := now env + 60000; blocked := None; blockUntil := None;
         retryAfter := None; error := Some "Rate limiting temporarily unavailable" |}.

Definition checkRateLimit (env : Env) (context : RateLimitContext)
    (configKey : string) (customConfig : option RateLimitConfig) : M RateLimitResult :=
  try_catch (checkRateLimit_try env context configKey customConfig)
            (checkRateLimit_catch env context).

(** ** Vocabulary of the properties *)

(** The block-ledger lookup of [checkBlockStatus] throws: the Redis [get]
    when the client exists, the [count] on the security log otherwise. *)
Definition ledger_lookup_fails (env : Env) (w : World) : bool :=
  match redis w with
  | Some _ => redisGetFails env
  | None => countFails env
  end.

(** Two configurations with the same identifier, the same block duration and
    the same first rule. *)
Definition same_primary (c1 c2 : RateLimitConfig) : Prop :=
  identifier c1 = identifier c2
  /\ rules c1 !! 0%nat = rules c2 !! 0%nat
  /\ blockDuration c1 = blockDuration c2
  /\ blockDurationMs c1 = blockDurationMs c2.

(** The configuration cut down to its first rule. *)
Definition primary_only (c : RateLimitConfig) : RateLimitConfig :=
  {| identifier := identifier c; rules := take 1 (rules c);
     blockDuration := blockDuration c; blockDurationMs := blockDurationMs c |}.

(** [w'] differs from [w] at most in the security log and on the console. *)
Definition same_stores (w w' : World) : Prop :=
  redis w' = redis w /\ limiterState w' = limiterState w
  /\ rateLimiters w' = rateLimiters w /\ rateLimitEntry w' = rateLimitEntry w.

(** The console of [w'] is the console of [w] followed by [l]. *)
Definition console_added (w w' : World) (l : list (string * option Exn)) : Prop :=
  console w' = (console w ++ l)%list.

(** Every call to Redis, to the limiter and to the database throws. *)
Definition storage_unavailable (env : Env) : Prop :=
  redisGetFails env = true /\ redisSetexFails env = true /\ limiterFails env = true
  /\ findFirstFails env = true /\ upsertFails env = true /\ countFails env = true
  /\ forall row, createFails env row = true.

(** The request does not carry the emergency-bypass token. *)
Definition not_bypass (env : Env) : Prop :=
  match requestHeaders env with
  | Some headersList =>
      strict_eq (headersList EMERGENCY_BYPASS_HEADER) (EMERGENCY_BYPASS_TOKEN env) = false
  | None => True
  end.

(** The fail-open result of the [catch] block of [checkRateLimitDatabase]. *)
Definition database_fail_open (env : Env) (rule : RateLimitRule) : RateLimitResult :=
  {| success := true; limit := Finite (requests rule);
     remaining := Finite (requests rule - 1);
     reset := now env + windowMs rule; blocked := None; blockUntil := None;
     retryAfter := None; error := Some "Database rate limiting error" |}.

(** The environment with another behaviour of the event sink. *)
Definition with_sink (f : SecurityLog -> bool) (env : Env) : Env :=
  {| now := now env; requestHeaders := requestHeaders env;
     EMERGENCY_BYPASS_TOKEN := EMERGENCY_BYPASS_TOKEN env;
     redisGetFails := redisGetFails env; redisSetexFails := redisSetexFails env;
     slidingWindowFails := slidingWindowFails env;
     limiterFails := limiterFails env; findFirstFails := findFirstFails env;
     upsertFails := upsertFails env; countFails := countFails env;
     detailsEndpointEquals := detailsEndpointEquals env;
     createFails := f |}.

(** Two outcomes with the same value (or the same exception) in worlds that
    differ at most in the security log and on the console. *)
Definition agree {A} (o1 o2 : World * (Exn + A)) : Prop :=
  same_stores (fst o1) (fst o2) /\ snd o1 = snd o2.

(** Two computations that cannot tell such worlds apart. *)
Definition respects {A} (m1 m2 : M A) : Prop :=
  forall w1 w2, same_stores w1 w2 -> agree (m1 w1) (m2 w2).

(** A sequential run of [checkRateLimitDatabase], one request per
    environment, each in the world the previous one left. *)
Fixpoint run_database (envs : list Env) (context : RateLimitContext)
    (config : RateLimitConfig) (w : World) : list (Exn + RateLimitResult) :=
  match envs with
  | [] => []
  | env :: rest =>
      let '(w', out) := checkRateLimitDatabase env context config w in
      out :: run_database rest context config w'
  end.

(** The table [t0] followed by the one counter row of the run: that row has
    the fresh id, belongs to the context, holds [k] attempts and expires at
    [expires]. *)
Definition counted (t0 : list RateLimitEntry) (context : RateLimitContext)
    (expires k : Z) (w : World) : Prop :=
  exists e, rateLimitEntry w = (t0 ++ [e])%list
    /\ entry_id e = fresh_id t0
    /\ entry_ip e = ip context /\ entry_endpoint e = endpoint context
    /\ attempts e = k /\ expiresAt e = expires.

(** The Redis key of the block of a context's identifier. *)
Definition blockKey (context : RateLimitContext) : string :=
  "block:" ++ createRateLimitIdentifier context.

(** The ledger holds a block for the identifier of [context] that is in force
    at the instant of [env]: the key is alive and its value [until] is ahead. *)
Definition active_block (env : Env) (context : RateLimitContext) (until : Z)
    (w : World) : Prop :=
  exists store ttlEnd,
    redis w = Some store
    /\ store !! blockKey context = Some (RNumber until, ttlEnd)
    /\ now env < ttlEnd /\ now env < until.

(** The result of the blocked path. *)
Definition blocked_result (env : Env) (rule0 : RateLimitRule) (until : Z)
    : RateLimitResult :=
  {| success := false; limit := Finite (requests rule0); remaining := Finite 0;
     reset := until; blocked := Some true; blockUntil := Some until;
     retryAfter := Some (ceil_div_1000 (until - now env)); error := None |}.

(** A call that reads its headers, finds no bypass token in them, and whose
    ledger lookup answers. *)
Definition regular_call (env : Env) : Prop :=
  (exists headersList,
     requestHeaders env = Some headersList
     /\ strict_eq (headersList EMERGENCY_BYPASS_HEADER) (EMERGENCY_BYPASS_TOKEN env) = false)
  /\ redisGetFails env = false.

(** A sequential run of [checkRateLimit], one call per environment. *)
Fixpoint run_checks (envs : list Env) (context : RateLimitContext) (configKey : string)
    (customConfig : option RateLimitConfig) (w : World)
    : World * list (Exn + RateLimitResult) :=
  match envs with
  | [] => (w, [])
  | env :: rest =>
      let '(w1, out) := checkRateLimit env context configKey customConfig w in
      let '(w2, outs) := run_checks rest context configKey customConfig w1 in
      (w2, out :: outs)
  end.

(** A computation that leaves the Redis keys as they are. *)
Definition keeps_redis {A} (m : M A) : Prop :=
  forall w, redis (fst (m w)) = redis w.

(** The ledger after [handleRateLimitBlock] has written the block of
    [context] at the instant of [env], for [d] milliseconds. *)
Definition block_written (env : Env) (context : RateLimitContext)
    (config : RateLimitConfig) (w w' : World) : Prop :=
  exists store d,
    blockDurationMs config = Some d /\ d <> 0
    /\ redis w = Some store
    /\ redis w' = Some (<[blockKey context :=
                            (RNumber (now env + d), now env + ceil_div_1000 d * 1000)]>
                          store).

(** The request was refused for exceeding the quota: a failure result that is
    not the result of the blocked path. *)
Definition refused (out : Exn + RateLimitResult) : Prop :=
  exists res, out = inr res /\ success res = false /\ blocked res = None.

(** Two requests A and B served at the same time, scheduled so that both
    reads complete before either write is issued. *)
Definition interleaved_database (envA envB : Env) (context : RateLimitContext)
    (config : RateLimitConfig) (rule : RateLimitRule)
    : M (RateLimitResult * RateLimitResult) :=
  let* existingA := prisma_rateLimitEntry_findFirst envA context in
  let* existingB := prisma_rateLimitEntry_findFirst envB context in
  let* resultA := checkRateLimitDatabase_write envA context config rule existingA in
  let* resultB := checkRateLimitDatabase_write envB context config rule existingB in
  ret (resultA, resultB).

(** ** Properties *)

(** *** Arithmetic of [Math.ceil(x / 1000)] *)

Lemma ceil_div_1000_pos (x : Z) : 0 < x -> 0 < ceil_div_1000 x.
Proof.
  intros Hx. unfold ceil_div_1000.
  assert (- x / 1000 < 0) by (apply Z.div_lt_upper_bound; lia).
  lia.
Qed.

Lemma ceil_div_1000_bound (x : Z) : x <= ceil_div_1000 x * 1000.
Proof.
  unfold ceil_div_1000.
  pose proof (Z.mul_div_le (- x) 1000 ltac:(lia)). lia.
Qed.

(** *** Selection of the enforced configuration *)

Lemma selectConfig_custom (context : RateLimitContext) (k k' : string)
    (custom : option RateLimitConfig) :
  selectConfig context k' (Some (selectConfig context k custom))
  = selectConfig context k custom.
Proof. reflexivity. Qed.

Lemma checkRateLimit_selected (env : Env) (context : RateLimitContext)
    (k k' : string) (custom : option RateLimitConfig) :
  checkRateLimit env context k custom
  = checkRateLimit env context k' (Some (selectConfig context k custom)).
Proof. reflexivity. Qed.

(** C9. The configuration that [checkRateLimit] enforces is chosen by a fixed
    precedence.  (1) A caller-supplied configuration is enforced as it is,
    whatever the key and the role.  (2) Without one, a key of
    [OPERATION_RATE_LIMITS] enforces that table's entry, and the role is not
    looked at: the call is the call with that entry supplied by hand.
    (3) Only for a key that [OPERATION_RATE_LIMITS] does not hold is the
    role-aware catalog resolution [getRateLimitConfig] enforced.
    (4) So "profile_update" and "password_change" select their operation
    entries for every context, whatever its role. *)
Theorem config_precedence (env : Env) (context : RateLimitContext) (configKey : string) :
  (forall c k', selectConfig context configKey (Some c) = c
     /\ checkRateLimit env context configKey (Some c)
        = checkRateLimit env context k' (Some c))
  /\ (forall c, OPERATION_RATE_LIMITS !! configKey = Some c ->
        selectConfig context configKey None = c
        /\ checkRateLimit env context configKey None
           = checkRateLimit env context configKey (Some c))
  /\ (OPERATION_RATE_LIMITS !! configKey = None ->
        selectConfig context configKey None
        = getRateLimitConfig configKey (userRole context)
        /\ checkRateLimit env context configKey None
           = checkRateLimit env context configKey
               (Some (getRateLimitConfig configKey (userRole context))))
  /\ selectConfig context "profile_update" None
     = mkConfig "op:profile_update" 5 "1 h" (60 * 60 * 1000) "30 m" (30 * 60 * 1000)
  /\ selectConfig context "password_change" None
     = mkConfig "op:password_change" 3 "24 h" (24 * 60 * 60 * 1000)
         "1 h" (60 * 60 * 1000).
Proof.
  split; [|split; [|split; [|split; reflexivity]]].
  - intros c k'. split; reflexivity.
  - intros c Hc.
    assert (Hs : selectConfig context configKey None = c)
      by (unfold selectConfig; rewrite Hc; reflexivity).
    split; [exact Hs|].
    rewrite (checkRateLimit_selected env context configKey configKey None).
    rewrite Hs. reflexivity.
  - intros Hnone.
    assert (Hs : selectConfig context configKey None
                 = getRateLimitConfig configKey (userRole context))
      by (unfold selectConfig; rewrite Hnone; reflexivity).
    split; [exact Hs|].
    rewrite (checkRateLimit_selected env context configKey configKey None).
    rewrite Hs. reflexivity.
Qed.

(** *** The block check fails open *)

Lemma checkBlockStatus_no_duration (env : Env) (context : RateLimitContext)
    (config : RateLimitConfig) (w : World) :
  truthy_opt_number (blockDurationMs config) = false ->
  checkBlockStatus env context config w = (w, inr NotBlocked).
Proof. intros H. unfold checkBlockStatus. rewrite H. reflexivity. Qed.

Lemma checkBlockStatus_lookup_fails (env : Env) (context : RateLimitContext)
    (config : RateLimitConfig) (w : World) :
  truthy_opt_number (blockDurationMs config) = true ->
  ledger_lookup_fails env w = true ->
  checkBlockStatus env context config w
  = (set_console (console w ++ [("Error checking block status:",
                                 Some (ExternalError
                                         (match redis w with
                                          | Some _ => "redis"
                                          | None => "prisma"
                                          end)))])%list w,
     inr NotBlocked).
Proof.
  intros Hd Hf. unfold checkBlockStatus, ledger_lookup_fails in *. rewrite Hd. simpl.
  unfold try_catch, bind, get_redis, redis_get, prisma_securityLog_count.
  destruct (redis w) eqn:Hr; rewrite ?Hr, Hf; reflexivity.
Qed.

(** C10. [checkBlockStatus] fails open.  When the configuration has no
    [blockDurationMs] (absent, or zero), it answers "not blocked" without
    reading anything, whatever the world holds, and the request is decided by
    the counter check alone.  When the configuration has one and the ledger
    lookup throws, it answers "not blocked" as well, having only written a
    line on the console, and the request goes on to the counter check. *)
Theorem block_status_fails_open (env : Env) (context : RateLimitContext)
    (config : RateLimitConfig) (w : World) :
  (truthy_opt_number (blockDurationMs config) = false ->
     checkBlockStatus env context config w = (w, inr NotBlocked)
     /\ enforce env context config w = counterCheck env context config w)
  /\ (ledger_lookup_fails env w = true ->
        exists w',
          checkBlockStatus env context config w = (w', inr NotBlocked)
          /\ enforce env context config w = counterCheck env context config w'
          /\ redis w' = redis w /\ limiterState w' = limiterState w
          /\ rateLimiters w' = rateLimiters w
          /\ rateLimitEntry w' = rateLimitEntry w
          /\ securityLog w' = securityLog w).
Proof.
  split.
  - intros Hd. pose proof (checkBlockStatus_no_duration env context config w Hd) as Hb.
    split; [exact Hb|]. unfold enforce, bind. rewrite Hb. reflexivity.
  - intros Hf. destruct (truthy_opt_number (blockDurationMs config)) eqn:Hd.
    + pose proof (checkBlockStatus_lookup_fails env context config w Hd Hf) as Hb.
      eexists. split; [exact Hb|]. split.
      * unfold enforce, bind. rewrite Hb. reflexivity.
      * repeat split; reflexivity.
    + pose proof (checkBlockStatus_no_duration env context config w Hd) as Hb.
      exists w. split; [exact Hb|]. split.
      * unfold enforce, bind. rewrite Hb. reflexivity.
      * repeat split; reflexivity.
Qed.

(** *** The emergency bypass *)

(** C5, as the code has it.  A request whose bypass header equals the
    configured token gets the unlimited success result: [limit] and
    [remaining] are [Infinity], [reset] is one minute ahead.  The result
    carries no marker (its [error] field is absent) and the call changes
    nothing: no event reaches the security log and nothing is written on the
    console. *)
Theorem emergency_bypass_unlimited (env : Env) (context : RateLimitContext)
    (configKey : string) (customConfig : option RateLimitConfig) (w : World)
    (headersList : string -> option string) (token : string) :
  requestHeaders env = Some headersList ->
  headersList EMERGENCY_BYPASS_HEADER = Some token ->
  EMERGENCY_BYPASS_TOKEN env = Some token ->
  checkRateLimit env context configKey customConfig w
  = (w, inr {| success := true; limit := Infinity; remaining := Infinity;
               reset := now env + 60000; blocked := None; blockUntil := None;
               retryAfter := None; error := None |}).
Proof.
  intros Hh Hv Ht.
  unfold checkRateLimit, checkRateLimit_try, try_catch, bind, headers.
  rewrite Hh. unfold ret at 1. rewrite Hv, Ht. unfold strict_eq.
  rewrite String.eqb_refl. reflexivity.
Qed.

(** *** Only the first rule is evaluated *)

Lemma enforce_same_primary (env : Env) (context : RateLimitContext)
    (c1 c2 : RateLimitConfig) :
  same_primary c1 c2 -> enforce env context c1 = enforce env context c2.
Proof.
  destruct c1 as [i1 r1 b1 m1], c2 as [i2 r2 b2 m2].
  unfold same_primary. simpl. intros (-> & Hr & -> & ->).
  unfold enforce, counterCheck, checkRateLimitDatabase, checkRateLimitDatabase_write,
    getRateLimiter, checkBlockStatus, handleRateLimitBlock, logRateLimitViolation.
  simpl. rewrite Hr. reflexivity.
Qed.

Lemma same_primary_primary_only (c : RateLimitConfig) : same_primary c (primary_only c).
Proof.
  unfold same_primary, primary_only. simpl. repeat split.
  destruct (rules c); reflexivity.
Qed.

(** C6, as the code has it.  [checkRateLimit] evaluates the first rule of the
    sequence and no other: a call with a configuration and the call with that
    configuration cut down to its first rule return the same result and leave
    the same world, and so do the calls with any two configurations that share
    identifier, block duration and first rule. *)
Theorem only_first_rule_evaluated (env : Env) (context : RateLimitContext)
    (configKey : string) (c : RateLimitConfig) (w : World) :
  checkRateLimit env context configKey (Some c) w
  = checkRateLimit env context configKey (Some (primary_only c)) w
  /\ forall c', same_primary c c' ->
       checkRateLimit env context configKey (Some c) w
       = checkRateLimit env context configKey (Some c') w.
Proof.
  assert (H : forall c', same_primary c c' ->
            checkRateLimit env context configKey (Some c) w
            = checkRateLimit env context configKey (Some c') w).
  { intros c' Hc. unfold checkRateLimit, checkRateLimit_try. simpl.
    rewrite (enforce_same_primary env context c c' Hc). reflexivity. }
  split; [apply H, same_primary_primary_only | exact H].
Qed.

(** *** Frames: what a step leaves untouched *)

Lemma same_stores_refl (w : World) : same_stores w w.
Proof. repeat split. Qed.

Lemma same_stores_trans (w1 w2 w3 : World) :
  same_stores w1 w2 -> same_stores w2 w3 -> same_stores w1 w3.
Proof. unfold same_stores. intuition congruence. Qed.

Lemma console_added_trans (w1 w2 w3 : World) l1 l2 :
  console_added w1 w2 l1 -> console_added w2 w3 l2 ->
  console_added w1 w3 (l1 ++ l2)%list.
Proof. unfold console_added. intros H1 H2. rewrite H2, H1, app_assoc. reflexivity. Qed.

(** [logSecurityEvent] never throws, and touches only the security log and
    the console. *)
Lemma logSecurityEvent_returns (env : Env) (d : SecurityEventData) (w : World) :
  exists w' l, logSecurityEvent env d w = (w', inr tt)
            /\ same_stores w w' /\ console_added w w' l.
Proof.
  unfold logSecurityEvent, try_catch, bind, headers, prisma_securityLog_create,
    console_error, console_added.
  destruct (negb (truthy_opt_string (ev_ip d)) || negb (truthy_opt_string (ev_userAgent d)));
    [destruct (requestHeaders env) as [h|]|]; simpl;
    try match goal with |- context [createFails env ?r] => destruct (createFails env r) end;
    simpl; eexists _, _; (split; [reflexivity|]);
    (split; [unfold same_stores; simpl; repeat split|]); simpl;
    first [reflexivity | symmetry; apply app_nil_r].
Qed.

(** The [catch] block of [checkRateLimit] returns the fail-open result. *)
Lemma checkRateLimit_catch_returns (env : Env) (context : RateLimitContext)
    (e : Exn) (w : World) :
  exists w' l,
    checkRateLimit_catch env context e w
    = (w', inr {| success := true; limit := Finite 1000; remaining := Finite 999;
                  reset := now env + 60000; blocked := None; blockUntil := None;
                  retryAfter := None;
                  error := Some "Rate limiting temporarily unavailable" |})
    /\ same_stores w w'
    /\ console_added w w' (("Rate limiting error:", Some e) :: l).
Proof.
  unfold checkRateLimit_catch, bind at 1. unfold console_error at 1.
  match goal with
  | |- context [logSecurityEvent env ?d] =>
      destruct (logSecurityEvent_returns env d
                  (set_console (console w ++ [("Rate limiting error:", Some e)])%list w))
        as (w' & l & Hlog & Hs & Hc)
  end.
  exists w', l. unfold bind. rewrite Hlog. split; [reflexivity|]. split.
  - destruct Hs as (? & ? & ? & ?). repeat split; simpl in *; assumption.
  - unfold console_added in *. rewrite Hc. simpl. rewrite <- app_assoc. reflexivity.
Qed.

(** [checkRateLimit] returns a result on every input. *)
Lemma checkRateLimit_returns (env : Env) (context : RateLimitContext)
    (configKey : string) (customConfig : option RateLimitConfig) (w : World) :
  exists w' r, checkRateLimit env context configKey customConfig w = (w', inr r).
Proof.
  unfold checkRateLimit, try_catch.
  destruct (checkRateLimit_try env context configKey customConfig w) as [w1 [e|r]].
  - destruct (checkRateLimit_catch_returns env context e w1) as (w' & l & H & _).
    eauto.
  - eauto.
Qed.

(** *** Total storage outage *)

Lemma logSecurityEvent_sink_down (env : Env) (d : SecurityEventData) (w : World) :
  (forall row, createFails env row = true) ->
  exists w' l, logSecurityEvent env d w = (w', inr tt)
            /\ securityLog w' = securityLog w /\ console_added w w' l.
Proof.
  intros Hdown.
  unfold logSecurityEvent, try_catch, bind, headers, prisma_securityLog_create,
    console_error, console_added.
  destruct (negb (truthy_opt_string (ev_ip d)) || negb (truthy_opt_string (ev_userAgent d)));
    [destruct (requestHeaders env) as [h|]|]; simpl; rewrite ?Hdown; simpl;
    eexists _, _; (split; [reflexivity|]); split; reflexivity.
Qed.

Lemma counterCheck_outage (env : Env) (context : RateLimitContext)
    (config : RateLimitConfig) (w : World) :
  storage_unavailable env ->
  exists w' out l,
    counterCheck env context config w = (w', out)
    /\ securityLog w' = securityLog w
    /\ console_added w w' l
    /\ match redis w, rules config with
       | None, rule :: _ =>
           out = inr (database_fail_open env rule)
           /\ exists e, In ("Database rate limiting error:", Some e) l
       | _, _ => exists e, out = inl e
       end.
Proof.
  intros (Hget & Hsetex & Hlim & Hfind & Hups & Hcount & Hsink).
  unfold counterCheck, bind, get_redis, console_added.
  destruct (redis w) as [store|] eqn:Hredis.
  - unfold getRateLimiter, bind, get_redis, get_rateLimiters, put_rateLimiters.
    rewrite Hredis.
    destruct (rateLimiters w !! identifier config) as [limiter|].
    + unfold ret, limiter_limit. rewrite Hlim.
      eexists _, _, []. repeat split; [rewrite app_nil_r; reflexivity | eauto].
    + destruct (rules config !! 0%nat) as [rule|].
      * unfold Ratelimit_slidingWindow.
        destruct (slidingWindowFails env (requests rule) (window rule)).
        -- unfold throw.
           eexists _, _, []. repeat split; [rewrite app_nil_r; reflexivity | eauto].
        -- unfold ret, limiter_limit. rewrite Hlim.
           eexists _, _, []. repeat split; [rewrite app_nil_r; reflexivity | eauto].
      * unfold throw.
        eexists _, _, []. repeat split; [rewrite app_nil_r; reflexivity | eauto].
  - unfold checkRateLimitDatabase.
    destruct (rules config) as [|rule more]; simpl.
    + unfold throw.
      eexists _, _, []. repeat split; [rewrite app_nil_r; reflexivity | eauto].
    + unfold try_catch, bind, prisma_rateLimitEntry_findFirst. rewrite Hfind.
      unfold console_error, ret.
      eexists _, _, _. repeat split. eexists. left. reflexivity.
Qed.

(** Under an outage the block check answers "not blocked" and leaves the
    client, the log and the stores as they are. *)
Lemma checkBlockStatus_outage (env : Env) (context : RateLimitContext)
    (config : RateLimitConfig) (w : World) :
  ledger_lookup_fails env w = true ->
  exists w1 l1,
    checkBlockStatus env context config w = (w1, inr NotBlocked)
    /\ redis w1 = redis w /\ securityLog w1 = securityLog w
    /\ console_added w w1 l1.
Proof.
  intros Hfails.
  destruct (truthy_opt_number (blockDurationMs config)) eqn:Hd.
  - rewrite (checkBlockStatus_lookup_fails _ _ _ _ Hd Hfails).
    eexists _, _. split; [reflexivity|]. repeat split.
  - rewrite (checkBlockStatus_no_duration _ _ _ _ Hd).
    exists w, []. split; [reflexivity|]. repeat split.
    unfold console_added. rewrite app_nil_r. reflexivity.
Qed.

(** C2, as the code has it.  [checkRateLimit] returns a result on every input
    and never throws.  Under a total storage outage a request without the
    bypass token is allowed, and the result is one of two.  When the Redis
    client is absent, the headers can be read and the configuration has a first
    rule, the failure is met inside the database fallback: [success = true],
    [limit] is the rule's quota, [remaining] the quota less one, and [error] is
    "Database rate limiting error".  In every other case the outer [catch]
    answers: [success = true], [limit = 1000], [remaining = 999] and [error]
    is "Rate limiting temporarily unavailable".  There is no other marker.
    The diagnostic is a line on the console; nothing reaches the security log,
    which is down as well. *)
Theorem check_returns_and_fails_open (env : Env) (context : RateLimitContext)
    (configKey : string) (customConfig : option RateLimitConfig) (w : World) :
  exists w' r,
    checkRateLimit env context configKey customConfig w = (w', inr r)
    /\ (storage_unavailable env -> not_bypass env ->
          securityLog w' = securityLog w
          /\ exists l e,
               console_added w w' l
               /\ match redis w, requestHeaders env,
                        rules (selectConfig context configKey customConfig) with
                  | None, Some _, rule0 :: _ =>
                      r = {| success := true; limit := Finite (requests rule0);
                             remaining := Finite (requests rule0 - 1);
                             reset := now env + windowMs rule0; blocked := None;
                             blockUntil := None; retryAfter := None;
                             error := Some "Database rate limiting error" |}
                      /\ In ("Database rate limiting error:", Some e) l
                  | _, _, _ =>
                      r = {| success := true; limit := Finite 1000;
                             remaining := Finite 999; reset := now env + 60000;
                             blocked := None; blockUntil := None; retryAfter := None;
                             error := Some "Rate limiting temporarily unavailable" |}
                      /\ In ("Rate limiting error:", Some e) l
                  end).
Proof.
  destruct (checkRateLimit_returns env context configKey customConfig w)
    as (w' & r & Hrun).
  exists w', r. split; [exact Hrun|].
  intros Hdown Hnb.
  assert (Hsink : forall row, createFails env row = true) by apply Hdown.
  (* what the [catch] block does to an exception raised in world [w1] *)
  assert (Hcatch : forall w1 e l1,
            securityLog w1 = securityLog w -> console_added w w1 l1 ->
            checkRateLimit_catch env context e w1 = (w', inr r) ->
            securityLog w' = securityLog w
            /\ exists l e,
                 console_added w w' l
                 /\ r = {| success := true; limit := Finite 1000;
                           remaining := Finite 999; reset := now env + 60000;
                           blocked := None; blockUntil := None; retryAfter := None;
                           error := Some "Rate limiting temporarily unavailable" |}
                 /\ In ("Rate limiting error:", Some e) l).
  { intros w1 e l1 Hlog1 Hc1 Hc.
    unfold checkRateLimit_catch, bind in Hc. unfold console_error at 1 in Hc.
    match type of Hc with
    | context [logSecurityEvent env ?d ?w0] =>
        destruct (logSecurityEvent_sink_down env d w0 Hsink) as (w2 & l2 & Hl & Hs2 & Hc2)
    end.
    rewrite Hl in Hc. unfold ret in Hc. inversion Hc; subst w' r; clear Hc. split.
    - rewrite Hs2. simpl. exact Hlog1.
    - exists (l1 ++ ("Rate limiting error:", Some e) :: l2)%list, e. split; [|split].
      + unfold console_added in *. rewrite Hc2. simpl. rewrite Hc1.
        rewrite <- !app_assoc. reflexivity.
      + reflexivity.
      + apply in_or_app. right. left. reflexivity. }
  unfold checkRateLimit, try_catch, checkRateLimit_try, bind, headers in Hrun.
  unfold not_bypass in Hnb.
  destruct (requestHeaders env) as [headersList|].
  - unfold ret at 1 in Hrun. rewrite Hnb in Hrun. simpl in Hrun.
    unfold enforce, bind in Hrun.
    assert (Hfails : ledger_lookup_fails env w = true).
    { unfold ledger_lookup_fails. destruct (redis w); apply Hdown. }
    destruct (checkBlockStatus_outage env context
                (selectConfig context configKey customConfig) w Hfails)
      as (w1 & l1 & Hbs & Hr1 & Hlog1 & Hcons1).
    rewrite Hbs in Hrun.
    destruct (counterCheck_outage env context
                (selectConfig context configKey customConfig) w1 Hdown)
      as (w2 & out & l2 & Hcc & Hlog2 & Hcons2 & Hout).
    rewrite Hcc in Hrun. rewrite Hr1 in Hout.
    assert (Hthrown : forall e, out = inl e ->
              securityLog w' = securityLog w
              /\ exists l e,
                   console_added w w' l
                   /\ r = {| success := true; limit := Finite 1000;
                             remaining := Finite 999; reset := now env + 60000;
                             blocked := None; blockUntil := None; retryAfter := None;
                             error := Some "Rate limiting temporarily unavailable" |}
                   /\ In ("Rate limiting error:", Some e) l).
    { intros e ->. apply (Hcatch w2 e (l1 ++ l2)%list); [congruence | | exact Hrun].
      eapply console_added_trans; eassumption. }
    destruct (redis w) as [store|].
    + destruct Hout as (e & He). destruct (Hthrown e He) as (Hlog & l & e' & Hl).
      split; [exact Hlog|]. exists l, e'. exact Hl.
    + destruct (rules (selectConfig context configKey customConfig)) as [|rule0 more].
      * destruct Hout as (e & He). destruct (Hthrown e He) as (Hlog & l & e' & Hl).
        split; [exact Hlog|]. exists l, e'. exact Hl.
      * destruct Hout as (-> & e & Hin).
        inversion Hrun; subst w' r; clear Hrun.
        split; [congruence|].
        exists (l1 ++ l2)%list, e. split; [|split].
        -- eapply console_added_trans; eassumption.
        -- reflexivity.
        -- apply in_or_app. right. exact Hin.
  - unfold throw in Hrun.
    destruct (Hcatch w (ExternalError "headers") []) as (Hlog & l & e & Hl);
      [reflexivity | | exact Hrun |].
    { unfold console_added. rewrite app_nil_r. reflexivity. }
    split; [exact Hlog|]. exists l, e. destruct (redis w); exact Hl.
Qed.

(** *** The event sink does not influence the decision *)

Lemma respects_ret {A} (a : A) : respects (ret a) (ret a).
Proof. intros w1 w2 H. split; [exact H | reflexivity]. Qed.

Lemma respects_throw {A} (e : Exn) : respects (@throw A e) (throw e).
Proof. intros w1 w2 H. split; [exact H | reflexivity]. Qed.

Lemma respects_bind {A B} (m1 m2 : M A) (k1 k2 : A -> M B) :
  respects m1 m2 -> (forall a, respects (k1 a) (k2 a)) ->
  respects (bind m1 k1) (bind m2 k2).
Proof.
  intros Hm Hk w1 w2 Hw. unfold bind.
  specialize (Hm w1 w2 Hw). destruct (m1 w1) as [w1' o1], (m2 w2) as [w2' o2].
  destruct Hm as [Hs Ho]. simpl in Hs, Ho. subst o2.
  destruct o1 as [e|a]; [split; [exact Hs | reflexivity] | apply Hk, Hs].
Qed.

Lemma respects_try_catch {A} (m1 m2 : M A) (h1 h2 : Exn -> M A) :
  respects m1 m2 -> (forall e, respects (h1 e) (h2 e)) ->
  respects (try_catch m1 h1) (try_catch m2 h2).
Proof.
  intros Hm Hh w1 w2 Hw. unfold try_catch.
  specialize (Hm w1 w2 Hw). destruct (m1 w1) as [w1' o1], (m2 w2) as [w2' o2].
  destruct Hm as [Hs Ho]. simpl in Hs, Ho. subst o2.
  destruct o1 as [e|a]; [apply Hh, Hs | split; [exact Hs | reflexivity]].
Qed.

Lemma agree_bind_eq {A B} (m1 m2 : M A) (k1 k2 : A -> M B) (w : World) :
  m1 w = m2 w -> (forall a, respects (k1 a) (k2 a)) ->
  agree (bind m1 k1 w) (bind m2 k2 w).
Proof.
  intros Hm Hk. unfold bind. rewrite Hm. destruct (m2 w) as [w' [e|a]].
  - split; [apply same_stores_refl | reflexivity].
  - apply Hk, same_stores_refl.
Qed.

Ltac frame_solve :=
  unfold same_stores in *; simpl in *;
  repeat match goal with H : _ /\ _ |- _ => destruct H end;
  repeat split; first [reflexivity | congruence].

Lemma respects_console_error (msg : string) (e : Exn) :
  respects (console_error msg e) (console_error msg e).
Proof. intros w1 w2 H. split; [frame_solve | reflexivity]. Qed.

Lemma respects_console_warn (msg : string) :
  respects (console_warn msg) (console_warn msg).
Proof. intros w1 w2 H. split; [frame_solve | reflexivity]. Qed.

Lemma respects_get_redis : respects get_redis get_redis.
Proof.
  intros w1 w2 H. split; [exact H|]. simpl. f_equal. symmetry. apply H.
Qed.

Lemma respects_get_rateLimiters : respects get_rateLimiters get_rateLimiters.
Proof.
  intros w1 w2 H. split; [exact H|]. simpl. f_equal. symmetry. apply H.
Qed.

Lemma respects_put_rateLimiters m : respects (put_rateLimiters m) (put_rateLimiters m).
Proof. intros w1 w2 H. split; [frame_solve | reflexivity]. Qed.

Section Sink.

Variable env : Env.
Variables f g : SecurityLog -> bool.

Lemma respects_redis_setex key seconds v :
  respects (redis_setex (with_sink f env) key seconds v)
           (redis_setex (with_sink g env) key seconds v).
Proof.
  intros w1 w2 H. unfold redis_setex. simpl.
  assert (Hr : redis w2 = redis w1) by apply H. rewrite Hr.
  destruct (redis w1); [|split; [exact H | reflexivity]].
  destruct (redisSetexFails env || (seconds <=? 0));
    (split; [frame_solve | reflexivity]).
Qed.

Lemma respects_limiter_limit limiter ident :
  respects (limiter_limit (with_sink f env) limiter ident)
           (limiter_limit (with_sink g env) limiter ident).
Proof.
  intros w1 w2 H. unfold limiter_limit. simpl.
  assert (Hl : limiterState w2 = limiterState w1) by apply H. rewrite Hl.
  destruct (limiterFails env); [split; [exact H | reflexivity]|].
  destruct (slidingWindow_limit limiter ident (now env) (limiterState w1)).
  split; [frame_solve | reflexivity].
Qed.

Lemma respects_findFirst context :
  respects (prisma_rateLimitEntry_findFirst (with_sink f env) context)
           (prisma_rateLimitEntry_findFirst (with_sink g env) context).
Proof.
  intros w1 w2 H. unfold prisma_rateLimitEntry_findFirst. simpl.
  assert (Ht : rateLimitEntry w2 = rateLimitEntry w1) by apply H. rewrite Ht.
  destruct (findFirstFails env); (split; [exact H | reflexivity]).
Qed.

Lemma respects_upsert whereId context rule :
  respects (prisma_rateLimitEntry_upsert (with_sink f env) whereId context rule)
           (prisma_rateLimitEntry_upsert (with_sink g env) whereId context rule).
Proof.
  intros w1 w2 H. unfold prisma_rateLimitEntry_upsert. simpl.
  assert (Ht : rateLimitEntry w2 = rateLimitEntry w1) by apply H. rewrite Ht.
  destruct (upsertFails env); (split; [frame_solve | reflexivity]).
Qed.

Lemma respects_toISOString t : respects (toISOString t) (toISOString t).
Proof.
  unfold toISOString. destruct (valid_time t); [apply respects_ret | apply respects_throw].
Qed.

(** Whether or not the sink throws, [logSecurityEvent] returns. *)
Lemma respects_logSecurityEvent d :
  respects (logSecurityEvent (with_sink f env) d) (logSecurityEvent (with_sink g env) d).
Proof.
  intros w1 w2 H.
  destruct (logSecurityEvent_returns (with_sink f env) d w1) as (w1' & l1 & -> & H1 & _).
  destruct (logSecurityEvent_returns (with_sink g env) d w2) as (w2' & l2 & -> & H2 & _).
  split; [frame_solve | reflexivity].
Qed.

Lemma respects_logRateLimitViolation context config violationType blockUntil :
  respects (logRateLimitViolation (with_sink f env) context config violationType blockUntil)
           (logRateLimitViolation (with_sink g env) context config violationType blockUntil).
Proof.
  unfold logRateLimitViolation. apply respects_bind.
  - destruct blockUntil as [t|]; [|apply respects_ret].
    destruct (t =? 0); [apply respects_ret|].
    apply respects_bind; [apply respects_toISOString | intros; apply respects_ret].
  - intros iso. apply respects_logSecurityEvent.
Qed.

Lemma respects_handleRateLimitBlock context config :
  respects (handleRateLimitBlock (with_sink f env) context config)
           (handleRateLimitBlock (with_sink g env) context config).
Proof.
  unfold handleRateLimitBlock.
  destruct (negb (truthy_opt_number (blockDurationMs config))); [apply respects_ret|].
  apply respects_try_catch; [|intros; apply respects_console_error].
  apply respects_bind; [apply respects_get_redis|]. intros r.
  apply respects_bind.
  - destruct r; [apply respects_redis_setex | apply respects_ret].
  - intros _. apply respects_bind; [apply respects_toISOString|].
    intros iso. apply respects_logSecurityEvent.
Qed.

Lemma respects_checkRateLimitDatabase_write context config rule existing :
  respects (checkRateLimitDatabase_write (with_sink f env) context config rule existing)
           (checkRateLimitDatabase_write (with_sink g env) context config rule existing).
Proof.
  assert (Haccept :
    respects
      (prisma_rateLimitEntry_upsert (with_sink f env) (entry_id <$> existing) context rule >>
       ret {| success := true; limit := Finite (requests rule);
              remaining := Finite (Z.max 0 (requests rule
                 - ((match existing with Some e => attempts e | None => 0 end) + 1)));
              reset := now (with_sink f env) + windowMs rule; blocked := None;
              blockUntil := None; retryAfter := None; error := None |})
      (prisma_rateLimitEntry_upsert (with_sink g env) (entry_id <$> existing) context rule >>
       ret {| success := true; limit := Finite (requests rule);
              remaining := Finite (Z.max 0 (requests rule
                 - ((match existing with Some e => attempts e | None => 0 end) + 1)));
              reset := now (with_sink g env) + windowMs rule; blocked := None;
              blockUntil := None; retryAfter := None; error := None |})).
  { apply respects_bind; [apply respects_upsert | intros; apply respects_ret]. }
  unfold checkRateLimitDatabase_write.
  destruct existing as [e|]; [|exact Haccept].
  destruct (requests rule <=? attempts e); [|exact Haccept].
  apply respects_bind; [apply respects_logRateLimitViolation | intros; apply respects_ret].
Qed.

Lemma respects_checkRateLimitDatabase context config :
  respects (checkRateLimitDatabase (with_sink f env) context config)
           (checkRateLimitDatabase (with_sink g env) context config).
Proof.
  unfold checkRateLimitDatabase.
  destruct (rules config !! 0%nat) as [rule|]; [|apply respects_throw].
  apply respects_try_catch.
  - apply respects_bind; [apply respects_findFirst|].
    intros existing. apply respects_checkRateLimitDatabase_write.
  - intros e. apply respects_bind; [apply respects_console_error|].
    intros _. apply respects_ret.
Qed.

Lemma respects_getRateLimiter config :
  respects (getRateLimiter (with_sink f env) config) (getRateLimiter (with_sink g env) config).
Proof.
  unfold getRateLimiter. apply respects_bind; [apply respects_get_redis|].
  intros [store|].
  - apply respects_bind; [apply respects_get_rateLimiters|]. intros cache.
    destruct (cache !! identifier config); [apply respects_ret|].
    destruct (rules config !! 0%nat) as [rule|]; [|apply respects_throw].
    apply respects_bind.
    + unfold Ratelimit_slidingWindow. simpl.
      destruct (slidingWindowFails env (requests rule) (window rule));
        [apply respects_throw | apply respects_ret].
    + intros algorithm.
      apply respects_bind; [apply respects_put_rateLimiters | intros; apply respects_ret].
  - apply respects_bind; [apply respects_console_warn | intros; apply respects_ret].
Qed.

Lemma respects_counterCheck context config :
  respects (counterCheck (with_sink f env) context config)
           (counterCheck (with_sink g env) context config).
Proof.
  unfold counterCheck. apply respects_bind; [apply respects_get_redis|].
  intros [store|]; [|apply respects_checkRateLimitDatabase].
  apply respects_bind; [apply respects_getRateLimiter|].
  intros [limiter|]; [|apply respects_throw].
  apply respects_bind; [apply respects_limiter_limit|]. intros result.
  destruct (negb (resp_success result)); [|apply respects_ret].
  apply respects_bind; [apply respects_logRateLimitViolation|]. intros _.
  apply respects_bind; [apply respects_handleRateLimitBlock|]. intros _.
  apply respects_ret.
Qed.

(** The block check does not use the sink: from one world it gives one
    outcome. *)
Lemma checkBlockStatus_with_sink context config w :
  checkBlockStatus (with_sink f env) context config w
  = checkBlockStatus (with_sink g env) context config w.
Proof. reflexivity. Qed.

Lemma agree_enforce context config w :
  agree (enforce (with_sink f env) context config w)
        (enforce (with_sink g env) context config w).
Proof.
  unfold enforce. apply agree_bind_eq; [apply checkBlockStatus_with_sink|].
  intros [|until]; [apply respects_counterCheck|].
  apply respects_bind; [apply respects_logRateLimitViolation|].
  intros _. destruct (rules config !! 0%nat); [apply respects_ret | apply respects_throw].
Qed.

Lemma respects_checkRateLimit_catch context e :
  respects (checkRateLimit_catch (with_sink f env) context e)
           (checkRateLimit_catch (with_sink g env) context e).
Proof.
  unfold checkRateLimit_catch.
  apply respects_bind; [apply respects_console_error|]. intros _.
  apply respects_bind; [apply respects_logSecurityEvent|]. intros _.
  apply respects_ret.
Qed.

Lemma agree_checkRateLimit context configKey customConfig w :
  agree (checkRateLimit (with_sink f env) context configKey customConfig w)
        (checkRateLimit (with_sink g env) context configKey customConfig w).
Proof.
  assert (Htry : agree (checkRateLimit_try (with_sink f env) context configKey customConfig w)
                       (checkRateLimit_try (with_sink g env) context configKey customConfig w)).
  { unfold checkRateLimit_try, bind, headers. simpl.
    destruct (requestHeaders env) as [headersList|].
    - unfold ret.
      destruct (strict_eq (headersList EMERGENCY_BYPASS_HEADER) (EMERGENCY_BYPASS_TOKEN env)).
      + split; [apply same_stores_refl | reflexivity].
      + destruct (isWhitelisted (ip context));
          first [apply agree_enforce | split; [apply same_stores_refl | reflexivity]].
    - split; [apply same_stores_refl | reflexivity]. }
  unfold checkRateLimit, try_catch.
  destruct (checkRateLimit_try (with_sink f env) context configKey customConfig w)
    as [w1 o1],
    (checkRateLimit_try (with_sink g env) context configKey customConfig w) as [w2 o2].
  destruct Htry as [Hs Ho]. simpl in Hs, Ho. subst o2.
  destruct o1 as [e|r]; [apply respects_checkRateLimit_catch, Hs|].
  split; [exact Hs | reflexivity].
Qed.

End Sink.

(** C8.  The result of [checkRateLimit] does not depend on the event sink:
    whether each write to the security log succeeds or throws, the call
    returns the same [RateLimitResult], field for field, and leaves the same
    Redis keys, limiter storage, limiter cache and counter table. *)
Theorem emission_failure_keeps_result (env : Env) (f g : SecurityLog -> bool)
    (context : RateLimitContext) (configKey : string)
    (customConfig : option RateLimitConfig) (w : World) :
  snd (checkRateLimit (with_sink f env) context configKey customConfig w)
  = snd (checkRateLimit (with_sink g env) context configKey customConfig w)
  /\ same_stores
       (fst (checkRateLimit (with_sink f env) context configKey customConfig w))
       (fst (checkRateLimit (with_sink g env) context configKey customConfig w)).
Proof.
  destruct (agree_checkRateLimit env f g context configKey customConfig w) as [Hs Ho].
  split; assumption.
Qed.

(** *** The database fallback counts down the quota *)

Lemma run_database_length envs context config w :
  length (run_database envs context config w) = length envs.
Proof.
  revert w. induction envs as [|env rest IH]; intros w; simpl; [reflexivity|].
  destruct (checkRateLimitDatabase env context config w). simpl. rewrite IH. reflexivity.
Qed.

Lemma find_none_later env0 env context (t : list RateLimitEntry) :
  now env0 <= now env ->
  List.find (entry_matches env0 context) t = None ->
  List.find (entry_matches env context) t = None.
Proof.
  intros Hle. induction t as [|e t IH]; simpl; [reflexivity|].
  destruct (entry_matches env0 context e) eqn:H0; [discriminate|].
  intros Hn. rewrite (IH Hn).
  destruct (entry_matches env context e) eqn:H1; [|reflexivity].
  unfold entry_matches in *.
  apply andb_true_iff in H1 as [H1 Hlive]. rewrite H1 in H0. simpl in H0.
  apply Z.ltb_lt in Hlive. apply Z.ltb_ge in H0. lia.
Qed.

Lemma find_counted env context (t0 : list RateLimitEntry) (e : RateLimitEntry) :
  List.find (entry_matches env context) t0 = None ->
  entry_ip e = ip context -> entry_endpoint e = endpoint context ->
  now env < expiresAt e ->
  List.find (entry_matches env context) (t0 ++ [e]) = Some e.
Proof.
  intros Hn Hip Hep Hlive. induction t0 as [|x t0 IH]; simpl in *.
  - unfold entry_matches. rewrite Hip, Hep, !String.eqb_refl, orb_true_r. simpl.
    apply Z.ltb_lt in Hlive. rewrite Hlive. reflexivity.
  - destruct (entry_matches env context x); [discriminate | apply IH, Hn].
Qed.

Lemma fresh_id_above (t : list RateLimitEntry) (x : RateLimitEntry) :
  In x t -> (entry_id x < fresh_id t)%nat.
Proof.
  intros Hin. unfold fresh_id.
  assert (H : Forall (fun k => (k <= list_max (List.map entry_id t))%nat)
                     (List.map entry_id t))
    by (apply list_max_le; lia).
  rewrite List.Forall_forall in H.
  specialize (H (entry_id x) (in_map entry_id t x Hin)). lia.
Qed.

Lemma update_by_id_last date (i : nat) (t0 : list RateLimitEntry) (e : RateLimitEntry) :
  (forall x, In x t0 -> entry_id x <> i) -> entry_id e = i ->
  update_by_id date i (t0 ++ [e]) = Some (t0 ++ [increment_entry date e])%list.
Proof.
  intros Hne He. induction t0 as [|x t0 IH]; simpl.
  - rewrite He, Nat.eqb_refl. reflexivity.
  - destruct (Nat.eqb (entry_id x) i) eqn:Hx.
    + apply Nat.eqb_eq in Hx. exfalso. apply (Hne x); [left; reflexivity | exact Hx].
    + rewrite IH; [reflexivity|]. intros y Hy. apply Hne. right. exact Hy.
Qed.

Section DatabaseRun.

Variable context : RateLimitContext.
Variable config : RateLimitConfig.
Variable rule : RateLimitRule.
Variable more : list RateLimitRule.
Hypothesis Hrules : rules config = rule :: more.

(** The first request of a window: no live row matches, one is created. *)
Lemma database_first env w :
  findFirstFails env = false -> upsertFails env = false ->
  List.find (entry_matches env context) (rateLimitEntry w) = None ->
  exists w',
    checkRateLimitDatabase env context config w
    = (w', inr {| success := true; limit := Finite (requests rule);
                  remaining := Finite (Z.max 0 (requests rule - 1));
                  reset := now env + windowMs rule; blocked := None;
                  blockUntil := None; retryAfter := None; error := None |})
    /\ counted (rateLimitEntry w) context (now env + windowMs rule) 1 w'.
Proof.
  intros Hf Hu Hn.
  unfold checkRateLimitDatabase. rewrite Hrules. simpl.
  unfold try_catch, bind, prisma_rateLimitEntry_findFirst. rewrite Hf, Hn. simpl.
  unfold bind, prisma_rateLimitEntry_upsert. rewrite Hu. simpl.
  eexists. split; [reflexivity|].
  eexists. simpl. repeat split.
Qed.

(** A later request below the threshold: the row is incremented. *)
Lemma database_below env w t0 expires k :
  findFirstFails env = false -> upsertFails env = false ->
  List.find (entry_matches env context) t0 = None ->
  counted t0 context expires k w -> now env < expires -> k < requests rule ->
  exists w',
    checkRateLimitDatabase env context config w
    = (w', inr {| success := true; limit := Finite (requests rule);
                  remaining := Finite (Z.max 0 (requests rule - (k + 1)));
                  reset := now env + windowMs rule; blocked := None;
                  blockUntil := None; retryAfter := None; error := None |})
    /\ counted t0 context expires (k + 1) w'.
Proof.
  intros Hf Hu Hn (e & Ht & Hid & Hip & Hep & Hk & Hexp) Hlive Hlt.
  unfold checkRateLimitDatabase. rewrite Hrules. simpl.
  unfold try_catch, bind, prisma_rateLimitEntry_findFirst. rewrite Hf, Ht.
  rewrite (find_counted env context t0 e Hn Hip Hep) by lia.
  unfold checkRateLimitDatabase_write.
  assert (Hcmp : (requests rule <=? attempts e) = false) by (apply Z.leb_gt; lia).
  rewrite Hcmp. unfold bind, prisma_rateLimitEntry_upsert. rewrite Hu, Ht. simpl.
  rewrite (update_by_id_last (now env) (entry_id e) t0 e); [|  | reflexivity].
  - simpl. rewrite Hk. eexists. split; [reflexivity|].
    exists (increment_entry (now env) e). simpl. repeat split; try assumption. lia.
  - intros x Hx. pose proof (fresh_id_above t0 x Hx). lia.
Qed.

(** A request at the threshold: refused, and the table stays as it is. *)
Lemma database_full env w t0 expires k :
  findFirstFails env = false ->
  List.find (entry_matches env context) t0 = None ->
  counted t0 context expires k w -> now env < expires -> requests rule <= k ->
  exists w',
    checkRateLimitDatabase env context config w
    = (w', inr {| success := false; limit := Finite (requests rule);
                  remaining := Finite 0; reset := expires; blocked := None;
                  blockUntil := None;
                  retryAfter := Some (ceil_div_1000 (expires - now env));
                  error := None |})
    /\ counted t0 context expires k w'.
Proof.
  intros Hf Hn (e & Ht & Hid & Hip & Hep & Hk & Hexp) Hlive Hge.
  unfold checkRateLimitDatabase. rewrite Hrules. simpl.
  unfold try_catch, bind at 1, prisma_rateLimitEntry_findFirst. rewrite Hf, Ht.
  rewrite (find_counted env context t0 e Hn Hip Hep) by lia.
  unfold checkRateLimitDatabase_write.
  assert (Hcmp : (requests rule <=? attempts e) = true) by (apply Z.leb_le; lia).
  rewrite Hcmp. unfold logRateLimitViolation, bind, ret.
  match goal with
  | |- context [logSecurityEvent env ?d w] =>
      destruct (logSecurityEvent_returns env d w) as (w' & l & Hlog & Hs & _)
  end.
  rewrite Hlog. rewrite Hexp. eexists. split; [reflexivity|].
  exists e. destruct Hs as (_ & _ & _ & Hs). rewrite Hs. repeat split; assumption.
Qed.

(** Request [i] of a run that starts with [k] attempts on the row. *)
Lemma run_database_counted (t0 : list RateLimitEntry) (expires : Z) (envs : list Env) :
  forall (k : Z) (w : World),
    1 <= k <= requests rule ->
    counted t0 context expires k w ->
    Forall (fun env => findFirstFails env = false /\ upsertFails env = false
                       /\ now env < expires
                       /\ List.find (entry_matches env context) t0 = None) envs ->
    forall (i : nat) out,
      run_database envs context config w !! i = Some out ->
      (k + Z.of_nat i < requests rule ->
         exists r, out = inr r /\ success r = true
                   /\ remaining r = Finite (requests rule - 1 - (k + Z.of_nat i)))
      /\ (requests rule <= k + Z.of_nat i ->
            exists r s, out = inr r /\ success r = false /\ remaining r = Finite 0
                        /\ retryAfter r = Some s /\ 0 < s).
Proof.
  induction envs as [|env rest IH]; intros k w Hk Hc Hall i out Hi; [discriminate|].
  apply Forall_cons in Hall as [(Hf & Hu & Hlive & Hn) Hall].
  simpl in Hi.
  destruct (Z_lt_le_dec k (requests rule)) as [Hlt|Hge].
  - destruct (database_below env w t0 expires k Hf Hu Hn Hc Hlive Hlt)
      as (w' & Hstep & Hc').
    rewrite Hstep in Hi. destruct i as [|i]; simpl in Hi.
    + inversion Hi; subst out; clear Hi. split; [|lia].
      intros _. eexists. split; [reflexivity|]. split; [reflexivity|]. simpl.
      f_equal. lia.
    + destruct (IH (k + 1) w' ltac:(lia) Hc' Hall i out Hi) as [Hs Hr].
      split; intros H; [destruct (Hs ltac:(lia)) as (r & -> & Hs1 & Hs2)
                       | apply Hr; lia].
      eexists. split; [reflexivity|]. split; [assumption|]. rewrite Hs2. f_equal. lia.
  - destruct (database_full env w t0 expires k Hf Hn Hc Hlive Hge)
      as (w' & Hstep & Hc').
    rewrite Hstep in Hi. destruct i as [|i]; simpl in Hi.
    + inversion Hi; subst out; clear Hi. split; [lia|].
      intros _. eexists _, _. repeat split. simpl. apply ceil_div_1000_pos. lia.
    + destruct (IH k w' Hk Hc' Hall i out Hi) as [_ Hr].
      split; intros H; [lia | apply Hr; lia].
Qed.

(** A table without a live row that the [findFirst] of [context] selects: no
    row of the endpoint, not yet expired, carries the client's ip or its user
    id. *)
Lemma find_none_isolated env (t : list RateLimitEntry) :
  (forall e, In e t ->
     entry_endpoint e = endpoint context -> now env < expiresAt e ->
     entry_ip e <> ip context
     /\ forall u, userId context = Some u -> entry_userId e <> Some u) ->
  List.find (entry_matches env context) t = None.
Proof.
  induction t as [|e t IH]; intros H; simpl; [reflexivity|].
  assert (He : entry_matches env context e = false).
  { unfold entry_matches.
    destruct (String.eqb (entry_endpoint e) (endpoint context)) eqn:Hep;
      [|rewrite andb_false_r; reflexivity].
    destruct (now env <? expiresAt e) eqn:Hlive; [|apply andb_false_r].
    apply String.eqb_eq in Hep. apply Z.ltb_lt in Hlive.
    destruct (H e (or_introl eq_refl) Hep Hlive) as [Hip Hu].
    assert (Hipb : String.eqb (entry_ip e) (ip context) = false)
      by (apply String.eqb_neq; exact Hip).
    rewrite Hipb, orb_false_r.
    destruct (userId context) as [u|]; [|reflexivity].
    destruct (entry_userId e) as [u'|]; [|reflexivity].
    assert (Hub : String.eqb u u' = false).
    { apply String.eqb_neq. intros ->. exact (Hu u' eq_refl eq_refl). }
    rewrite Hub. reflexivity. }
  rewrite He. apply IH. intros e' Hin. apply H. right. exact Hin.
Qed.

(** C1, as the code has it.  On the database fallback, a rule that allows
    [N >= 1] requests per window and [N + 1] sequential requests of one
    context, all inside the window that the first one opens: request [i]
    (counting from 0) succeeds with [remaining = N - 1 - i] for [i < N], that
    is N-1, N-2, ..., 0, and request [N] is refused with [success = false],
    [remaining = 0] and a positive [retryAfter].  This holds when every
    [findFirst] and [upsert] of the run answers and when, before the run, the
    table holds no live row that the lookup selects for the client: the
    counter is found by endpoint and by user id or ip, not by the identifier,
    so a live row of the same endpoint with the same ip or the same user id is
    counted as the client's own. *)
Theorem database_quota_countdown (env0 : Env) (rest : list Env) (w : World) :
  1 <= requests rule ->
  length rest = Z.to_nat (requests rule) ->
  Forall (fun env => findFirstFails env = false /\ upsertFails env = false
                     /\ now env0 <= now env < now env0 + windowMs rule)
         (env0 :: rest) ->
  (forall e, In e (rateLimitEntry w) ->
     entry_endpoint e = endpoint context -> now env0 < expiresAt e ->
     entry_ip e <> ip context
     /\ forall u, userId context = Some u -> entry_userId e <> Some u) ->
  length (run_database (env0 :: rest) context config w) = S (Z.to_nat (requests rule))
  /\ forall (i : nat) out,
       run_database (env0 :: rest) context config w !! i = Some out ->
       (Z.of_nat i < requests rule ->
          exists r, out = inr r /\ success r = true
                    /\ remaining r = Finite (requests rule - 1 - Z.of_nat i))
       /\ (Z.of_nat i = requests rule ->
             exists r s, out = inr r /\ success r = false /\ remaining r = Finite 0
                         /\ retryAfter r = Some s /\ 0 < s).
Proof.
  intros HN Hlen Hall Hisolated.
  pose proof (find_none_isolated env0 (rateLimitEntry w) Hisolated) as Hnone.
  split.
  { rewrite run_database_length. simpl. rewrite Hlen. reflexivity. }
  apply Forall_cons in Hall as [(Hf & Hu & Hw0) Hall].
  destruct (database_first env0 w Hf Hu Hnone) as (w1 & Hstep & Hc).
  intros i out Hi. simpl in Hi. rewrite Hstep in Hi.
  destruct i as [|i]; simpl in Hi.
  - inversion Hi; subst out; clear Hi. split; [|simpl; lia].
    intros _. eexists. split; [reflexivity|]. split; [reflexivity|]. simpl.
    f_equal. lia.
  - assert (Hall' : Forall (fun env => findFirstFails env = false
                       /\ upsertFails env = false
                       /\ now env < now env0 + windowMs rule
                       /\ List.find (entry_matches env context) (rateLimitEntry w) = None)
                      rest).
    { eapply Forall_impl; [exact Hall|]. simpl. intros env (? & ? & ? & ?).
      repeat split; try assumption.
      apply (find_none_later env0); assumption. }
    destruct (run_database_counted (rateLimitEntry w) (now env0 + windowMs rule) rest
                1 w1 ltac:(lia) Hc Hall' i out Hi) as [Hs Hr].
    split; intros H.
    + destruct (Hs ltac:(lia)) as (r & -> & Hs1 & Hs2).
      eexists. split; [reflexivity|]. split; [assumption|]. rewrite Hs2. f_equal. lia.
    + apply Hr. lia.
Qed.

End DatabaseRun.

(** *** A block overrides the counter *)

Lemma checkBlockStatus_active env context config until w :
  truthy_opt_number (blockDurationMs config) = true ->
  redisGetFails env = false -> 0 <= now env ->
  active_block env context until w ->
  checkBlockStatus env context config w = (w, inr (Blocked until)).
Proof.
  intros Hd Hget Hnow (store & ttlEnd & Hr & Hk & Httl & Hu).
  unfold checkBlockStatus. rewrite Hd. cbn [negb].
  unfold try_catch, bind, get_redis, redis_get. rewrite Hr, Hget.
  cbv beta iota zeta. rewrite ?Hr. unfold blockKey in Hk. rewrite Hk.
  assert (H1 : (now env <? ttlEnd) = true) by (apply Z.ltb_lt; lia).
  assert (H2 : (until =? 0) = false) by (apply Z.eqb_neq; lia).
  assert (H3 : (now env <? until) = true) by (apply Z.ltb_lt; lia).
  rewrite H1, H2, H3. reflexivity.
Qed.

Lemma checkRateLimit_blocked env context configKey customConfig until rule0 more w :
  truthy_opt_number
    (blockDurationMs (selectConfig context configKey customConfig)) = true ->
  rules (selectConfig context configKey customConfig) = rule0 :: more ->
  regular_call env -> 0 <= now env -> until <= 8640000000000000 ->
  active_block env context until w ->
  exists w',
    checkRateLimit env context configKey customConfig w
    = (w', inr (blocked_result env rule0 until))
    /\ same_stores w w'.
Proof.
  intros Hd Hrules [(headersList & Hh & Hnb) Hget] Hnow Hvalid Hact.
  unfold checkRateLimit, try_catch, checkRateLimit_try, bind at 1, headers.
  rewrite Hh. unfold ret at 1. rewrite Hnb. simpl.
  unfold enforce, bind at 1.
  rewrite (checkBlockStatus_active env context _ until w Hd Hget Hnow Hact).
  unfold logRateLimitViolation, bind, toISOString.
  assert (H2 : (until =? 0) = false).
  { destruct Hact as (? & ? & _ & _ & _ & ?). apply Z.eqb_neq. lia. }
  assert (H3 : valid_time until = true).
  { destruct Hact as (? & ? & _ & _ & _ & ?). unfold valid_time.
    apply andb_true_iff. split; apply Z.leb_le; lia. }
  rewrite H2, H3. unfold ret at 1 2.
  match goal with
  | |- context [logSecurityEvent env ?d w] =>
      destruct (logSecurityEvent_returns env d w) as (w' & l & Hlog & Hs & _)
  end.
  rewrite Hlog, Hrules. simpl. exists w'. split; [reflexivity | exact Hs].
Qed.

Lemma ceil_div_1000_upper (x : Z) : ceil_div_1000 x * 1000 < x + 1000.
Proof.
  unfold ceil_div_1000.
  pose proof (Z.mod_pos_bound (- x) 1000 ltac:(lia)).
  pose proof (Z.div_mod (- x) 1000 ltac:(lia)). lia.
Qed.

(** C3, as the code has it.  While the Redis ledger holds a block for the
    identifier, under a configuration with a block duration and a first rule,
    every call made before [until] that reads its headers, carries no bypass
    token and whose ledger lookup answers is refused with [blocked = true],
    [remaining = 0], [reset] and [blockUntil] equal to [until], and a
    [retryAfter] of [(until - now) / 1000] seconds rounded up.  The result
    does not depend on the counters, whatever they hold, and the calls leave
    the limiter storage, the limiter cache, the counter table and the ledger
    as they were; so the next such call, as long as it comes before [until],
    is refused the same way. *)
Theorem block_overrides_counter (context : RateLimitContext) (configKey : string)
    (customConfig : option RateLimitConfig) (rule0 : RateLimitRule)
    (more : list RateLimitRule) (store : RedisStore) (until ttlEnd : Z)
    (envs : list Env) (w : World) :
  truthy_opt_number
    (blockDurationMs (selectConfig context configKey customConfig)) = true ->
  rules (selectConfig context configKey customConfig) = rule0 :: more ->
  redis w = Some store ->
  store !! blockKey context = Some (RNumber until, ttlEnd) ->
  until <= 8640000000000000 ->
  Forall (fun env => regular_call env
                     /\ 0 <= now env /\ now env < until /\ now env < ttlEnd) envs ->
  Forall2 (fun env out =>
             exists seconds,
               out = inr {| success := false; limit := Finite (requests rule0);
                            remaining := Finite 0; reset := until;
                            blocked := Some true; blockUntil := Some until;
                            retryAfter := Some seconds; error := None |}
               /\ until - now env <= seconds * 1000 < until - now env + 1000)
          envs (snd (run_checks envs context configKey customConfig w))
  /\ same_stores w (fst (run_checks envs context configKey customConfig w)).
Proof.
  intros Hd Hrules Hr Hk Hvalid. revert w Hr.
  induction envs as [|env rest IH]; intros w Hr Hall; simpl.
  - split; [constructor | apply same_stores_refl].
  - apply Forall_cons in Hall as [(Hreg & Hnow & Hu & Httl) Hall].
    assert (Hact : active_block env context until w)
      by (exists store, ttlEnd; repeat split; assumption).
    destruct (checkRateLimit_blocked env context configKey customConfig until
                rule0 more w Hd Hrules Hreg Hnow Hvalid Hact) as (w1 & Hstep & Hs).
    rewrite Hstep.
    assert (Hr1 : redis w1 = Some store) by (destruct Hs as (-> & _); exact Hr).
    destruct (IH w1 Hr1 Hall) as [Houts Hs'].
    destruct (run_checks rest context configKey customConfig w1) as [w2 outs].
    simpl in *. split.
    + constructor; [|exact Houts].
      exists (ceil_div_1000 (until - now env)). split; [reflexivity|].
      pose proof (ceil_div_1000_bound (until - now env)).
      pose proof (ceil_div_1000_upper (until - now env)). lia.
    + eapply same_stores_trans; eassumption.
Qed.

(** *** Who writes the block ledger *)

Lemma keeps_ret {A} (a : A) : keeps_redis (ret a).
Proof. intros w. reflexivity. Qed.

Lemma keeps_throw {A} (e : Exn) : keeps_redis (@throw A e).
Proof. intros w. reflexivity. Qed.

Lemma keeps_bind {A B} (m : M A) (k : A -> M B) :
  keeps_redis m -> (forall a, keeps_redis (k a)) -> keeps_redis (bind m k).
Proof.
  intros Hm Hk w. unfold bind. specialize (Hm w).
  destruct (m w) as [w1 [e|a]]; simpl in *; [exact Hm|].
  rewrite (Hk a w1). exact Hm.
Qed.

Lemma keeps_try_catch {A} (m : M A) (h : Exn -> M A) :
  keeps_redis m -> (forall e, keeps_redis (h e)) -> keeps_redis (try_catch m h).
Proof.
  intros Hm Hh w. unfold try_catch. specialize (Hm w).
  destruct (m w) as [w1 [e|a]]; simpl in *; [|exact Hm].
  rewrite (Hh e w1). exact Hm.
Qed.

Lemma keeps_logSecurityEvent env d : keeps_redis (logSecurityEvent env d).
Proof.
  intros w. destruct (logSecurityEvent_returns env d w) as (w' & l & -> & Hs & _).
  apply Hs.
Qed.

Lemma keeps_toISOString t : keeps_redis (toISOString t).
Proof. unfold toISOString. destruct (valid_time t); [apply keeps_ret | apply keeps_throw]. Qed.

Lemma keeps_logRateLimitViolation env context config violationType blockUntil :
  keeps_redis (logRateLimitViolation env context config violationType blockUntil).
Proof.
  unfold logRateLimitViolation. apply keeps_bind.
  - destruct blockUntil as [t|]; [|apply keeps_ret].
    destruct (t =? 0); [apply keeps_ret|].
    apply keeps_bind; [apply keeps_toISOString | intros; apply keeps_ret].
  - intros iso. apply keeps_logSecurityEvent.
Qed.

Lemma keeps_console_error msg e : keeps_redis (console_error msg e).
Proof. intros w. reflexivity. Qed.

Lemma keeps_get_redis : keeps_redis get_redis.
Proof. intros w. reflexivity. Qed.

Lemma keeps_redis_get env key : keeps_redis (redis_get env key).
Proof.
  intros w. unfold redis_get. destruct (redis w) eqn:Hr; [|exact Hr].
  destruct (redisGetFails env); exact Hr.
Qed.

Lemma keeps_checkBlockStatus env context config :
  keeps_redis (checkBlockStatus env context config).
Proof.
  unfold checkBlockStatus.
  destruct (negb (truthy_opt_number (blockDurationMs config))); [apply keeps_ret|].
  apply keeps_try_catch.
  - apply keeps_bind; [apply keeps_get_redis|]. intros [store|].
    + apply keeps_bind; [apply keeps_redis_get|]. intros [[until|s]|]; try apply keeps_ret.
      destruct (negb (until =? 0) && (now env <? until)); apply keeps_ret.
    + apply keeps_bind.
      * intros w. unfold prisma_securityLog_count. destruct (countFails env); reflexivity.
      * intros n. destruct (3 <=? n); apply keeps_ret.
  - intros e. apply keeps_bind; [apply keeps_console_error | intros; apply keeps_ret].
Qed.

Lemma keeps_getRateLimiter env config : keeps_redis (getRateLimiter env config).
Proof.
  unfold getRateLimiter. apply keeps_bind; [apply keeps_get_redis|]. intros [store|].
  - apply keeps_bind; [intros w; reflexivity|]. intros cache.
    destruct (cache !! identifier config); [apply keeps_ret|].
    destruct (rules config !! 0%nat) as [rule|]; [|apply keeps_throw].
    apply keeps_bind.
    + unfold Ratelimit_slidingWindow.
      destruct (slidingWindowFails env (requests rule) (window rule));
        [apply keeps_throw | apply keeps_ret].
    + intros algorithm.
      apply keeps_bind; [intros w; reflexivity | intros; apply keeps_ret].
  - apply keeps_bind; [intros w; reflexivity | intros; apply keeps_ret].
Qed.

Lemma keeps_limiter_limit env limiter ident : keeps_redis (limiter_limit env limiter ident).
Proof.
  intros w. unfold limiter_limit. destruct (limiterFails env); [reflexivity|].
  destruct (slidingWindow_limit limiter ident (now env) (limiterState w)). reflexivity.
Qed.

Lemma keeps_checkRateLimitDatabase env context config :
  keeps_redis (checkRateLimitDatabase env context config).
Proof.
  unfold checkRateLimitDatabase.
  destruct (rules config !! 0%nat) as [rule|]; [|apply keeps_throw].
  apply keeps_try_catch.
  - apply keeps_bind.
    + intros w. unfold prisma_rateLimitEntry_findFirst.
      destruct (findFirstFails env); reflexivity.
    + intros existing. unfold checkRateLimitDatabase_write.
      assert (Hups : keeps_redis
                (prisma_rateLimitEntry_upsert env (entry_id <$> existing) context rule)).
      { intros w. unfold prisma_rateLimitEntry_upsert.
        destruct (upsertFails env); reflexivity. }
      destruct existing as [e|].
      * destruct (requests rule <=? attempts e).
        -- apply keeps_bind; [apply keeps_logRateLimitViolation | intros; apply keeps_ret].
        -- apply keeps_bind; [exact Hups | intros; apply keeps_ret].
      * apply keeps_bind; [exact Hups | intros; apply keeps_ret].
  - intros e. apply keeps_bind; [apply keeps_console_error | intros; apply keeps_ret].
Qed.

Lemma keeps_checkRateLimit_catch env context e :
  keeps_redis (checkRateLimit_catch env context e).
Proof.
  unfold checkRateLimit_catch.
  apply keeps_bind; [apply keeps_console_error|]. intros _.
  apply keeps_bind; [apply keeps_logSecurityEvent | intros; apply keeps_ret].
Qed.

(** A block that has just been written is in force until [now + d]: the key
    outlives the value it holds. *)
Lemma written_block_is_active env env' context config w w' d :
  block_written env context config w w' -> blockDurationMs config = Some d ->
  now env <= now env' < now env + d ->
  active_block env' context (now env + d) w'.
Proof.
  intros (store & d' & Hd & _ & _ & Hw') Hd2 Hnow.
  rewrite Hd in Hd2. inversion Hd2; subst d'.
  eexists _, _. split; [exact Hw'|]. split; [apply lookup_insert_eq|].
  pose proof (ceil_div_1000_bound d). lia.
Qed.

Lemma handleRateLimitBlock_ledger env context config w :
  exists w',
    handleRateLimitBlock env context config w = (w', inr tt)
    /\ (redis w' = redis w \/ block_written env context config w w').
Proof.
  unfold handleRateLimitBlock, block_written.
  destruct (blockDurationMs config) as [d|] eqn:Hd; simpl;
    [|exists w; split; [reflexivity | left; reflexivity]].
  destruct (d =? 0) eqn:Hz; simpl; [exists w; split; [reflexivity | left; reflexivity]|].
  apply Z.eqb_neq in Hz.
  unfold try_catch, bind at 1, get_redis. cbv beta iota zeta.
  destruct (redis w) as [store|] eqn:Hr.
  - unfold bind at 1, redis_setex. rewrite Hr.
    destruct (redisSetexFails env || (ceil_div_1000 d <=? 0)).
    + eexists. split; [reflexivity | left; exact Hr].
    + unfold bind at 1, toISOString.
      destruct (valid_time (now env + d)); unfold ret, throw.
      * match goal with
        | |- context [logSecurityEvent env ?ev ?w0] =>
            destruct (logSecurityEvent_returns env ev w0) as (w' & l & Hlog & Hs & _)
        end.
        rewrite Hlog. exists w'. split; [reflexivity|]. right.
        exists store, d. split; [reflexivity|]. split; [exact Hz|].
        split; [reflexivity|]. destruct Hs as (-> & _). reflexivity.
      * eexists. split; [reflexivity|]. right.
        exists store, d. split; [reflexivity|]. split; [exact Hz|].
        split; reflexivity.
  - unfold bind at 1, ret at 1. unfold bind at 1, toISOString.
    destruct (valid_time (now env + d)); unfold ret, throw.
    + match goal with
      | |- context [logSecurityEvent env ?ev ?w0] =>
          destruct (logSecurityEvent_returns env ev w0) as (w' & l & Hlog & Hs & _)
      end.
      rewrite Hlog. exists w'. split; [reflexivity|]. left.
      destruct Hs as (-> & _). exact Hr.
    + eexists. split; [reflexivity | left; exact Hr].
Qed.

Lemma bind_inv {A B} (m : M A) (k : A -> M B) (w w' : World) (out : Exn + B) :
  bind m k w = (w', out) ->
  (exists e, m w = (w', inl e) /\ out = inl e)
  \/ (exists w1 a, m w = (w1, inr a) /\ k a w1 = (w', out)).
Proof.
  unfold bind. destruct (m w) as [w1 [e|a]]; intros H.
  - left. inversion H; subst. eauto.
  - right. eauto.
Qed.

Lemma keeps_run {A} (m : M A) (w w' : World) (out : Exn + A) :
  keeps_redis m -> m w = (w', out) -> redis w' = redis w.
Proof. intros Hk Hm. specialize (Hk w). rewrite Hm in Hk. exact Hk. Qed.

Lemma counterCheck_ledger env context config w w' out :
  counterCheck env context config w = (w', out) ->
  redis w' = redis w \/ (block_written env context config w w' /\ refused out).
Proof.
  unfold counterCheck. intros H.
  apply bind_inv in H as [(e & H & _) | (w0 & r & H0 & H)]; [inversion H|].
  inversion H0; subst w0 r; clear H0.
  destruct (redis w) as [store|] eqn:Hr;
    [|left; rewrite <- Hr; exact (keeps_run _ _ _ _ (keeps_checkRateLimitDatabase _ _ _) H)].
  rewrite <- Hr.
  apply bind_inv in H as [(e & H & _) | (w1 & limiter & H1 & H)];
    [left; exact (keeps_run _ _ _ _ (keeps_getRateLimiter _ _) H)|].
  pose proof (keeps_run _ _ _ _ (keeps_getRateLimiter _ _) H1) as Hr1.
  destruct limiter as [limiter|]; [|inversion H; subst; left; exact Hr1].
  apply bind_inv in H as [(e & H & _) | (w2 & result & H2 & H)];
    [left; rewrite <- Hr1; exact (keeps_run _ _ _ _ (keeps_limiter_limit _ _ _) H)|].
  pose proof (keeps_run _ _ _ _ (keeps_limiter_limit _ _ _) H2) as Hr2.
  destruct (negb (resp_success result));
    [|inversion H; subst; left; congruence].
  apply bind_inv in H as [(e & H & _) | (w3 & [] & H3 & H)];
    [left; rewrite <- Hr1, <- Hr2;
     exact (keeps_run _ _ _ _ (keeps_logRateLimitViolation _ _ _ _ _) H)|].
  pose proof (keeps_run _ _ _ _ (keeps_logRateLimitViolation _ _ _ _ _) H3) as Hr3.
  destruct (handleRateLimitBlock_ledger env context config w3) as (w4 & H4 & Hled).
  unfold bind in H. rewrite H4 in H. unfold ret in H. inversion H; subst w' out; clear H.
  destruct Hled as [Hsame | (st & d & Hd & Hz & Hst & Hw4)].
  - left. congruence.
  - right. split.
    + exists st, d. repeat split; try assumption. congruence.
    + eexists. split; [reflexivity|]. split; reflexivity.
Qed.

Lemma enforce_ledger env context config w w' out :
  enforce env context config w = (w', out) ->
  redis w' = redis w \/ (block_written env context config w w' /\ refused out).
Proof.
  unfold enforce. intros H.
  apply bind_inv in H as [(e & H & _) | (w1 & status & H1 & H)];
    [left; exact (keeps_run _ _ _ _ (keeps_checkBlockStatus _ _ _) H)|].
  pose proof (keeps_run _ _ _ _ (keeps_checkBlockStatus _ _ _) H1) as Hr1.
  destruct status as [|until].
  - destruct (counterCheck_ledger env context config w1 w' out H)
      as [Hsame | [(st & d & Hd & Hz & Hst & Hw') Hout]].
    + left. congruence.
    + right. split; [|exact Hout]. exists st, d. repeat split; try assumption. congruence.
  - left. rewrite <- Hr1. refine (keeps_run _ _ _ _ _ H).
    apply keeps_bind; [apply keeps_logRateLimitViolation|]. intros _.
    destruct (rules config !! 0%nat); [apply keeps_ret | apply keeps_throw].
Qed.

(** C7, as the code has it.  The block ledger is written by a genuine
    violation and by nothing else.  If a call of [checkRateLimit] changes the
    Redis keys, then the enforced configuration has a block duration, the
    request carried no bypass token, the call returned the quota-exceeded
    failure (not the blocked one), and the change is the one block entry of
    the identifier, valid until [now + blockDurationMs].  And a call that
    finds a block in force leaves the ledger as it is, provided its ledger
    lookup answers (and the clock is not before the epoch): then the block's
    [until] is not moved, and a new block can only be written once the old
    one has expired.  When the lookup throws the block is not seen, and a
    refusal of the limiter writes it again. *)
Theorem block_written_only_by_violation (env : Env) (context : RateLimitContext)
    (configKey : string) (customConfig : option RateLimitConfig)
    (w w' : World) (out : Exn + RateLimitResult) :
  checkRateLimit env context configKey customConfig w = (w', out) ->
  (redis w' <> redis w ->
     truthy_opt_number
       (blockDurationMs (selectConfig context configKey customConfig)) = true
     /\ (exists headersList,
           requestHeaders env = Some headersList
           /\ strict_eq (headersList EMERGENCY_BYPASS_HEADER)
                        (EMERGENCY_BYPASS_TOKEN env) = false)
     /\ refused out
     /\ block_written env context (selectConfig context configKey customConfig) w w')
  /\ (forall until,
        active_block env context until w -> redisGetFails env = false ->
        0 <= now env ->
        redis w' = redis w).
Proof.
  intros Hrun.
  (* the [try] block either keeps the ledger or is a refused, regular call *)
  assert (Htry : forall w1 o1,
            checkRateLimit_try env context configKey customConfig w = (w1, o1) ->
            redis w1 = redis w
            \/ ((exists headersList,
                   requestHeaders env = Some headersList
                   /\ strict_eq (headersList EMERGENCY_BYPASS_HEADER)
                                (EMERGENCY_BYPASS_TOKEN env) = false)
                /\ refused o1
                /\ block_written env context
                     (selectConfig context configKey customConfig) w w1)).
  { intros w1 o1 H. unfold checkRateLimit_try, headers in H.
    destruct (requestHeaders env) as [headersList|];
      [|inversion H; left; reflexivity].
    apply bind_inv in H as [(e & H & _) | (w0 & h & H0 & H)]; [inversion H|].
    inversion H0; subst w0 h; clear H0.
    destruct (strict_eq (headersList EMERGENCY_BYPASS_HEADER) (EMERGENCY_BYPASS_TOKEN env))
      eqn:Hnb; [inversion H; left; reflexivity|].
    destruct (isWhitelisted (ip context)); [inversion H; left; reflexivity|].
    destruct (enforce_ledger env context _ w w1 o1 H) as [Hsame | [Hw Hout]];
      [left; exact Hsame|].
    right. split; [eauto|]. split; assumption. }
  unfold checkRateLimit, try_catch in Hrun.
  destruct (checkRateLimit_try env context configKey customConfig w) as [w1 o1] eqn:Ht.
  specialize (Htry w1 o1 eq_refl).
  assert (Hfinal : redis w' = redis w1 /\ (forall r, o1 = inr r -> out = o1 /\ w' = w1)).
  { destruct o1 as [e|r].
    - split; [exact (keeps_run _ _ _ _ (keeps_checkRateLimit_catch _ _ _) Hrun)|].
      intros r Hr. discriminate.
    - inversion Hrun; subst. split; [reflexivity|]. intros r' _. split; reflexivity. }
  destruct Hfinal as [Hredis Hsame].
  split.
  - intros Hchanged.
    destruct Htry as [Hkeep | (Hreg & (res & -> & Hres) & Hw)]; [congruence|].
    destruct (Hsame res eq_refl) as [-> ->].
    split; [|split; [exact Hreg | split; [exists res; split; [reflexivity | exact Hres]
                                          | exact Hw]]].
    destruct Hw as (st & d & Hd & Hz & _). rewrite Hd. simpl.
    apply negb_true_iff, Z.eqb_neq. exact Hz.
  - intros bu Hact Hget Hnow. rewrite Hredis.
    unfold checkRateLimit_try, headers in Ht.
    destruct (requestHeaders env) as [headersList|];
      [|inversion Ht; reflexivity].
    unfold bind at 1, ret at 1 in Ht.
    destruct (strict_eq (headersList EMERGENCY_BYPASS_HEADER) (EMERGENCY_BYPASS_TOKEN env));
      [inversion Ht; reflexivity|].
    simpl in Ht.
    destruct (truthy_opt_number
                (blockDurationMs (selectConfig context configKey customConfig))) eqn:Htr.
    + (* the blocked path *)
      unfold enforce, bind at 1 in Ht.
      rewrite (checkBlockStatus_active env context _ bu w Htr Hget Hnow Hact) in Ht.
      refine (keeps_run _ _ _ _ _ Ht).
      apply keeps_bind; [apply keeps_logRateLimitViolation|]. intros _.
      destruct (rules (selectConfig context configKey customConfig) !! 0%nat);
        [apply keeps_ret | apply keeps_throw].
    + (* no block duration: [handleRateLimitBlock] returns at once *)
      destruct (enforce_ledger env context _ w w1 o1 Ht)
        as [Hkeep | [(st & d & Hd & Hz & _) _]]; [exact Hkeep|].
      rewrite Hd in Htr. simpl in Htr.
      apply negb_false_iff, Z.eqb_eq in Htr. contradiction.
Qed.

(** *** The database steps of two requests in flight *)

(** [checkRateLimitDatabase] is a read of the table followed, after an
    [await], by a write that depends on what was read. *)
Lemma checkRateLimitDatabase_steps env context config rule more :
  rules config = rule :: more ->
  checkRateLimitDatabase env context config
  = try_catch
      (let* existing := prisma_rateLimitEntry_findFirst env context in
       checkRateLimitDatabase_write env context config rule existing)
      (fun e =>
         console_error "Database rate limiting error:" e >>
         ret (database_fail_open env rule)).
Proof. intros H. unfold checkRateLimitDatabase. rewrite H. reflexivity. Qed.

End Engine.

(** ** Concrete runs *)

(** A limiter to run the engine with: one counter per key, the first [tokens]
    calls pass.  It stands in for the package's algorithm in the runs below;
    the theorems above hold for every limiter. *)
Definition counting_limit (limiter : Ratelimit) (ident : string) (date : Z)
    (s : gmap string Z) : gmap string Z * RatelimitResponse :=
  let key := prefix limiter ++ ":" ++ ident in
  let used := default 0 (s !! key) + 1 in
  (<[key := used]> s,
   {| resp_success := used <=? tokens limiter; resp_limit := tokens limiter;
      resp_remaining := Z.max 0 (tokens limiter - used);
      resp_reset := date + 60000 |}).

Definition fresh_world (r : option RedisStore) : @World (gmap string Z) :=
  {| redis := r; limiterState := ∅; rateLimiters := ∅; rateLimitEntry := [];
     securityLog := []; console := [] |}.

(** An anonymous client, as in the scenario of the specification. *)
Definition client : RateLimitContext :=
  {| userId := None; userRole := None; ip := "203.0.113.5";
     userAgent := "Mozilla/5.0"; endpoint := "/api/auth/login";
     operationType := None |}.

Definition no_headers : string -> option string := fun _ => None.

Definition is_decimal_digit (c : Stdlib.Strings.Ascii.ascii) : bool :=
  let n := Stdlib.Strings.Ascii.nat_of_ascii c in
  ((48 <=? n) && (n <=? 57))%nat.

(** The window texts of the runs below are of the form that the package
    documents and every version of it accepts: decimal digits, one space, and
    a unit among ms, s, m, h and d. *)
Definition is_duration (s : string) : bool :=
  match String.index 0 " " s with
  | Some n =>
      (0 <? n)%nat
      && forallb is_decimal_digit
           (Stdlib.Strings.String.list_ascii_of_string (String.substring 0 n s))
      && existsb (String.eqb (String.substring (S n) (String.length s - S n) s))
           ["ms"; "s"; "m"; "h"; "d"]
  | None => false
  end.

(** [Ratelimit.slidingWindow] in the runs below: it throws on any other
    text. *)
Definition rejects_window (tokens : Z) (window : string) : bool :=
  negb (is_duration window).

(** The filter on [details.endpoint] read as a lookup in the object that was
    logged. *)
Definition endpoint_of_details (ds : option (list (string * DetailValue)))
    (e : string) : bool :=
  match ds with
  | Some ds =>
      match List.find (fun kv => String.eqb (fst kv) "endpoint") ds with
      | Some (_, DString s) => String.eqb s e
      | _ => false
      end
  | None => false
  end.

(** A request at instant [date] with every external call working. *)
Definition request_at (date : Z) : Env :=
  {| now := date; requestHeaders := Some no_headers;
     EMERGENCY_BYPASS_TOKEN := Some "s3cret";
     redisGetFails := false; redisSetexFails := false;
     slidingWindowFails := rejects_window; limiterFails := false;
     findFirstFails := false; upsertFails := false; countFails := false;
     detailsEndpointEquals := endpoint_of_details;
     createFails := fun _ => false |}.

(** A request at instant [date] during a total storage outage. *)
Definition outage_at (date : Z) : Env :=
  {| now := date; requestHeaders := Some no_headers;
     EMERGENCY_BYPASS_TOKEN := Some "s3cret";
     redisGetFails := true; redisSetexFails := true;
     slidingWindowFails := rejects_window; limiterFails := true;
     findFirstFails := true; upsertFails := true; countFails := true;
     detailsEndpointEquals := endpoint_of_details;
     createFails := fun _ => true |}.

(** A request at instant [date] that carries the bypass token. *)
Definition bypass_at (date : Z) : Env :=
  {| now := date;
     requestHeaders :=
       Some (fun h => if String.eqb h "x-emergency-bypass" then Some "s3cret" else None);
     EMERGENCY_BYPASS_TOKEN := Some "s3cret";
     redisGetFails := false; redisSetexFails := false;
     slidingWindowFails := rejects_window; limiterFails := false;
     findFirstFails := false; upsertFails := false; countFails := false;
     detailsEndpointEquals := endpoint_of_details;
     createFails := fun _ => false |}.

(** A configuration with a burst tier behind the primary rule. *)
Definition two_tier : RateLimitConfig :=
  {| identifier := Some "auth:login";
     rules := [ {| requests := 5; window := "15 m"; windowMs := 15 * 60 * 1000 |};
                {| requests := 1; window := "1 m"; windowMs := 60 * 1000 |} ];
     blockDuration := None; blockDurationMs := None |}.

(** A rule that allows one request per minute. *)
Definition one_per_minute : RateLimitRule :=
  {| requests := 1; window := "1 m"; windowMs := 60 * 1000 |}.

Definition single_slot : RateLimitConfig :=
  {| identifier := Some "auth:login"; rules := [ one_per_minute ];
     blockDuration := None; blockDurationMs := None |}.

(** A ledger that holds a block of the client until instant 1801005. *)
Definition blocked_world : @World (gmap string Z) :=
  fresh_world (Some {[ "block:ip:203.0.113.5" := (RNumber 1801005, 1801005) ]}).

(** A request whose ledger lookup throws while everything else works. *)
Definition lookup_fails_at (date : Z) : Env :=
  {| now := date; requestHeaders := Some no_headers;
     EMERGENCY_BYPASS_TOKEN := Some "s3cret";
     redisGetFails := true; redisSetexFails := false;
     slidingWindowFails := rejects_window; limiterFails := false;
     findFirstFails := false; upsertFails := false; countFails := true;
     detailsEndpointEquals := endpoint_of_details;
     createFails := fun _ => false |}.

(** The limiter has already counted the five requests of the window. *)
Definition exhausted_world : @World (gmap string Z) :=
  {| redis := Some ∅;
     limiterState := {[ "ratelimit:auth:login:ip:203.0.113.5" := 5 ]};
     rateLimiters := ∅; rateLimitEntry := []; securityLog := []; console := [] |}.

(** C2, the claim as stated fails: with Redis and the database both down, the
    request is allowed, but the marker is the text of the [error] field, not
    "storage_unavailable", and no event reaches the security log. *)
Lemma outage_marker_is_not_storage_unavailable :
  exists w' r,
    checkRateLimit counting_limit (outage_at 1700000000000) client "auth_login" None
      (fresh_world (Some ∅)) = (w', inr r)
    /\ success r = true
    /\ error r = Some "Rate limiting temporarily unavailable"
    /\ error r <> Some "storage_unavailable"
    /\ securityLog w' = [].
Proof.
  eexists _, _. split; [vm_compute; reflexivity|]. simpl.
  repeat split; discriminate.
Qed.

(** C5, the claim as stated fails: the bypass result carries no marker and
    the call emits nothing. *)
Lemma bypass_has_no_marker_and_no_event :
  exists w' r,
    checkRateLimit counting_limit (bypass_at 1700000000000) client "auth_login" None
      (fresh_world (Some ∅)) = (w', inr r)
    /\ success r = true
    /\ error r = None
    /\ error r <> Some "emergency_bypass"
    /\ securityLog w' = [] /\ console w' = [].
Proof.
  eexists _, _. split; [vm_compute; reflexivity|]. simpl.
  repeat split; discriminate.
Qed.

(** C6, the claim as stated fails: on the database fallback the second of two
    requests under [two_tier] succeeds although the counter then stands at 2
    and the second rule of the configuration allows 1. *)
Lemma second_rule_is_not_enforced :
  exists w1 out1 w2 r rule,
    checkRateLimit counting_limit (request_at 1000) client "auth_login" (Some two_tier)
      (fresh_world None) = (w1, out1)
    /\ checkRateLimit counting_limit (request_at 1001) client "auth_login" (Some two_tier)
         w1 = (w2, inr r)
    /\ success r = true
    /\ List.map attempts (rateLimitEntry w2) = [2]
    /\ In rule (rules two_tier) /\ requests rule < 2.
Proof.
  eexists _, _, _, _, {| requests := 1; window := "1 m"; windowMs := 60 * 1000 |}.
  split; [vm_compute; reflexivity|]. split; [vm_compute; reflexivity|].
  split; [reflexivity|]. split; [reflexivity|]. split; [right; left; reflexivity | simpl; lia].
Qed.

(** C4, the code at the failing schedule.  Two requests of one client under a
    rule that allows one request, served at the same time on the database
    fallback, with both reads done before either write: both are allowed, and
    the table ends with two rows of one attempt each, and the row that the
    next [findFirst] returns counts one attempt, not two.  Served one after
    the other, the second is refused. *)
Lemma interleaved_requests_lose_an_update :
  (exists w' rA rB,
     interleaved_database (request_at 1000) (request_at 1000) client single_slot
       one_per_minute (fresh_world None)
     = (w', inr (rA, rB))
     /\ success rA = true /\ success rB = true
     /\ List.map attempts (rateLimitEntry w') = [1; 1]
     /\ attempts <$> List.find (entry_matches (request_at 1000) client)
                               (rateLimitEntry w') = Some 1)
  /\ (exists rA rB,
        run_database [request_at 1000; request_at 1000] client single_slot
          (fresh_world None)
        = [inr rA; inr rB]
        /\ success rA = true /\ success rB = false).
Proof.
  split.
  - eexists _, _, _. split; [vm_compute; reflexivity|]. repeat split.
  - eexists _, _. split; [vm_compute; reflexivity|]. repeat split.
Qed.

(** A signed-in client behind the address of the anonymous one. *)
Definition colleague : RateLimitContext :=
  {| userId := Some "u1"; userRole := Some USER; ip := "203.0.113.5";
     userAgent := "Mozilla/5.0"; endpoint := "/api/auth/login";
     operationType := None |}.

(** The table holds the live counter row of another user at that address,
    with four attempts. *)
Definition shared_address_world : @World (gmap string Z) :=
  {| redis := None; limiterState := ∅; rateLimiters := ∅;
     rateLimitEntry :=
       [ {| entry_id := 1; entry_userId := Some "u2"; entry_ip := "203.0.113.5";
            entry_endpoint := "/api/auth/login"; attempts := 4; windowStart := 500;
            expiresAt := 900500; updatedAt := 900 |} ];
     securityLog := []; console := [] |}.

(** C1, the claim as stated fails: the counter is not kept per identifier.
    The first request of the new identifier [user:u1:203.0.113.5] under the
    five-request rule finds the row of the other user, is counted on it and
    gets [remaining = 0], not 4; its second request is refused. *)
Lemma shared_row_breaks_countdown :
  createRateLimitIdentifier colleague = "user:u1:203.0.113.5"
  /\ exists r0 r1,
       run_database [request_at 1000; request_at 1001] colleague (catalog "auth_login")
         shared_address_world
       = [inr r0; inr r1]
       /\ success r0 = true /\ remaining r0 = Finite 0
       /\ success r1 = false /\ remaining r1 = Finite 0.
Proof.
  split; [reflexivity|].
  eexists _, _. split; [vm_compute; reflexivity|]. repeat split.
Qed.

(** C3, the claim as stated fails: a call that is no bypass but whose ledger
    lookup throws does not see the block.  The client blocked until 1801005
    asks at 1006; [redis.get] throws, the block check answers "not blocked",
    and the limiter admits the request with four requests remaining. *)
Lemma blocked_client_passes_when_lookup_fails :
  active_block (lookup_fails_at 1006) client 1801005 blocked_world
  /\ not_bypass (lookup_fails_at 1006)
  /\ exists w' r,
       checkRateLimit counting_limit (lookup_fails_at 1006) client "auth_login" None
         blocked_world = (w', inr r)
       /\ success r = true /\ blocked r = None
       /\ limit r = Finite 5 /\ remaining r = Finite 4.
Proof.
  split; [|split; [reflexivity|]].
  - exists {[ "block:ip:203.0.113.5" := (RNumber 1801005, 1801005) ]}, 1801005.
    repeat split; simpl; lia.
  - eexists _, _. split; [vm_compute; reflexivity|]. repeat split.
Qed.

(** The client is blocked until 1801005 and the limiter has already counted
    the five requests of its window. *)
Definition blocked_exhausted_world : @World (gmap string Z) :=
  {| redis := Some {[ "block:ip:203.0.113.5" := (RNumber 1801005, 1801005) ]};
     limiterState := {[ "ratelimit:auth:login:ip:203.0.113.5" := 5 ]};
     rateLimiters := ∅; rateLimitEntry := []; securityLog := []; console := [] |}.

(** C7, the claim as stated fails: a block in force can be moved.  The
    blocked client asks at 61006; [redis.get] throws, so the block is not
    seen, the limiter refuses the request, and the block is written again:
    its [until] goes from 1801005 to 1861006. *)
Lemma block_extended_when_lookup_fails :
  active_block (lookup_fails_at 61006) client 1801005 blocked_exhausted_world
  /\ exists w' r store',
       checkRateLimit counting_limit (lookup_fails_at 61006) client "auth_login" None
         blocked_exhausted_world = (w', inr r)
       /\ success r = false /\ blocked r = None
       /\ redis w' = Some store'
       /\ store' !! blockKey client = Some (RNumber 1861006, 1861006).
Proof.
  split.
  - exists {[ "block:ip:203.0.113.5" := (RNumber 1801005, 1801005) ]}, 1801005.
    repeat split; simpl; lia.
  - eexists _, _, _. split; [vm_compute; reflexivity|]. repeat split.
Qed.

(** ** The theorems at concrete inputs *)

(** The scenario of the specification on the database fallback: the
    [auth_login] configuration, six requests one millisecond apart. *)
Lemma database_quota_countdown_witness :
  length (run_database (request_at 1000 :: List.map request_at [1001; 1002; 1003; 1004; 1005])
            client (catalog "auth_login") (fresh_world None)) = 6%nat
  /\ forall (i : nat) out,
       run_database (request_at 1000 :: List.map request_at [1001; 1002; 1003; 1004; 1005])
         client (catalog "auth_login") (fresh_world None) !! i = Some out ->
       (Z.of_nat i < 5 ->
          exists r, out = inr r /\ success r = true
                    /\ remaining r = Finite (5 - 1 - Z.of_nat i))
       /\ (Z.of_nat i = 5 ->
             exists r s, out = inr r /\ success r = false /\ remaining r = Finite 0
                         /\ retryAfter r = Some s /\ 0 < s).
Proof.
  apply (database_quota_countdown client (catalog "auth_login")
           {| requests := 5; window := "15 m"; windowMs := 15 * 60 * 1000 |} []
           eq_refl (request_at 1000) (List.map request_at [1001; 1002; 1003; 1004; 1005])
           (fresh_world None)).
  - simpl. lia.
  - reflexivity.
  - repeat constructor; simpl; lia.
  - intros e [].
Defined.

Lemma regular_request_at (date : Z) : regular_call (request_at date).
Proof.
  split; [|reflexivity]. exists no_headers. split; reflexivity.
Defined.

Lemma block_overrides_counter_witness :
  Forall2 (fun env out =>
             exists seconds,
               out = inr {| success := false; limit := Finite 5;
                            remaining := Finite 0; reset := 1801005;
                            blocked := Some true; blockUntil := Some 1801005;
                            retryAfter := Some seconds; error := None |}
               /\ 1801005 - now env <= seconds * 1000 < 1801005 - now env + 1000)
          [request_at 1006; request_at 61006]
          (snd (run_checks counting_limit [request_at 1006; request_at 61006]
                  client "auth_login" None blocked_world))
  /\ same_stores blocked_world
       (fst (run_checks counting_limit [request_at 1006; request_at 61006]
               client "auth_login" None blocked_world)).
Proof.
  apply (block_overrides_counter counting_limit client "auth_login" None
           {| requests := 5; window := "15 m"; windowMs := 15 * 60 * 1000 |} []
           {[ "block:ip:203.0.113.5" := (RNumber 1801005, 1801005) ]}
           1801005 1801005).
  - reflexivity.
  - reflexivity.
  - reflexivity.
  - reflexivity.
  - lia.
  - repeat constructor; try apply regular_request_at; simpl; lia.
Defined.

Lemma emergency_bypass_unlimited_witness :
  checkRateLimit counting_limit (bypass_at 1700000000000) client "auth_login" None
    blocked_world
  = (blocked_world,
     inr {| success := true; limit := Infinity; remaining := Infinity;
            reset := 1700000000000 + 60000; blocked := None; blockUntil := None;
            retryAfter := None; error := None |}).
Proof.
  apply (emergency_bypass_unlimited counting_limit (bypass_at 1700000000000) client
           "auth_login" None blocked_world
           (fun h => if String.eqb h "x-emergency-bypass" then Some "s3cret" else None)
           "s3cret"); reflexivity.
Defined.

Lemma storage_unavailable_outage (date : Z) : storage_unavailable (outage_at date).
Proof. repeat split. Defined.

Lemma check_returns_and_fails_open_witness :
  exists w' r,
    checkRateLimit counting_limit (outage_at 1700000000000) client "auth_login" None
      (fresh_world None) = (w', inr r)
    /\ securityLog w' = []
    /\ exists l e,
         console_added (fresh_world None) w' l
         /\ r = {| success := true; limit := Finite 5; remaining := Finite (5 - 1);
                   reset := 1700000000000 + 15 * 60 * 1000; blocked := None;
                   blockUntil := None; retryAfter := None;
                   error := Some "Database rate limiting error" |}
         /\ In ("Database rate limiting error:", Some e) l.
Proof.
  destruct (check_returns_and_fails_open counting_limit (outage_at 1700000000000) client
              "auth_login" None (fresh_world None)) as (w' & r & Hrun & Hopen).
  exists w', r. split; [exact Hrun|].
  apply Hopen; [apply storage_unavailable_outage | reflexivity].
Defined.

Lemma config_precedence_witness :
  (selectConfig client "profile_update" None
   = mkConfig "op:profile_update" 5 "1 h" (60 * 60 * 1000) "30 m" (30 * 60 * 1000)
   /\ checkRateLimit counting_limit (request_at 1000) client "profile_update" None
      = checkRateLimit counting_limit (request_at 1000) client "profile_update"
          (Some (mkConfig "op:profile_update" 5 "1 h" (60 * 60 * 1000)
                   "30 m" (30 * 60 * 1000))))
  /\ (selectConfig client "api_user" None = getRateLimitConfig "api_user" (userRole client)
      /\ checkRateLimit counting_limit (request_at 1000) client "api_user" None
         = checkRateLimit counting_limit (request_at 1000) client "api_user"
             (Some (getRateLimitConfig "api_user" (userRole client)))).
Proof.
  split.
  - apply (proj1 (proj2 (config_precedence counting_limit (request_at 1000) client
                           "profile_update"))).
    reflexivity.
  - apply (proj1 (proj2 (proj2 (config_precedence counting_limit (request_at 1000)
                                  client "api_user")))).
    reflexivity.
Defined.

Lemma block_status_fails_open_witness :
  (checkBlockStatus (lookup_fails_at 1006) client two_tier blocked_world
   = (blocked_world, inr NotBlocked)
   /\ enforce counting_limit (lookup_fails_at 1006) client two_tier blocked_world
      = counterCheck counting_limit (lookup_fails_at 1006) client two_tier blocked_world)
  /\ exists w',
       checkBlockStatus (lookup_fails_at 1006) client (catalog "auth_login") blocked_world
       = (w', inr NotBlocked)
       /\ enforce counting_limit (lookup_fails_at 1006) client (catalog "auth_login")
            blocked_world
          = counterCheck counting_limit (lookup_fails_at 1006) client
              (catalog "auth_login") w'
       /\ redis w' = redis blocked_world /\ limiterState w' = limiterState blocked_world
       /\ rateLimiters w' = rateLimiters blocked_world
       /\ rateLimitEntry w' = rateLimitEntry blocked_world
       /\ securityLog w' = securityLog blocked_world.
Proof.
  split.
  - apply (proj1 (block_status_fails_open counting_limit (lookup_fails_at 1006) client
                    two_tier blocked_world)).
    reflexivity.
  - apply (proj2 (block_status_fails_open counting_limit (lookup_fails_at 1006) client
                    (catalog "auth_login") blocked_world)).
    reflexivity.
Defined.

Lemma only_first_rule_evaluated_witness :
  checkRateLimit counting_limit (request_at 1000) client "auth_login" (Some two_tier)
    (fresh_world None)
  = checkRateLimit counting_limit (request_at 1000) client "auth_login"
      (Some {| identifier := Some "auth:login";
               rules := [ {| requests := 5; window := "15 m";
                             windowMs := 15 * 60 * 1000 |};
                          {| requests := 100; window := "1 h";
                             windowMs := 60 * 60 * 1000 |} ];
               blockDuration := None; blockDurationMs := None |})
      (fresh_world None).
Proof.
  apply (proj2 (only_first_rule_evaluated counting_limit (request_at 1000) client
                  "auth_login" two_tier (fresh_world None))).
  repeat split.
Defined.

Lemma block_written_only_by_violation_witness :
  (redis (fst (checkRateLimit counting_limit (request_at 1005) client "auth_login" None
                 exhausted_world)) <> redis exhausted_world
   /\ refused (snd (checkRateLimit counting_limit (request_at 1005) client "auth_login"
                      None exhausted_world))
   /\ block_written (request_at 1005) client (catalog "auth_login") exhausted_world
        (fst (checkRateLimit counting_limit (request_at 1005) client "auth_login" None
                exhausted_world)))
  /\ redis (fst (checkRateLimit counting_limit (request_at 1006) client "auth_login" None
                   blocked_world)) = redis blocked_world.
Proof.
  split.
  - assert (Hchanged :
      redis (fst (checkRateLimit counting_limit (request_at 1005) client "auth_login" None
                    exhausted_world)) <> redis exhausted_world).
    { vm_compute. discriminate. }
    split; [exact Hchanged|].
    destruct (block_written_only_by_violation counting_limit (request_at 1005) client
                "auth_login" None exhausted_world _ _
                (surjective_pairing _)) as [Hwritten _].
    destruct (Hwritten Hchanged) as (_ & _ & Hrefused & Hblock).
    split; assumption.
  - destruct (block_written_only_by_violation counting_limit (request_at 1006) client
                "auth_login" None blocked_world _ _
                (surjective_pairing _)) as [_ Hkept].
    apply (Hkept 1801005); [|reflexivity | simpl; lia].
    exists {[ "block:ip:203.0.113.5" := (RNumber 1801005, 1801005) ]}, 1801005.
    repeat split; simpl; lia.
Defined.

(** * The rest of the rate limiter: catalog, request helpers, responses and
      the middleware that calls the engine *)

(** ** The rule catalog: what resolution can return *)

(** What a read of either table of configurations can return: the entries
    written in [rate-limit-config.ts] and the inherited value. *)
Definition table_values : list RateLimitConfig :=
  (snd <$> map_to_list RATE_LIMIT_CONFIGS) ++ (snd <$> map_to_list OPERATION_RATE_LIMITS).

(** A configuration that the engine can enforce without a [TypeError]: one
    rule, a positive quota and window, and a positive block duration. *)
Definition enforceable (c : RateLimitConfig) : Prop :=
  exists rule d,
    rules c = [rule] /\ 1 <= requests rule /\ 0 < windowMs rule
    /\ blockDurationMs c = Some d /\ 0 < d /\ is_Some (blockDuration c).

Definition enforceableb (c : RateLimitConfig) : bool :=
  match rules c, blockDurationMs c, blockDuration c with
  | [rule], Some d, Some _ => (1 <=? requests rule) && (0 <? windowMs rule) && (0 <? d)
  | _, _, _ => false
  end.

Lemma enforceableb_sound (c : RateLimitConfig) : enforceableb c = true -> enforceable c.
Proof.
  unfold enforceableb, enforceable.
  destruct (rules c) as [|rule [|? ?]]; try discriminate.
  destruct (blockDurationMs c) as [d|]; try discriminate.
  destruct (blockDuration c) as [b|]; try discriminate.
  intros H. apply andb_true_iff in H as [H Hd]. apply andb_true_iff in H as [Hr Hw].
  exists rule, d. repeat split; try reflexivity;
    [apply Z.leb_le, Hr | apply Z.ltb_lt, Hw | apply Z.ltb_lt, Hd | eexists; reflexivity].
Qed.

(** An entry of a table is enforceable, unless its key is an inherited name. *)
Definition entry_ok (kc : string * RateLimitConfig) : bool :=
  enforceableb (snd kc) || existsb (String.eqb (fst kc)) Object_prototype_names.

Lemma lookup_enforceable (m : gmap string RateLimitConfig) (k : string)
    (c : RateLimitConfig) :
  forallb entry_ok (map_to_list m) = true ->
  m !! k = Some c -> ~ In k Object_prototype_names -> enforceable c.
Proof.
  intros Hall Hk Hown. rewrite forallb_forall in Hall.
  assert (Hin : In (k, c) (map_to_list m)).
  { apply (proj1 (list_elem_of_In (map_to_list m) (k, c))).
    apply elem_of_map_to_list. exact Hk. }
  specialize (Hall (k, c) Hin). unfold entry_ok in Hall. cbn [fst snd] in Hall.
  apply orb_true_iff in Hall as [Hok | Hname]; [apply enforceableb_sound, Hok|].
  exfalso. apply Hown. apply existsb_exists in Hname as (name & Hname & Heq).
  apply String.eqb_eq in Heq. subst name. exact Hname.
Qed.

Lemma catalog_lookup_enforceable (k : string) (c : RateLimitConfig) :
  RATE_LIMIT_CONFIGS !! k = Some c -> ~ In k Object_prototype_names -> enforceable c.
Proof. apply lookup_enforceable. vm_compute. reflexivity. Qed.

Lemma operation_lookup_enforceable (k : string) (c : RateLimitConfig) :
  OPERATION_RATE_LIMITS !! k = Some c -> ~ In k Object_prototype_names -> enforceable c.
Proof. apply lookup_enforceable. vm_compute. reflexivity. Qed.

Lemma catalog_lookup_shipped (k : string) (c : RateLimitConfig) :
  RATE_LIMIT_CONFIGS !! k = Some c -> c ∈ table_values.
Proof.
  intros H. unfold table_values. apply elem_of_app. left.
  apply list_elem_of_fmap. exists (k, c). split; [reflexivity|].
  apply elem_of_map_to_list. exact H.
Qed.

Lemma operation_lookup_shipped (k : string) (c : RateLimitConfig) :
  OPERATION_RATE_LIMITS !! k = Some c -> c ∈ table_values.
Proof.
  intros H. unfold table_values. apply elem_of_app. right.
  apply list_elem_of_fmap. exists (k, c). split; [reflexivity|].
  apply elem_of_map_to_list. exact H.
Qed.

Lemma getRateLimitConfig_shipped (k : string) (role : option UserRole) :
  getRateLimitConfig k role ∈ table_values.
Proof.
  unfold getRateLimitConfig. destruct (String.eqb k "api_user").
  - destruct role as [[| |]|].
    + apply (catalog_lookup_shipped "api_user"). reflexivity.
    + apply (catalog_lookup_shipped "api_admin"). reflexivity.
    + apply (catalog_lookup_shipped "api_security_lead"). reflexivity.
    + apply (catalog_lookup_shipped "api_user"). reflexivity.
  - destruct (RATE_LIMIT_CONFIGS !! k) as [c|] eqn:Hk.
    + eapply catalog_lookup_shipped. exact Hk.
    + apply (catalog_lookup_shipped "public"). reflexivity.
Qed.

Lemma selectConfig_shipped (context : RateLimitContext) (k : string) :
  selectConfig context k None ∈ table_values.
Proof.
  unfold selectConfig. destruct (OPERATION_RATE_LIMITS !! k) as [c|] eqn:Hk.
  - eapply operation_lookup_shipped. exact Hk.
  - apply getRateLimitConfig_shipped.
Qed.

Lemma getRateLimitConfig_enforceable (k : string) (role : option UserRole) :
  ~ In k Object_prototype_names -> enforceable (getRateLimitConfig k role).
Proof.
  intros Hown. unfold getRateLimitConfig. destruct (String.eqb k "api_user").
  - destruct role as [[| |]|]; apply enforceableb_sound; vm_compute; reflexivity.
  - destruct (RATE_LIMIT_CONFIGS !! k) as [c|] eqn:Hk.
    + exact (catalog_lookup_enforceable k c Hk Hown).
    + apply enforceableb_sound. vm_compute. reflexivity.
Qed.

(** X1.  Resolution yields a configuration that the engine can enforce for
    every key but twelve.  Without a caller-supplied configuration, for every
    key that is not the name of a property inherited from [Object.prototype],
    known to the tables or not, and for every role, the selected
    configuration has exactly one rule, with a quota of at least one request
    and a positive window, and a positive block duration.  For each of the
    twelve inherited names the read of the operation table finds the
    inherited value, which is selected and has no rule and no block
    duration. *)
Theorem resolved_config_is_enforceable (context : RateLimitContext) (configKey : string) :
  (~ In configKey Object_prototype_names ->
     enforceable (selectConfig context configKey None)
     /\ enforceable (getRateLimitConfig configKey (userRole context)))
  /\ (In configKey Object_prototype_names ->
        selectConfig context configKey None = inherited_value
        /\ rules (selectConfig context configKey None) = []
        /\ blockDurationMs (selectConfig context configKey None) = None).
Proof.
  split.
  - intros Hown. split; [|apply getRateLimitConfig_enforceable, Hown].
    unfold selectConfig. destruct (OPERATION_RATE_LIMITS !! configKey) as [c|] eqn:Hk.
    + exact (operation_lookup_enforceable configKey c Hk Hown).
    + apply getRateLimitConfig_enforceable, Hown.
  - intros Hin.
    assert (Hsel : selectConfig context configKey None = inherited_value).
    { unfold Object_prototype_names, Object_prototype_functions in Hin.
      repeat (destruct Hin as [<- | Hin]; [reflexivity|]). destruct Hin. }
    rewrite Hsel. repeat split.
Qed.

(** The quota of the first rule, 0 when there is none. *)
Definition quota (c : RateLimitConfig) : Z :=
  match rules c with rule :: _ => requests rule | [] => 0 end.

(** X2.  The role matters for the key "api_user" and for no other: there the
    quota grows strictly with the role (user, admin, security lead; a missing
    role is treated as a user), and for every other key, in the catalog or
    not, all roles get the same configuration. *)
Theorem role_tiers (configKey : string) (r1 r2 : option UserRole) :
  quota (getRateLimitConfig "api_user" None) = quota (getRateLimitConfig "api_user" (Some USER))
  /\ quota (getRateLimitConfig "api_user" (Some USER))
     < quota (getRateLimitConfig "api_user" (Some ADMIN))
  /\ quota (getRateLimitConfig "api_user" (Some ADMIN))
     < quota (getRateLimitConfig "api_user" (Some SECURITY_LEAD))
  /\ (configKey <> "api_user" ->
      getRateLimitConfig configKey r1 = getRateLimitConfig configKey r2).
Proof.
  split; [reflexivity|]. split; [vm_compute; reflexivity|].
  split; [vm_compute; reflexivity|].
  intros Hne. unfold getRateLimitConfig.
  destruct (String.eqb configKey "api_user") eqn:He; [|reflexivity].
  apply String.eqb_eq in He. contradiction.
Qed.

(** The field [name] of the [details] of an event. *)
Definition detail (name : string) (ds : option (list (string * DetailValue)))
    : option DetailValue :=
  match ds with
  | Some l => snd <$> List.find (fun kv => String.eqb (fst kv) name) l
  | None => None
  end.

Lemma table_values_severity (c : RateLimitConfig) :
  c ∈ table_values -> severity_detail (identifier c) = Some (DString "medium").
Proof.
  intros Hin.
  assert (Hall : forallb (fun c => match severity_detail (identifier c) with
                                   | Some (DString v) => String.eqb v "medium"
                                   | _ => false
                                   end) table_values = true)
    by (vm_compute; reflexivity).
  rewrite forallb_forall in Hall.
  specialize (Hall c (proj1 (list_elem_of_In table_values c) Hin)).
  destruct (severity_detail (identifier c)) as [[v| | |]|]; try discriminate.
  apply String.eqb_eq in Hall. subst v. reflexivity.
Qed.

(** X3.  Every violation event of a resolved configuration is logged with
    the severity "medium".  The severity is read from [ENDPOINT_SEVERITY]
    under the configuration's [identifier] ("auth:login"), while that table is
    keyed by catalog key ("auth_login"), so the lookup misses and the default
    is taken.  For every key and role, when the headers can be read, the
    event sink works and [blockUntil], if given, is a valid date,
    [logRateLimitViolation] for the configuration selected without a
    caller-supplied one appends one row to the security log, with
    the action [RATE_LIMIT_EXCEEDED], whose [details.severity] is "medium":
    neither "critical" nor "high" is ever logged without a custom
    configuration. *)
Theorem resolved_severity_is_medium {LimiterState : Type} (env : Env)
    (context : RateLimitContext) (configKey violationType : string)
    (blockUntil : option Z) (w : @World LimiterState) :
  requestHeaders env <> None ->
  (forall row, createFails env row = false) ->
  (forall t, blockUntil = Some t -> valid_time t = true) ->
  exists w' row,
    logRateLimitViolation env context (selectConfig context configKey None)
      violationType blockUntil w = (w', inr tt)
    /\ securityLog w' = (securityLog w ++ [row])%list
    /\ log_action row = RATE_LIMIT_EXCEEDED
    /\ detail "severity" (log_details row) = Some (DString "medium").
Proof.
  intros Hheaders Hsink Hvalid.
  pose proof (table_values_severity _ (selectConfig_shipped context configKey)) as Hsev.
  unfold logRateLimitViolation. rewrite Hsev.
  assert (Hiso : exists iso,
            (match blockUntil with
             | Some t => if t =? 0 then ret None
                         else bind (toISOString t) (fun s => ret (Some s))
             | None => ret None
             end) w = (w, inr iso)).
  { destruct blockUntil as [t|]; [|eexists; reflexivity].
    destruct (t =? 0); [eexists; reflexivity|].
    unfold bind, toISOString. rewrite (Hvalid t eq_refl). eexists. reflexivity. }
  destruct Hiso as (iso & Hiso). unfold bind at 1. rewrite Hiso.
  unfold logSecurityEvent, try_catch, bind, headers, prisma_securityLog_create.
  destruct (requestHeaders env) as [h|]; [|congruence].
  cbn [ev_ip ev_userAgent ev_userId ev_action ev_details ev_success].
  destruct (negb (truthy_opt_string (Some (ip context)))
            || negb (truthy_opt_string (Some (userAgent context))));
    unfold ret; cbn [fst snd]; rewrite Hsink;
    (eexists _, _; split; [reflexivity|]; split; [reflexivity|];
     split; [reflexivity|]);
    cbn [log_details detail];
    destruct (identifier (selectConfig context configKey None)); reflexivity.
Qed.

(** ** Request helpers of [rate-limiter.ts] *)

(** What the limiter reads of a [NextRequest]. *)
Record NextRequest := {
  req_headers : string -> option string;
  req_ip : option string;
  req_method : string;
  (** [new URL(request.url).pathname] *)
  req_pathname : string
}.

Abbreviation ascii := Stdlib.Strings.Ascii.ascii.
Abbreviation nat_of_ascii := Stdlib.Strings.Ascii.nat_of_ascii.

(** The white space of [String.prototype.trim] among the code units below
    256: tab, line feed, vertical tab, form feed, carriage return, space and
    no-break space. *)
Definition is_js_space (c : ascii) : bool :=
  let n := nat_of_ascii c in
  ((9 <=? n) && (n <=? 13))%nat || Nat.eqb n 32 || Nat.eqb n 160.

Definition is_comma (c : ascii) : bool := Nat.eqb (nat_of_ascii c) 44.

(** [s.split(",")[0]]: the part of [s] before its first comma. *)
Fixpoint before_comma (s : string) : string :=
  match s with
  | EmptyString => EmptyString
  | String c s' => if is_comma c then EmptyString else String c (before_comma s')
  end.

Fixpoint trimStart (s : string) : string :=
  match s with
  | EmptyString => EmptyString
  | String c s' => if is_js_space c then trimStart s' else s
  end.

Fixpoint trimEnd (s : string) : string :=
  match s with
  | EmptyString => EmptyString
  | String c s' =>
      match trimEnd s' with
      | EmptyString => if is_js_space c then EmptyString else String c EmptyString
      | r => String c r
      end
  end.

Definition trim (s : string) : string := trimEnd (trimStart s).

Definition getClientIP (request : NextRequest) : string :=
  let forwarded := req_headers request "x-forwarded-for" in
  let realIP := req_headers request "x-real-ip" in
  let remoteAddr := req_ip request in
  if truthy_opt_string forwarded then trim (before_comma (default EmptyString forwarded))
  else or_string realIP (or_string remoteAddr "unknown").

(** [c] occurs in [s]. *)
Fixpoint occurs (p : ascii -> bool) (s : string) : bool :=
  match s with
  | EmptyString => false
  | String c s' => p c || occurs p s'
  end.

(** The first and the last character of a string satisfy [p]. *)
Definition starts_with (p : ascii -> bool) (s : string) : bool :=
  match s with String c _ => p c | EmptyString => false end.

Fixpoint ends_with (p : ascii -> bool) (s : string) : bool :=
  match s with
  | EmptyString => false
  | String c EmptyString => p c
  | String _ s' => ends_with p s'
  end.

Lemma before_comma_no_comma (s : string) : occurs is_comma (before_comma s) = false.
Proof.
  induction s as [|c s IH]; simpl; [reflexivity|].
  destruct (is_comma c) eqn:Hc; simpl; [reflexivity|]. rewrite Hc. exact IH.
Qed.

Lemma trimStart_occurs (p : ascii -> bool) (s : string) :
  occurs p s = false -> occurs p (trimStart s) = false.
Proof.
  induction s as [|c s IH]; simpl; [reflexivity|].
  intros H. apply orb_false_iff in H as [Hc Hs].
  destruct (is_js_space c); [apply IH, Hs|]. simpl. rewrite Hc. exact Hs.
Qed.

Lemma trimEnd_occurs (p : ascii -> bool) (s : string) :
  occurs p s = false -> occurs p (trimEnd s) = false.
Proof.
  induction s as [|c s IH]; simpl; [reflexivity|].
  intros H. apply orb_false_iff in H as [Hc Hs]. specialize (IH Hs).
  destruct (trimEnd s) as [|c' r].
  - destruct (is_js_space c); simpl; [reflexivity|]. rewrite Hc. reflexivity.
  - simpl in *. rewrite Hc. exact IH.
Qed.

Lemma trimStart_starts (s : string) : starts_with is_js_space (trimStart s) = false.
Proof.
  induction s as [|c s IH]; simpl; [reflexivity|].
  destruct (is_js_space c) eqn:Hc; [exact IH|]. simpl. exact Hc.
Qed.

Lemma trimEnd_starts (s : string) :
  starts_with is_js_space s = false -> starts_with is_js_space (trimEnd s) = false.
Proof.
  destruct s as [|c s]; simpl; [reflexivity|]. intros Hc.
  destruct (trimEnd s); [rewrite Hc|]; simpl; exact Hc.
Qed.

Lemma trimEnd_ends (s : string) : ends_with is_js_space (trimEnd s) = false.
Proof.
  induction s as [|c s IH]; simpl; [reflexivity|].
  destruct (trimEnd s) as [|c' r] eqn:Hr.
  - destruct (is_js_space c) eqn:Hc; simpl; [reflexivity | exact Hc].
  - simpl in *. exact IH.
Qed.

(** X4.  With a non-empty [x-forwarded-for] header, the client address is the
    first entry of the header, trimmed: it contains no comma and neither
    starts nor ends with white space, and it does not depend on [x-real-ip]
    nor on the address of the connection, which are not looked at. *)
Theorem getClientIP_forwarded (request : NextRequest) (forwarded : string) :
  req_headers request "x-forwarded-for" = Some forwarded ->
  forwarded <> EmptyString ->
  getClientIP request = trim (before_comma forwarded)
  /\ occurs is_comma (getClientIP request) = false
  /\ starts_with is_js_space (getClientIP request) = false
  /\ ends_with is_js_space (getClientIP request) = false.
Proof.
  intros Hf Hne.
  assert (Hip : getClientIP request = trim (before_comma forwarded)).
  { unfold getClientIP. rewrite Hf. simpl. unfold truthy_string.
    destruct (String.eqb forwarded EmptyString) eqn:He; [|reflexivity].
    apply String.eqb_eq in He. contradiction. }
  rewrite Hip. split; [reflexivity|]. unfold trim. split; [|split].
  - apply trimEnd_occurs, trimStart_occurs, before_comma_no_comma.
  - apply trimEnd_starts, trimStart_starts.
  - apply trimEnd_ends.
Qed.

Lemma or_string_nonempty (a : option string) (b : string) :
  b <> EmptyString -> or_string a b <> EmptyString.
Proof.
  intros Hb. unfold or_string, truthy_string. destruct a as [s|]; [|exact Hb].
  destruct (String.eqb s EmptyString) eqn:He; simpl; [exact Hb|].
  apply String.eqb_neq. exact He.
Qed.

(** X5.  Without an [x-forwarded-for] header (absent or empty) the client
    address is never empty: it is [x-real-ip], else the address of the
    connection, else the text "unknown". *)
Theorem getClientIP_fallback_nonempty (request : NextRequest) :
  truthy_opt_string (req_headers request "x-forwarded-for") = false ->
  getClientIP request <> EmptyString
  /\ (truthy_opt_string (req_headers request "x-real-ip") = false ->
      truthy_opt_string (req_ip request) = false ->
      getClientIP request = "unknown").
Proof.
  intros Hf. unfold getClientIP. rewrite Hf. split.
  - apply or_string_nonempty, or_string_nonempty. discriminate.
  - intros Hr Hi. unfold or_string, truthy_opt_string in *.
    destruct (req_headers request "x-real-ip") as [r|]; [rewrite Hr|];
      (destruct (req_ip request) as [i|]; [rewrite Hi|]); reflexivity.
Qed.

(** The user that the identifier is built from: a non-empty user id. *)
Definition identified_user (context : RateLimitContext) : option string :=
  match userId context with
  | Some u => if truthy_string u then Some u else None
  | None => None
  end.

Definition is_colon (c : ascii) : bool := Nat.eqb (nat_of_ascii c) 58.

Lemma append_cons (c : ascii) (s t : string) : String c s ++ t = String c (s ++ t).
Proof. reflexivity. Qed.

Lemma append_empty_l (t : string) : EmptyString ++ t = t.
Proof. reflexivity. Qed.

Lemma colon_split_injective (u u' i i' : string) :
  occurs is_colon u = false -> occurs is_colon u' = false ->
  u ++ ":" ++ i = u' ++ ":" ++ i' -> u = u' /\ i = i'.
Proof.
  revert u'. induction u as [|c u IH]; intros [|c' u'] Hu Hu' Heq;
    rewrite ?append_cons, ?append_empty_l in Heq; simpl in Hu, Hu'.
  - inversion Heq. split; reflexivity.
  - inversion Heq; subst c'. discriminate.
  - inversion Heq; subst c. discriminate.
  - inversion Heq; subst c'.
    apply orb_false_iff in Hu as [_ Hu]. apply orb_false_iff in Hu' as [_ Hu'].
    destruct (IH u' Hu Hu' H1) as [-> ->]. split; reflexivity.
Qed.

(** X6.  Identifiers separate clients.  An anonymous client and a signed-in
    one never share an identifier; two anonymous clients share one only with
    the same address; two signed-in clients whose user ids contain no colon
    share one only with the same user id and the same address. *)
Theorem createRateLimitIdentifier_injective (c1 c2 : RateLimitContext) :
  (forall u, identified_user c1 = Some u -> occurs is_colon u = false) ->
  (forall u, identified_user c2 = Some u -> occurs is_colon u = false) ->
  createRateLimitIdentifier c1 = createRateLimitIdentifier c2 ->
  identified_user c1 = identified_user c2 /\ ip c1 = ip c2.
Proof.
  unfold createRateLimitIdentifier, identified_user.
  destruct (userId c1) as [u1|], (userId c2) as [u2|];
    try destruct (truthy_string u1); try destruct (truthy_string u2);
    intros H1 H2 Heq; rewrite ?append_cons, ?append_empty_l in Heq;
    try (inversion Heq; fail);
    try (inversion Heq as [Hip]; rewrite Hip; split; reflexivity).
  inversion Heq as [Heq'].
  destruct (colon_split_injective u1 u2 (ip c1) (ip c2)
              (H1 u1 eq_refl) (H2 u2 eq_refl) Heq') as [-> ->].
  split; reflexivity.
Qed.

(** ** The engine on its fast path *)

Section FastPath.

Context {LimiterState : Type}.
Variable slidingWindow_limit :
  Ratelimit -> string -> Z -> LimiterState -> LimiterState * RatelimitResponse.

(** No block of the identifier is in force at the instant of [env]. *)
Definition no_active_block (env : Env) (context : RateLimitContext)
    (w : @World LimiterState) : Prop :=
  forall until, ~ active_block env context until w.

(** The limiter that [getRateLimiter] hands out, if it hands one out: the
    cached one for the configuration's identifier, else a new one for the
    first rule, when there is a first rule and the package accepts its
    window. *)
Definition limiter_for (env : Env) (config : RateLimitConfig) (w : @World LimiterState)
    : option Ratelimit :=
  match rateLimiters w !! identifier config with
  | Some limiter => Some limiter
  | None =>
      match rules config !! 0%nat with
      | Some primaryRule =>
          if slidingWindowFails env (requests primaryRule) (window primaryRule) then None
          else Some {| tokens := requests primaryRule; interval := window primaryRule;
                       prefix := "ratelimit:" ++ property_key (identifier config) |}
      | None => None
      end
  end.

(** The world after [getRateLimiter] has handed out [limiter] and the limiter
    has moved its storage to [s]. *)
Definition after_limit (config : RateLimitConfig) (limiter : Ratelimit)
    (s : LimiterState) (w : @World LimiterState) : @World LimiterState :=
  set_limiterState s
    (match rateLimiters w !! identifier config with
     | Some _ => w
     | None => set_rateLimiters (<[identifier config := limiter]> (rateLimiters w)) w
     end).

Lemma checkBlockStatus_expired env context config (w : @World LimiterState) store :
  redis w = Some store -> redisGetFails env = false ->
  no_active_block env context w ->
  checkBlockStatus env context config w = (w, inr NotBlocked).
Proof.
  intros Hr Hget Hno. unfold checkBlockStatus.
  destruct (negb (truthy_opt_number (blockDurationMs config))); [reflexivity|].
  unfold try_catch, bind, get_redis, redis_get. rewrite Hr, Hget.
  cbv beta iota zeta. rewrite ?Hr.
  destruct (store !! ("block:" ++ createRateLimitIdentifier context))
    as [[v ttlEnd]|] eqn:Hk; [|reflexivity].
  destruct (now env <? ttlEnd) eqn:Httl; [|reflexivity].
  destruct v as [until|s]; [|reflexivity].
  destruct (negb (until =? 0) && (now env <? until)) eqn:Hact; [|reflexivity].
  exfalso. apply (Hno until). exists store, ttlEnd.
  apply andb_true_iff in Hact as [_ Hu].
  repeat split; [exact Hr | exact Hk | apply Z.ltb_lt, Httl | apply Z.ltb_lt, Hu].
Qed.

(** X7.  Blocks expire passively.  With the ledger answering, the block check
    reports "blocked until [until]" exactly when the ledger holds a live key
    for the identifier whose value [until] is still ahead, and "not blocked"
    otherwise; it never changes the world.  An entry whose [until] has passed
    is as good as absent, whether or not its key is still alive. *)
Theorem block_status_reflects_ledger (env : Env) (context : RateLimitContext)
    (config : RateLimitConfig) (w : @World LimiterState) (store : RedisStore) :
  redis w = Some store -> redisGetFails env = false -> 0 <= now env ->
  truthy_opt_number (blockDurationMs config) = true ->
  (forall until, active_block env context until w ->
     checkBlockStatus env context config w = (w, inr (Blocked until)))
  /\ (no_active_block env context w ->
      checkBlockStatus env context config w = (w, inr NotBlocked))
  /\ (forall ttlEnd until,
        store !! blockKey context = Some (RNumber until, ttlEnd) -> until <= now env ->
        checkBlockStatus env context config w = (w, inr NotBlocked)).
Proof.
  intros Hr Hget Hnow Hd. split; [|split].
  - intros u Hact. apply checkBlockStatus_active; assumption.
  - intros Hno. eapply checkBlockStatus_expired; eassumption.
  - intros ttlEnd u0 Hk Hpast. eapply checkBlockStatus_expired; try eassumption.
    intros u (store' & ttl' & Hr' & Hk' & _ & Hu).
    rewrite Hr in Hr'. inversion Hr'; subst store'.
    rewrite Hk in Hk'. inversion Hk'; subst. lia.
Qed.

Lemma getRateLimiter_hands_out env config (w : @World LimiterState) store limiter :
  redis w = Some store -> limiter_for env config w = Some limiter ->
  getRateLimiter env config w
  = (match rateLimiters w !! identifier config with
     | Some _ => w
     | None => set_rateLimiters (<[identifier config := limiter]> (rateLimiters w)) w
     end, inr (Some limiter)).
Proof.
  intros Hr Hl. unfold getRateLimiter, limiter_for, bind, get_redis, get_rateLimiters in *.
  rewrite Hr. cbv beta iota zeta.
  destruct (rateLimiters w !! identifier config) as [l|]; [inversion Hl; reflexivity|].
  destruct (rules config !! 0%nat) as [rule|]; [|discriminate].
  unfold Ratelimit_slidingWindow.
  destruct (slidingWindowFails env (requests rule) (window rule)); [discriminate|].
  inversion Hl. reflexivity.
Qed.

(** The request is not stopped by the block check: either the configuration
    has no block duration, or the ledger answers and holds no block in
    force. *)
Definition passes_block_check (env : Env) (context : RateLimitContext)
    (config : RateLimitConfig) (w : @World LimiterState) : Prop :=
  truthy_opt_number (blockDurationMs config) = false
  \/ (redisGetFails env = false /\ no_active_block env context w).

Lemma checkRateLimit_reaches_limiter env context configKey customConfig
    (w : @World LimiterState) store limiter :
  regular_call env -> redis w = Some store ->
  passes_block_check env context (selectConfig context configKey customConfig) w ->
  limiter_for env (selectConfig context configKey customConfig) w = Some limiter ->
  checkRateLimit_try slidingWindow_limit env context configKey customConfig w
  = bind (limiter_limit slidingWindow_limit env limiter (createRateLimitIdentifier context))
      (fun result =>
         if negb (resp_success result) then
           bind (logRateLimitViolation env context
                   (selectConfig context configKey customConfig) "exceeded" None)
             (fun _ =>
                bind (handleRateLimitBlock env context
                        (selectConfig context configKey customConfig))
                  (fun _ =>
                     ret {| success := false; limit := Finite (resp_limit result);
                            remaining := Finite (resp_remaining result);
                            reset := resp_reset result; blocked := None;
                            blockUntil := None;
                            retryAfter :=
                              Some (ceil_div_1000 (resp_reset result - now env));
                            error := None |}))
         else
           ret {| success := true; limit := Finite (resp_limit result);
                  remaining := Finite (resp_remaining result);
                  reset := resp_reset result; blocked := None; blockUntil := None;
                  retryAfter := None; error := None |})
      (match rateLimiters w !! identifier (selectConfig context configKey customConfig) with
       | Some _ => w
       | None =>
           set_rateLimiters
             (<[identifier (selectConfig context configKey customConfig) := limiter]>
                (rateLimiters w)) w
       end).
Proof.
  intros [(headersList & Hh & Hnb) Hget] Hr Hpass Hl.
  unfold checkRateLimit_try, bind at 1, headers. rewrite Hh. unfold ret at 1.
  rewrite Hnb. simpl.
  unfold enforce, bind at 1.
  assert (Hbs : checkBlockStatus env context
                  (selectConfig context configKey customConfig) w = (w, inr NotBlocked)).
  { destruct Hpass as [Hd | [_ Hno]].
    - apply checkBlockStatus_no_duration, Hd.
    - eapply checkBlockStatus_expired; eassumption. }
  rewrite Hbs. unfold counterCheck, bind at 1, get_redis. rewrite Hr.
  unfold bind at 1. rewrite (getRateLimiter_hands_out env _ w store limiter Hr Hl).
  reflexivity.
Qed.

(** X8.  An admitted request on the fast path is the limiter's answer and
    nothing more.  For a regular call that is not stopped by the block check,
    for which [getRateLimiter] hands out a limiter (the cached one, or a new
    one for a first rule whose window the package accepts) and which the
    limiter admits: the result carries the limiter's [limit], [remaining] and
    [reset], and the call leaves the block ledger, the counter table, the
    security log and the console untouched; it only moves the limiter's
    storage and, the first time, caches the limiter. *)
Theorem fast_path_admits (env : Env) (context : RateLimitContext) (configKey : string)
    (customConfig : option RateLimitConfig) (w : @World LimiterState)
    (store : RedisStore) (limiter : Ratelimit) (s : LimiterState)
    (response : RatelimitResponse) :
  regular_call env -> limiterFails env = false -> redis w = Some store ->
  passes_block_check env context (selectConfig context configKey customConfig) w ->
  limiter_for env (selectConfig context configKey customConfig) w = Some limiter ->
  slidingWindow_limit limiter (createRateLimitIdentifier context) (now env)
    (limiterState w) = (s, response) ->
  resp_success response = true ->
  checkRateLimit slidingWindow_limit env context configKey customConfig w
  = (after_limit (selectConfig context configKey customConfig) limiter s w,
     inr {| success := true; limit := Finite (resp_limit response);
            remaining := Finite (resp_remaining response);
            reset := resp_reset response; blocked := None; blockUntil := None;
            retryAfter := None; error := None |}).
Proof.
  intros Hreg Hlim Hr Hpass Hl Hsw Hok.
  unfold checkRateLimit, try_catch.
  rewrite (checkRateLimit_reaches_limiter env context configKey customConfig w store
             limiter Hreg Hr Hpass Hl).
  unfold bind, limiter_limit. rewrite Hlim.
  destruct (rateLimiters w !! identifier (selectConfig context configKey customConfig))
    eqn:Hc; simpl; rewrite Hsw, Hok; simpl; unfold after_limit; rewrite Hc; reflexivity.
Qed.

Lemma handleRateLimitBlock_writes env context config (w : @World LimiterState) store d :
  redis w = Some store -> redisSetexFails env = false ->
  blockDurationMs config = Some d -> 0 < d ->
  exists w',
    handleRateLimitBlock env context config w = (w', inr tt)
    /\ redis w' = Some (<[blockKey context :=
                            (RNumber (now env + d), now env + ceil_div_1000 d * 1000)]>
                          store)
    /\ limiterState w' = limiterState w /\ rateLimiters w' = rateLimiters w
    /\ rateLimitEntry w' = rateLimitEntry w.
Proof.
  intros Hr Hsetex Hd Hpos.
  unfold handleRateLimitBlock. rewrite Hd. simpl.
  assert (Hz : (d =? 0) = false) by (apply Z.eqb_neq; lia). rewrite Hz. simpl.
  unfold try_catch, bind at 1, get_redis. cbv beta iota zeta. rewrite Hr.
  unfold bind at 1, redis_setex. rewrite Hr, Hsetex.
  assert (Hc : (ceil_div_1000 d <=? 0) = false)
    by (apply Z.leb_gt, ceil_div_1000_pos, Hpos).
  rewrite Hc. simpl.
  unfold bind at 1, toISOString.
  destruct (valid_time (now env + d)); unfold ret, throw.
  - match goal with
    | |- context [logSecurityEvent env ?ev ?w0] =>
        destruct (logSecurityEvent_returns env ev w0) as (w' & l & Hlog & Hs & _)
    end.
    rewrite Hlog. exists w'. split; [reflexivity|].
    destruct Hs as (-> & -> & -> & ->). repeat split.
  - eexists. split; [reflexivity|]. repeat split.
Qed.

(** The refusal that the fast path returns for a limiter response. *)
Definition exceeded_result (env : Env) (response : RatelimitResponse) : RateLimitResult :=
  {| success := false; limit := Finite (resp_limit response);
     remaining := Finite (resp_remaining response);
     reset := resp_reset response; blocked := None; blockUntil := None;
     retryAfter := Some (ceil_div_1000 (resp_reset response - now env));
     error := None |}.

Lemma checkRateLimit_refused env context configKey customConfig
    (w : @World LimiterState) store limiter s response d :
  regular_call env -> limiterFails env = false -> redisSetexFails env = false ->
  redis w = Some store ->
  blockDurationMs (selectConfig context configKey customConfig) = Some d -> 0 < d ->
  no_active_block env context w ->
  limiter_for env (selectConfig context configKey customConfig) w = Some limiter ->
  slidingWindow_limit limiter (createRateLimitIdentifier context) (now env)
    (limiterState w) = (s, response) ->
  resp_success response = false ->
  exists w',
    checkRateLimit slidingWindow_limit env context configKey customConfig w
    = (w', inr (exceeded_result env response))
    /\ redis w' = Some (<[blockKey context :=
                            (RNumber (now env + d), now env + ceil_div_1000 d * 1000)]>
                          store)
    /\ limiterState w' = s
    /\ rateLimitEntry w' = rateLimitEntry w.
Proof.
  intros Hreg Hlim Hsetex Hr Hd Hpos Hno Hl Hsw Hrefused.
  unfold checkRateLimit, try_catch.
  rewrite (checkRateLimit_reaches_limiter env context configKey customConfig w store
             limiter Hreg Hr (or_intror (conj (proj2 Hreg) Hno)) Hl).
  set (w0 := match rateLimiters w !! identifier (selectConfig context configKey customConfig)
             with Some _ => w | None => _ end).
  assert (Hw0 : redis w0 = Some store /\ limiterState w0 = limiterState w
                /\ rateLimitEntry w0 = rateLimitEntry w).
  { unfold w0. destruct (rateLimiters w !! _); repeat split; assumption. }
  destruct Hw0 as (Hr0 & Hs0 & He0).
  unfold bind at 1, limiter_limit. rewrite Hlim, Hs0, Hsw, Hrefused. simpl.
  unfold bind at 1, logRateLimitViolation, bind at 1, ret at 1.
  match goal with
  | |- context [logSecurityEvent env ?ev ?w1] =>
      destruct (logSecurityEvent_returns env ev w1) as (w2 & l & Hlog & Hs2 & _)
  end.
  rewrite Hlog. destruct Hs2 as (Hr2 & Hl2 & _ & He2). simpl in Hr2, Hl2, He2.
  destruct (handleRateLimitBlock_writes env context
              (selectConfig context configKey customConfig) w2 store d
              ltac:(congruence) Hsetex Hd Hpos)
    as (w3 & Hblock & Hr3 & Hl3 & _ & He3).
  unfold bind. rewrite Hblock. exists w3. split; [reflexivity|].
  split; [exact Hr3|]. split; congruence.
Qed.

(** X9.  A refused request on the fast path starts the penalty.  For a
    regular call with no block in force and a limiter handed out by
    [getRateLimiter] (the cached one, or a new one for a first rule whose
    window the package accepts): when the limiter refuses, the configuration
    has a positive block duration [d] and the [setex] of the block works, the
    call returns [success = false] with the limiter's numbers and a
    [retryAfter] taken from the limiter's [reset], it is not yet marked
    [blocked], and it writes the block of the identifier, [now + d], under a
    key that lives at least as long; the counter table is not touched. *)
Theorem fast_path_refuses_and_blocks (env : Env) (context : RateLimitContext)
    (configKey : string) (customConfig : option RateLimitConfig)
    (w : @World LimiterState) (store : RedisStore) (limiter : Ratelimit)
    (s : LimiterState) (response : RatelimitResponse) (d : Z) :
  regular_call env -> limiterFails env = false -> redisSetexFails env = false ->
  redis w = Some store ->
  blockDurationMs (selectConfig context configKey customConfig) = Some d -> 0 < d ->
  no_active_block env context w ->
  limiter_for env (selectConfig context configKey customConfig) w = Some limiter ->
  slidingWindow_limit limiter (createRateLimitIdentifier context) (now env)
    (limiterState w) = (s, response) ->
  resp_success response = false ->
  exists w',
    checkRateLimit slidingWindow_limit env context configKey customConfig w
    = (w', inr (exceeded_result env response))
    /\ blocked (exceeded_result env response) = None
    /\ (forall env', now env <= now env' < now env + d ->
          active_block env' context (now env + d) w')
    /\ rateLimitEntry w' = rateLimitEntry w.
Proof.
  intros Hreg Hlim Hsetex Hr Hd Hpos Hno Hl Hsw Hrefused.
  destruct (checkRateLimit_refused env context configKey customConfig w store limiter s
              response d Hreg Hlim Hsetex Hr Hd Hpos Hno Hl Hsw Hrefused)
    as (w' & Hrun & Hr' & _ & He').
  exists w'. split; [exact Hrun|]. split; [reflexivity|]. split; [|exact He'].
  intros env' Hnow. eexists _, _. split; [exact Hr'|].
  split; [apply lookup_insert_eq|].
  pose proof (ceil_div_1000_bound d). lia.
Qed.

(** X10.  The scenario of the penalty box, end to end.  After a request that
    the limiter refused at instant [t0] under a block duration [d] (a call as
    in X9), every later call of the same client in the [d] milliseconds that
    follow that is itself regular (it reads its headers, carries no bypass
    token and its ledger lookup answers) is refused with [blocked = true] and
    [blockUntil = t0 + d], whatever the limiter would say: the limiter is not
    asked again and its storage stays as the refused request left it. *)
Theorem violation_then_blocked (env0 : Env) (envs : list Env)
    (context : RateLimitContext) (configKey : string)
    (customConfig : option RateLimitConfig) (w : @World LimiterState)
    (store : RedisStore) (limiter : Ratelimit) (s : LimiterState)
    (response : RatelimitResponse) (d : Z) (rule0 : RateLimitRule)
    (more : list RateLimitRule) :
  regular_call env0 -> limiterFails env0 = false -> redisSetexFails env0 = false ->
  redis w = Some store -> 0 <= now env0 -> now env0 + d <= 8640000000000000 ->
  blockDurationMs (selectConfig context configKey customConfig) = Some d -> 0 < d ->
  rules (selectConfig context configKey customConfig) = rule0 :: more ->
  no_active_block env0 context w ->
  limiter_for env0 (selectConfig context configKey customConfig) w = Some limiter ->
  slidingWindow_limit limiter (createRateLimitIdentifier context) (now env0)
    (limiterState w) = (s, response) ->
  resp_success response = false ->
  Forall (fun env => regular_call env /\ now env0 <= now env < now env0 + d) envs ->
  exists outs w',
    snd (run_checks slidingWindow_limit (env0 :: envs) context configKey customConfig w)
    = inr (exceeded_result env0 response) :: outs
    /\ Forall2 (fun env out => out = inr (blocked_result env rule0 (now env0 + d)))
               envs outs
    /\ fst (run_checks slidingWindow_limit (env0 :: envs) context configKey customConfig w)
       = w'
    /\ limiterState w' = s.
Proof.
  intros Hreg Hlim Hsetex Hr Hnow0 Hvalid Hd Hpos Hrules Hno Hl Hsw Hrefused Hall.
  destruct (checkRateLimit_refused env0 context configKey customConfig w store limiter s
              response d Hreg Hlim Hsetex Hr Hd Hpos Hno Hl Hsw Hrefused)
    as (w1 & Hrun & Hr1 & Hs1 & _).
  simpl. rewrite Hrun. clear Hrun Hsw Hl Hno Hr.
  assert (Htr : truthy_opt_number
                  (blockDurationMs (selectConfig context configKey customConfig)) = true).
  { rewrite Hd. simpl. apply negb_true_iff, Z.eqb_neq. lia. }
  revert w1 Hr1 Hs1. induction envs as [|env rest IH]; intros w1 Hr1 Hs1; simpl.
  - exists [], w1. repeat split; [constructor | exact Hs1].
  - apply Forall_cons in Hall as [(Hreg1 & Hwin) Hall].
    assert (Hact : active_block env context (now env0 + d) w1).
    { eexists _, _. split; [exact Hr1|]. split; [apply lookup_insert_eq|].
      pose proof (ceil_div_1000_bound d). lia. }
    destruct (checkRateLimit_blocked slidingWindow_limit env context configKey
                customConfig (now env0 + d) rule0 more w1 Htr Hrules Hreg1
                ltac:(lia) Hvalid Hact) as (w2 & Hstep & Hsame).
    rewrite Hstep.
    destruct Hsame as (Hr2 & Hs2 & _).
    destruct (IH Hall w2 ltac:(congruence) ltac:(congruence))
      as (outs & w' & Hout & Hf2 & Hw' & Hs').
    destruct (run_checks slidingWindow_limit rest context configKey customConfig w2)
      as [w3 outs3]. simpl in *.
    inversion Hout; subst outs.
    exists (inr (blocked_result env rule0 (now env0 + d)) :: outs3), w'.
    repeat split; [constructor; [reflexivity | exact Hf2] | exact Hw' | exact Hs'].
Qed.

Lemma bind_ret_l {A B} (a : A) (k : A -> @M LimiterState B) w :
  bind (ret a) k w = k a w.
Proof. reflexivity. Qed.

Lemma bind_ext {A B} (m : @M LimiterState A) (k1 k2 : A -> @M LimiterState B) w :
  (forall a w', k1 a w' = k2 a w') -> bind m k1 w = bind m k2 w.
Proof.
  intros H. unfold bind. destruct (m w) as [w' [e|a]]; [reflexivity | apply H].
Qed.

Lemma counterCheck_reaches_limiter env context config
    (w : @World LimiterState) store limiter :
  redis w = Some store -> limiter_for env config w = Some limiter ->
  counterCheck slidingWindow_limit env context config w
  = bind (limiter_limit slidingWindow_limit env limiter (createRateLimitIdentifier context))
      (fun result =>
         if negb (resp_success result) then
           bind (logRateLimitViolation env context config "exceeded" None)
             (fun _ =>
                bind (handleRateLimitBlock env context config)
                  (fun _ =>
                     ret {| success := false; limit := Finite (resp_limit result);
                            remaining := Finite (resp_remaining result);
                            reset := resp_reset result; blocked := None;
                            blockUntil := None;
                            retryAfter :=
                              Some (ceil_div_1000 (resp_reset result - now env));
                            error := None |}))
         else
           ret {| success := true; limit := Finite (resp_limit result);
                  remaining := Finite (resp_remaining result);
                  reset := resp_reset result; blocked := None; blockUntil := None;
                  retryAfter := None; error := None |})
      (match rateLimiters w !! identifier config with
       | Some _ => w
       | None => set_rateLimiters (<[identifier config := limiter]> (rateLimiters w)) w
       end).
Proof.
  intros Hr Hl. unfold counterCheck, bind at 1, get_redis. rewrite Hr.
  unfold bind at 1. rewrite (getRateLimiter_hands_out env _ w store limiter Hr Hl).
  reflexivity.
Qed.

(** X11.  The limiter of an identifier is built once.  When the cache holds a
    limiter for the configuration's identifier, a call that reaches the
    counter check uses that limiter and never reads the rules: two
    configurations with the same identifier and block duration, whatever
    their rules, give the same result and the same world.  A stricter custom
    rule under an identifier already in use changes nothing. *)
Theorem cached_limiter_ignores_rules (env : Env) (context : RateLimitContext)
    (configKey : string) (c c' : RateLimitConfig) (w : @World LimiterState)
    (store : RedisStore) (limiter : Ratelimit) :
  redis w = Some store ->
  rateLimiters w !! identifier c = Some limiter ->
  identifier c = identifier c' -> blockDuration c = blockDuration c' ->
  blockDurationMs c = blockDurationMs c' ->
  no_active_block env context w ->
  checkRateLimit slidingWindow_limit env context configKey (Some c) w
  = checkRateLimit slidingWindow_limit env context configKey (Some c') w.
Proof.
  intros Hr Hcache Hid Hb Hbm Hno.
  assert (Hbs : checkBlockStatus env context c w = checkBlockStatus env context c' w).
  { unfold checkBlockStatus. rewrite Hbm. reflexivity. }
  assert (Hnb : forall w1 u, checkBlockStatus env context c' w <> (w1, inr (Blocked u))).
  { intros w1 u Hblocked. unfold checkBlockStatus in Hblocked.
    destruct (negb (truthy_opt_number (blockDurationMs c'))); [discriminate|].
    unfold try_catch, bind, get_redis, redis_get in Hblocked. rewrite Hr in Hblocked.
    cbv beta iota zeta in Hblocked. rewrite ?Hr in Hblocked.
    destruct (redisGetFails env); [discriminate|].
    destruct (store !! ("block:" ++ createRateLimitIdentifier context))
      as [[v ttlEnd]|] eqn:Hk; [|discriminate].
    destruct (now env <? ttlEnd) eqn:Httl; [|discriminate].
    destruct v as [until|s0]; [|discriminate].
    destruct (negb (until =? 0) && (now env <? until)) eqn:Hact; [|discriminate].
    inversion Hblocked; subst. apply (Hno u). exists store, ttlEnd.
    apply andb_true_iff in Hact as [_ Hu].
    repeat split; [exact Hr | exact Hk | apply Z.ltb_lt, Httl | apply Z.ltb_lt, Hu]. }
  assert (Hcc : forall w1, redis w1 = redis w -> rateLimiters w1 = rateLimiters w ->
                  counterCheck slidingWindow_limit env context c w1
                  = counterCheck slidingWindow_limit env context c' w1).
  { intros w1 Hr1 Hc1.
    assert (Hl : limiter_for env c w1 = Some limiter)
      by (unfold limiter_for; rewrite Hc1, Hcache; reflexivity).
    assert (Hl' : limiter_for env c' w1 = Some limiter)
      by (unfold limiter_for; rewrite Hc1, <- Hid, Hcache; reflexivity).
    rewrite (counterCheck_reaches_limiter env context c w1 store limiter
               ltac:(congruence) Hl).
    rewrite (counterCheck_reaches_limiter env context c' w1 store limiter
               ltac:(congruence) Hl').
    rewrite <- Hid, Hc1, Hcache.
    apply bind_ext. intros result w2.
    destruct (negb (resp_success result)); [|reflexivity].
    unfold logRateLimitViolation, handleRateLimitBlock. rewrite Hid, Hb, Hbm.
    reflexivity. }
  assert (Henf : enforce slidingWindow_limit env context c w
                 = enforce slidingWindow_limit env context c' w).
  { unfold enforce, bind. rewrite Hbs.
    destruct (checkBlockStatus env context c' w) as [w1 [e|[|u]]] eqn:Hst.
    - reflexivity.
    - assert (Hk := keeps_run _ _ _ _ (keeps_checkBlockStatus env context c') Hst).
      assert (Hc1 : rateLimiters w1 = rateLimiters w).
      { unfold checkBlockStatus in Hst.
        destruct (negb (truthy_opt_number (blockDurationMs c')));
          [inversion Hst; reflexivity|].
        unfold try_catch, bind, get_redis, redis_get in Hst. rewrite Hr in Hst.
        cbv beta iota zeta in Hst. rewrite ?Hr in Hst.
        destruct (redisGetFails env); [inversion Hst; reflexivity|].
        destruct (store !! ("block:" ++ createRateLimitIdentifier context))
          as [[v ttlEnd]|]; [|inversion Hst; reflexivity].
        destruct (now env <? ttlEnd); [|inversion Hst; reflexivity].
        destruct v as [until|s0]; [|inversion Hst; reflexivity].
        destruct (negb (until =? 0) && (now env <? until)); inversion Hst; reflexivity. }
      fold (counterCheck slidingWindow_limit env context c w1).
      fold (counterCheck slidingWindow_limit env context c' w1).
      apply (Hcc w1 Hk Hc1).
    - exfalso. exact (Hnb w1 u eq_refl). }
  unfold checkRateLimit, try_catch.
  assert (Htry : checkRateLimit_try slidingWindow_limit env context configKey (Some c) w
                 = checkRateLimit_try slidingWindow_limit env context configKey (Some c') w).
  { unfold checkRateLimit_try, headers.
    destruct (requestHeaders env) as [headersList|]; [|reflexivity].
    rewrite !bind_ret_l.
    destruct (strict_eq (headersList EMERGENCY_BYPASS_HEADER) (EMERGENCY_BYPASS_TOKEN env));
      [reflexivity|].
    simpl. exact Henf. }
  rewrite Htry. reflexivity.
Qed.

(** The fail-open result of the outer [catch]. *)
Definition fail_open_result (env : Env) : RateLimitResult :=
  {| success := true; limit := Finite 1000; remaining := Finite 999;
     reset := now env + 60000; blocked := None; blockUntil := None;
     retryAfter := None; error := Some "Rate limiting temporarily unavailable" |}.

(** X24.  A key that names an inherited property disables the limit.  For
    each of the twelve names that every object inherits ("constructor",
    "toString", "__proto__", ...), a call without a caller-supplied
    configuration that reads its headers and carries no bypass token selects
    the inherited value, finds no rule in it and fails open: whatever the
    ledger, the limiter and the counters hold, the result is [success = true]
    with [limit = 1000] and [remaining = 999], the [TypeError] goes to the
    console, and the ledger, the limiter's storage, the limiter cache and the
    counter table are left as they were.  No request under such a key is ever
    counted or refused. *)
Theorem inherited_key_fails_open (env : Env) (context : RateLimitContext)
    (configKey : string) (headersList : string -> option string)
    (w : @World LimiterState) :
  In configKey Object_prototype_names ->
  requestHeaders env = Some headersList ->
  strict_eq (headersList EMERGENCY_BYPASS_HEADER) (EMERGENCY_BYPASS_TOKEN env) = false ->
  rateLimiters w !! None = None ->
  exists w' l,
    checkRateLimit slidingWindow_limit env context configKey None w
    = (w', inr (fail_open_result env))
    /\ same_stores w w'
    /\ console_added w w' (("Rate limiting error:", Some TypeError) :: l).
Proof.
  intros Hin Hh Hnb Hcache.
  assert (Hsel : selectConfig context configKey None = inherited_value).
  { unfold Object_prototype_names, Object_prototype_functions in Hin.
    repeat (destruct Hin as [<- | Hin]; [reflexivity|]). destruct Hin. }
  assert (Htry : checkRateLimit_try slidingWindow_limit env context configKey None w
                 = (w, inl TypeError)).
  { unfold checkRateLimit_try, bind at 1, headers. rewrite Hsel, Hh. unfold ret at 1.
    rewrite Hnb. change (isWhitelisted (ip context)) with false. cbv iota.
    unfold enforce, bind at 1.
    rewrite (checkBlockStatus_no_duration env context inherited_value w eq_refl).
    unfold counterCheck, bind at 1, get_redis.
    destruct (redis w) as [store|] eqn:Hr; [|reflexivity].
    unfold bind at 1, getRateLimiter, bind at 1, get_redis. rewrite Hr.
    unfold bind at 1, get_rateLimiters. simpl. rewrite Hcache. reflexivity. }
  unfold checkRateLimit, try_catch. rewrite Htry.
  destruct (checkRateLimit_catch_returns env context TypeError w) as (w' & l & Hc & Hs & Hl).
  exists w', l. split; [exact Hc|]. split; assumption.
Qed.

(** X25.  A window that the package cannot parse disables the limit.  When
    the Redis client is present, no limiter is cached for the configuration's
    identifier and [Ratelimit.slidingWindow] throws on the first rule's
    window, a call that reads its headers, carries no bypass token and is not
    stopped by the block check fails open: the result is [success = true]
    with [limit = 1000] and [remaining = 999], and nothing is cached or
    counted, so the next call meets the same exception. *)
Theorem unparsable_window_fails_open (env : Env) (context : RateLimitContext)
    (configKey : string) (customConfig : option RateLimitConfig)
    (w : @World LimiterState) (store : RedisStore) (rule0 : RateLimitRule)
    (more : list RateLimitRule) :
  regular_call env -> redis w = Some store ->
  passes_block_check env context (selectConfig context configKey customConfig) w ->
  rateLimiters w !! identifier (selectConfig context configKey customConfig) = None ->
  rules (selectConfig context configKey customConfig) = rule0 :: more ->
  slidingWindowFails env (requests rule0) (window rule0) = true ->
  exists w' l,
    checkRateLimit slidingWindow_limit env context configKey customConfig w
    = (w', inr (fail_open_result env))
    /\ same_stores w w'
    /\ console_added w w' (("Rate limiting error:", Some (ExternalError "ratelimit")) :: l).
Proof.
  intros [(headersList & Hh & Hnb) Hget] Hr Hpass Hcache Hrules Hfails.
  assert (Hbs : checkBlockStatus env context
                  (selectConfig context configKey customConfig) w = (w, inr NotBlocked)).
  { destruct Hpass as [Hd | [_ Hno]].
    - apply checkBlockStatus_no_duration, Hd.
    - eapply checkBlockStatus_expired; eassumption. }
  assert (Htry : checkRateLimit_try slidingWindow_limit env context configKey customConfig w
                 = (w, inl (ExternalError "ratelimit"))).
  { unfold checkRateLimit_try, bind at 1, headers. rewrite Hh. unfold ret at 1.
    rewrite Hnb. simpl.
    unfold enforce, bind at 1. rewrite Hbs.
    unfold counterCheck, bind at 1, get_redis. rewrite Hr.
    unfold bind at 1, getRateLimiter, bind at 1, get_redis. rewrite Hr.
    unfold bind at 1, get_rateLimiters. cbv beta iota zeta.
    rewrite Hcache, Hrules. simpl.
    unfold bind, Ratelimit_slidingWindow. rewrite Hfails. reflexivity. }
  unfold checkRateLimit, try_catch. rewrite Htry.
  destruct (checkRateLimit_catch_returns env context (ExternalError "ratelimit") w)
    as (w' & l & Hc & Hs & Hl).
  exists w', l. split; [exact Hc|]. split; assumption.
Qed.

End FastPath.

(** ** The database fallback beyond one window *)

Section DatabaseFallback.

Context {LimiterState : Type}.

Variable context : RateLimitContext.
Variable config : RateLimitConfig.
Variable rule : RateLimitRule.
Variable more : list RateLimitRule.
Hypothesis Hrules : rules config = rule :: more.

Lemma find_Some_matches {A} (p : A -> bool) (l : list A) (x : A) :
  List.find p l = Some x -> In x l /\ p x = true.
Proof. apply List.find_some. Qed.

(** X12.  A refusal on the database fallback is always earned, and the call
    never throws: whatever the database does, [checkRateLimitDatabase]
    returns a result, and when that result is a refusal, the read succeeded
    and found a live row of the client that had reached the quota; the
    result's [reset] is that row's expiry and nothing was written to the
    table. *)
Theorem database_refusal_is_earned (env : Env) (w : @World LimiterState) :
  exists w' r,
    checkRateLimitDatabase env context config w = (w', inr r)
    /\ (success r = false ->
        findFirstFails env = false
        /\ rateLimitEntry w' = rateLimitEntry w
        /\ exists e, In e (rateLimitEntry w)
             /\ entry_matches env context e = true
             /\ requests rule <= attempts e
             /\ reset r = expiresAt e /\ remaining r = Finite 0).
Proof.
  unfold checkRateLimitDatabase. rewrite Hrules. simpl.
  unfold try_catch, bind at 1, prisma_rateLimitEntry_findFirst.
  destruct (findFirstFails env) eqn:Hf.
  { eexists _, _. split; [reflexivity|]. simpl. discriminate. }
  destruct (List.find (entry_matches env context) (rateLimitEntry w)) as [e|] eqn:Hfind.
  - unfold checkRateLimitDatabase_write.
    destruct (requests rule <=? attempts e) eqn:Hcmp.
    + unfold logRateLimitViolation, bind, ret.
      match goal with
      | |- context [logSecurityEvent env ?d w] =>
          destruct (logSecurityEvent_returns env d w) as (w' & l & Hlog & Hs & _)
      end.
      rewrite Hlog. eexists _, _. split; [reflexivity|]. simpl. intros _.
      split; [reflexivity|]. split; [apply Hs|].
      destruct (find_Some_matches _ _ _ Hfind) as [Hin Hm].
      exists e. repeat split; try assumption. apply Z.leb_le, Hcmp.
    + unfold bind, prisma_rateLimitEntry_upsert.
      destruct (upsertFails env); eexists _, _; (split; [reflexivity|]); simpl; discriminate.
  - unfold checkRateLimitDatabase_write, bind, prisma_rateLimitEntry_upsert.
    destruct (upsertFails env); eexists _, _; (split; [reflexivity|]); simpl; discriminate.
Qed.

(** X13.  A database error admits the request without counting it.  When the
    read throws, or the write throws for a request below the quota, the
    result is [success = true] with [remaining = requests - 1] and the text
    "Database rate limiting error", and the counter table is exactly as it
    was: during an outage of the database every request passes, however many
    were counted before. *)
Theorem database_error_admits_uncounted (env : Env) (w : @World LimiterState) :
  findFirstFails env = true
  \/ (upsertFails env = true
      /\ forall e, List.find (entry_matches env context) (rateLimitEntry w) = Some e ->
                   attempts e < requests rule) ->
  exists w',
    checkRateLimitDatabase env context config w = (w', inr (database_fail_open env rule))
    /\ rateLimitEntry w' = rateLimitEntry w
    /\ securityLog w' = securityLog w.
Proof.
  intros Hfail.
  unfold checkRateLimitDatabase. rewrite Hrules. simpl.
  unfold try_catch, bind at 1, prisma_rateLimitEntry_findFirst.
  destruct (findFirstFails env) eqn:Hf.
  { eexists. split; [reflexivity|]. split; reflexivity. }
  destruct Hfail as [Habs | [Hu Hbelow]]; [discriminate|].
  unfold checkRateLimitDatabase_write.
  destruct (List.find (entry_matches env context) (rateLimitEntry w)) as [e|] eqn:Hfind.
  - assert (Hcmp : (requests rule <=? attempts e) = false)
      by (apply Z.leb_gt, Hbelow; reflexivity).
    rewrite Hcmp. unfold bind, prisma_rateLimitEntry_upsert. rewrite Hu.
    eexists. split; [reflexivity|]. split; reflexivity.
  - unfold bind, prisma_rateLimitEntry_upsert. rewrite Hu.
    eexists. split; [reflexivity|]. split; reflexivity.
Qed.

(** X14.  A new window starts on a new row.  For an anonymous client, when
    the read and the upsert answer and every row of the client's address and
    endpoint has expired, the next request is admitted with the full quota
    again ([remaining = requests - 1]), however many attempts the old rows
    hold; the old rows are left in the table as they are and a fresh row with
    one attempt, expiring one window ahead, is appended under an id that no
    row has. *)
Theorem expired_window_restarts (env : Env) (w : @World LimiterState) :
  userId context = None ->
  findFirstFails env = false -> upsertFails env = false ->
  (forall e, In e (rateLimitEntry w) ->
     entry_ip e = ip context -> entry_endpoint e = endpoint context ->
     expiresAt e <= now env) ->
  exists w' fresh,
    checkRateLimitDatabase env context config w
    = (w', inr {| success := true; limit := Finite (requests rule);
                  remaining := Finite (Z.max 0 (requests rule - 1));
                  reset := now env + windowMs rule; blocked := None;
                  blockUntil := None; retryAfter := None; error := None |})
    /\ rateLimitEntry w' = (rateLimitEntry w ++ [fresh])%list
    /\ attempts fresh = 1 /\ expiresAt fresh = now env + windowMs rule
    /\ ~ In (entry_id fresh) (List.map entry_id (rateLimitEntry w)).
Proof.
  intros Hanon Hf Hu Hexpired.
  assert (Hfind : List.find (entry_matches env context) (rateLimitEntry w) = None).
  { apply find_none_isolated. intros e Hin Hep Hlive. split.
    - intros Hip. specialize (Hexpired e Hin Hip Hep). lia.
    - intros u Hsome. rewrite Hanon in Hsome. discriminate. }
  unfold checkRateLimitDatabase. rewrite Hrules. simpl.
  unfold try_catch, bind, prisma_rateLimitEntry_findFirst. rewrite Hf, Hfind. simpl.
  unfold bind, prisma_rateLimitEntry_upsert. rewrite Hu. simpl.
  eexists _, _. split; [reflexivity|]. simpl. repeat split.
  intros Hin. apply in_map_iff in Hin as (x & Hx & Hxin). simpl in Hx.
  pose proof (fresh_id_above (rateLimitEntry w) x Hxin). lia.
Qed.

(** The table is well formed for a quota [n]: row ids are distinct and no row
    counts more than [n] attempts. *)
Definition within_quota (n : Z) (t : list RateLimitEntry) : Prop :=
  List.NoDup (List.map entry_id t) /\ List.Forall (fun e => attempts e <= n) t.

Lemma update_by_id_ids date i t t' :
  update_by_id date i t = Some t' -> List.map entry_id t' = List.map entry_id t.
Proof.
  revert t'. induction t as [|x t IH]; intros t' H; simpl in H; [discriminate|].
  destruct (Nat.eqb (entry_id x) i).
  - inversion H. reflexivity.
  - destruct (update_by_id date i t) as [t''|]; [|discriminate].
    inversion H. simpl. rewrite (IH t'' eq_refl). reflexivity.
Qed.

Lemma update_by_id_bound date i n t t' :
  update_by_id date i t = Some t' ->
  (forall x, In x t -> entry_id x = i -> attempts x < n) ->
  List.Forall (fun e => attempts e <= n) t ->
  List.Forall (fun e => attempts e <= n) t'.
Proof.
  revert t'. induction t as [|x t IH]; intros t' H Hi Hall; simpl in H; [discriminate|].
  inversion Hall as [|? ? Hx Ht]; subst.
  destruct (Nat.eqb (entry_id x) i) eqn:He.
  - inversion H; subst. constructor; [|exact Ht]. simpl.
    apply Nat.eqb_eq in He. specialize (Hi x (or_introl eq_refl) He). lia.
  - destruct (update_by_id date i t) as [t''|]; [|discriminate].
    inversion H; subst. constructor; [exact Hx|].
    apply (IH t'' eq_refl); [|exact Ht]. intros y Hy. apply Hi. right. exact Hy.
Qed.

Lemma NoDup_snoc {A} (l : list A) (x : A) :
  List.NoDup l -> ~ In x l -> List.NoDup (l ++ [x]).
Proof.
  induction l as [|y l IH]; intros Hnd Hx; simpl.
  - constructor; [intros [] | constructor].
  - inversion Hnd as [|? ? Hy Hl]; subst. constructor.
    + intros Hin. apply in_app_or in Hin as [Hin | [<- | []]]; [exact (Hy Hin)|].
      apply Hx. left. reflexivity.
    + apply IH; [exact Hl|]. intros Hin. apply Hx. right. exact Hin.
Qed.

Lemma same_id_same_row (t : list RateLimitEntry) (x e : RateLimitEntry) :
  List.NoDup (List.map entry_id t) -> In x t -> In e t -> entry_id x = entry_id e ->
  x = e.
Proof.
  induction t as [|y t IH]; intros Hnd Hx He Hid; [contradiction|].
  simpl in Hnd. inversion Hnd as [|? ? Hnotin Hnd']; subst.
  destruct Hx as [-> | Hx], He as [-> | He]; [reflexivity | | |].
  - exfalso. apply Hnotin. rewrite Hid. apply in_map, He.
  - exfalso. apply Hnotin. rewrite <- Hid. apply in_map, Hx.
  - apply IH; assumption.
Qed.

(** X15.  No counter passes the quota.  Starting from a table with distinct
    row ids in which no row counts more than the quota, every call of
    [checkRateLimitDatabase] for that rule, whatever the context, the clock
    and the failures of the database, leaves such a table: a row is
    incremented only while it is below the quota, and a new row starts at
    one with an id no other row has. *)
Theorem database_counter_within_quota (env : Env) (w : @World LimiterState) :
  1 <= requests rule ->
  within_quota (requests rule) (rateLimitEntry w) ->
  within_quota (requests rule)
    (rateLimitEntry (fst (checkRateLimitDatabase env context config w))).
Proof.
  intros HN [Hnd Hall].
  assert (Hsnoc : forall row, entry_id row = fresh_id (rateLimitEntry w) ->
            attempts row = 1 ->
            within_quota (requests rule) (rateLimitEntry w ++ [row])%list).
  { intros row Hid Hone. split.
    - rewrite map_app. simpl. apply NoDup_snoc; [exact Hnd|].
      intros Hi. apply in_map_iff in Hi as (x & Hx & Hxin).
      pose proof (fresh_id_above (rateLimitEntry w) x Hxin). lia.
    - apply List.Forall_app. split; [exact Hall|]. constructor; [lia | constructor]. }
  unfold checkRateLimitDatabase. rewrite Hrules. simpl.
  unfold try_catch, bind at 1, prisma_rateLimitEntry_findFirst.
  destruct (findFirstFails env); [split; assumption|].
  destruct (List.find (entry_matches env context) (rateLimitEntry w)) as [e|] eqn:Hfind.
  - destruct (find_Some_matches _ _ _ Hfind) as [Hin _].
    unfold checkRateLimitDatabase_write.
    destruct (requests rule <=? attempts e) eqn:Hcmp.
    + unfold logRateLimitViolation, bind, ret.
      match goal with
      | |- context [logSecurityEvent env ?d w] =>
          destruct (logSecurityEvent_returns env d w) as (w' & l & Hlog & Hs & _)
      end.
      rewrite Hlog. simpl. destruct Hs as (_ & _ & _ & ->). split; assumption.
    + apply Z.leb_gt in Hcmp.
      unfold bind, prisma_rateLimitEntry_upsert.
      destruct (upsertFails env); [split; assumption|]. simpl.
      destruct (update_by_id (now env) (entry_id e) (rateLimitEntry w)) as [t'|] eqn:Hup;
        simpl.
      * split.
        -- rewrite (update_by_id_ids _ _ _ _ Hup). exact Hnd.
        -- apply (update_by_id_bound _ _ _ _ _ Hup); [|exact Hall].
           intros x Hx Hid.
           rewrite (same_id_same_row (rateLimitEntry w) x e Hnd Hx Hin Hid). exact Hcmp.
      * apply Hsnoc; reflexivity.
  - unfold checkRateLimitDatabase_write, bind, prisma_rateLimitEntry_upsert.
    destruct (upsertFails env); [split; assumption|]. simpl.
    apply Hsnoc; reflexivity.
Qed.

End DatabaseFallback.

(** ** Responses: [createRateLimitResponse] *)

(** The value of a response header: [n.toString()] of a number,
    [new Date(t).toISOString()] of an instant, or a text. *)
Inductive HeaderValue :=
| HNumber (n : JSNumber)
| HDate (t : Z)
| HText (s : string).

(** The two messages of the 429 body.  The number is the one printed in the
    text; [None] is the [NaN] or [undefined] printed when the result has no
    [retryAfter]. *)
Inductive ResponseMessage :=
| BlockedMessage (minutes : option Z)
| TooManyMessage (seconds : option Z).

Record ResponseBody := {
  body_error : string;
  body_message : ResponseMessage;
  body_retryAfter : option Z
}.

(** A [NextResponse]: [NextResponse.next()] has [passes = true] and no body;
    [NextResponse.json(body, { status })] has [passes = false]. *)
Record NextResponse := {
  status : Z;
  passes : bool;
  body : option ResponseBody;
  response_headers : list (string * HeaderValue)
}.

Definition NextResponse_next : NextResponse :=
  {| status := 200; passes := true; body := None; response_headers := [] |}.

Definition NextResponse_json (b : ResponseBody) (st : Z) : NextResponse :=
  {| status := st; passes := false; body := Some b;
     response_headers := [("content-type", HText "application/json")] |}.

(** [response.headers.set(name, value)] *)
Fixpoint set_assoc (name : string) (v : HeaderValue) (l : list (string * HeaderValue))
    : list (string * HeaderValue) :=
  match l with
  | [] => [(name, v)]
  | (n, x) :: l' => if String.eqb n name then (n, v) :: l' else (n, x) :: set_assoc name v l'
  end.

Definition headers_set (name : string) (v : HeaderValue) (r : NextResponse) : NextResponse :=
  {| status := status r; passes := passes r; body := body r;
     response_headers := set_assoc name v (response_headers r) |}.

(** [response.headers.get(name)] *)
Fixpoint get_assoc (name : string) (l : list (string * HeaderValue)) : option HeaderValue :=
  match l with
  | [] => None
  | (n, x) :: l' => if String.eqb n name then Some x else get_assoc name l'
  end.

Definition headers_get (name : string) (r : NextResponse) : option HeaderValue :=
  get_assoc name (response_headers r).

(** [Math.ceil(x / 60)] for an integer [x]. *)
Definition ceil_div_60 (x : Z) : Z := - ((- x) / 60).

Definition truthy_opt_bool (b : option bool) : bool :=
  match b with Some b => b | None => false end.

(** An instant as the ISO text of a header, or the [RangeError] of
    [toISOString]. *)
Definition iso_header (t : Z) : Exn + HeaderValue :=
  if valid_time t then inr (HDate t) else inl RangeError.

Definition createRateLimitResponse (result : RateLimitResult) : Exn + NextResponse :=
  let response :=
    NextResponse_json
      {| body_error := "Rate limit exceeded";
         body_message :=
           if truthy_opt_bool (blocked result)
           then BlockedMessage (ceil_div_60 <$> retryAfter result)
           else TooManyMessage (retryAfter result);
         body_retryAfter := retryAfter result |}
      429 in
  let response := headers_set "X-RateLimit-Limit" (HNumber (limit result)) response in
  let response := headers_set "X-RateLimit-Remaining" (HNumber (remaining result)) response in
  match iso_header (reset result) with
  | inl e => inl e
  | inr resetText =>
      let response := headers_set "X-RateLimit-Reset" resetText response in
      let response :=
        if truthy_opt_number (retryAfter result)
        then headers_set "Retry-After"
               (HNumber (Finite (default 0 (retryAfter result)))) response
        else response in
      if truthy_opt_bool (blocked result) then
        let response := headers_set "X-RateLimit-Blocked" (HText "true") response in
        if truthy_opt_number (blockUntil result) then
          match iso_header (default 0 (blockUntil result)) with
          | inl e => inl e
          | inr untilText => inr (headers_set "X-RateLimit-Block-Until" untilText response)
          end
        else inr response
      else inr response
  end.

Lemma get_set_assoc_eq name v l : get_assoc name (set_assoc name v l) = Some v.
Proof.
  induction l as [|[n x] l IH]; simpl; [rewrite String.eqb_refl; reflexivity|].
  destruct (String.eqb n name) eqn:He; simpl; rewrite He; [reflexivity | exact IH].
Qed.

Lemma get_set_assoc_ne name name' v l :
  name <> name' -> get_assoc name' (set_assoc name v l) = get_assoc name' l.
Proof.
  intros Hne. induction l as [|[n x] l IH]; simpl.
  - destruct (String.eqb name name') eqn:He; [|reflexivity].
    apply String.eqb_eq in He. contradiction.
  - destruct (String.eqb n name) eqn:He; simpl.
    + apply String.eqb_eq in He. subst n.
      destruct (String.eqb name name') eqn:He'; [|reflexivity].
      apply String.eqb_eq in He'. contradiction.
    + destruct (String.eqb n name'); [reflexivity | exact IH].
Qed.

Lemma headers_get_set_eq name v r : headers_get name (headers_set name v r) = Some v.
Proof. apply get_set_assoc_eq. Qed.

Lemma headers_get_set_ne name name' v r :
  name <> name' -> headers_get name' (headers_set name v r) = headers_get name' r.
Proof. apply get_set_assoc_ne. Qed.

Lemma headers_set_status name v r : status (headers_set name v r) = status r.
Proof. reflexivity. Qed.

Ltac header_lookup :=
  repeat first
    [ rewrite headers_get_set_eq
    | rewrite headers_get_set_ne by discriminate ];
  try reflexivity.

(** X16.  The 429 response tells the truth about the result.  For a result
    whose [reset] (and [blockUntil], when there is one) is a valid date,
    [createRateLimitResponse] returns a response of status 429 whose headers
    carry the result's [limit], [remaining] and [reset]; it has a
    [Retry-After] header exactly when [retryAfter] is a non-zero number, and
    the header [X-RateLimit-Blocked] exactly when the result is blocked. *)
Theorem createRateLimitResponse_headers (result : RateLimitResult) :
  valid_time (reset result) = true ->
  (forall u, blockUntil result = Some u -> valid_time u = true) ->
  exists response,
    createRateLimitResponse result = inr response
    /\ status response = 429 /\ passes response = false
    /\ headers_get "X-RateLimit-Limit" response = Some (HNumber (limit result))
    /\ headers_get "X-RateLimit-Remaining" response = Some (HNumber (remaining result))
    /\ headers_get "X-RateLimit-Reset" response = Some (HDate (reset result))
    /\ headers_get "Retry-After" response
       = (if truthy_opt_number (retryAfter result)
          then HNumber <$> (Finite <$> retryAfter result) else None)
    /\ headers_get "X-RateLimit-Blocked" response
       = (if truthy_opt_bool (blocked result) then Some (HText "true") else None).
Proof.
  intros Hreset Huntil. unfold createRateLimitResponse, iso_header. rewrite Hreset.
  destruct (truthy_opt_number (retryAfter result)) eqn:Hra;
    destruct (truthy_opt_bool (blocked result)) eqn:Hb;
    try (destruct (truthy_opt_number (blockUntil result)) eqn:Hbu;
         [destruct (blockUntil result) as [u|] eqn:Hu; [|discriminate];
          simpl; rewrite (Huntil u eq_refl)|]);
    eexists; (split; [reflexivity|]);
    (split; [reflexivity|]); (split; [reflexivity|]);
    repeat split; header_lookup;
    destruct (retryAfter result); try discriminate; reflexivity.
Qed.

(** A result with an invalid [reset] has no response: the [RangeError] of
    [toISOString] is thrown. *)
Lemma createRateLimitResponse_invalid_reset (result : RateLimitResult) :
  valid_time (reset result) = false ->
  createRateLimitResponse result = inl RangeError.
Proof.
  intros H. unfold createRateLimitResponse, iso_header. rewrite H. reflexivity.
Qed.

(** The response built from the result of the blocked path: its status and
    the two headers that a blocked client reads. *)
Lemma blocked_result_response (env : Env) (rule0 : RateLimitRule) (until : Z) :
  0 <= now env -> now env < until -> until <= 8640000000000000 ->
  exists response seconds,
    createRateLimitResponse (blocked_result env rule0 until) = inr response
    /\ status response = 429
    /\ headers_get "X-RateLimit-Blocked" response = Some (HText "true")
    /\ headers_get "Retry-After" response = Some (HNumber (Finite seconds))
    /\ 1 <= seconds.
Proof.
  intros Hnow Hlt Hmax.
  assert (Hv : valid_time until = true)
    by (unfold valid_time; apply andb_true_iff; split; apply Z.leb_le; lia).
  assert (Hs : 0 < ceil_div_1000 (until - now env)) by (apply ceil_div_1000_pos; lia).
  unfold createRateLimitResponse, iso_header, blocked_result. simpl.
  rewrite Hv.
  assert (Hz1 : (ceil_div_1000 (until - now env) =? 0) = false) by (apply Z.eqb_neq; lia).
  assert (Hz2 : (until =? 0) = false) by (apply Z.eqb_neq; lia).
  rewrite Hz1, Hz2. simpl.
  eexists _, _. split; [reflexivity|]. split; [reflexivity|].
  repeat split; header_lookup; lia.
Qed.

(** X17.  The response to a blocked client.  For the result of the blocked
    path, at an instant before [until], the response has status 429, the
    header [X-RateLimit-Blocked: true], the header [X-RateLimit-Block-Until]
    with [until], a [Retry-After] of at least one second, and a message that
    counts at least one minute. *)
Theorem blocked_response (env : Env) (rule0 : RateLimitRule) (until : Z) :
  0 <= now env -> now env < until -> until <= 8640000000000000 ->
  exists response seconds minutes,
    createRateLimitResponse (blocked_result env rule0 until) = inr response
    /\ status response = 429
    /\ headers_get "X-RateLimit-Blocked" response = Some (HText "true")
    /\ headers_get "X-RateLimit-Block-Until" response = Some (HDate until)
    /\ headers_get "Retry-After" response = Some (HNumber (Finite seconds))
    /\ 1 <= seconds
    /\ (body_message <$> body response) = Some (BlockedMessage (Some minutes))
    /\ 1 <= minutes.
Proof.
  intros Hnow Hlt Hmax.
  assert (Hv : valid_time until = true)
    by (unfold valid_time; apply andb_true_iff; split; apply Z.leb_le; lia).
  assert (Hs : 0 < ceil_div_1000 (until - now env)) by (apply ceil_div_1000_pos; lia).
  assert (Hm : 0 < ceil_div_60 (ceil_div_1000 (until - now env))).
  { unfold ceil_div_60.
    assert (- ceil_div_1000 (until - now env) / 60 < 0)
      by (apply Z.div_lt_upper_bound; lia).
    lia. }
  unfold createRateLimitResponse, iso_header, blocked_result. simpl.
  rewrite Hv.
  assert (Hz1 : (ceil_div_1000 (until - now env) =? 0) = false) by (apply Z.eqb_neq; lia).
  assert (Hz2 : (until =? 0) = false) by (apply Z.eqb_neq; lia).
  rewrite Hz1, Hz2. simpl.
  eexists _, _, _. split; [reflexivity|]. split; [reflexivity|].
  repeat split; header_lookup; lia.
Qed.

(** ** The middleware: [rate-limit-middleware.ts] *)

Definition is_dollar (c : ascii) : bool := Nat.eqb (nat_of_ascii c) 36.

(** The text that [String.prototype.replace] puts in for a replacement
    string, given the match and the text before and after it: the patterns
    [$$], [$&], [$`] and [$'] are expanded, every other character stands for
    itself. *)
Fixpoint expand_replacement (replacement matched before after : string) : string :=
  match replacement with
  | EmptyString => EmptyString
  | String c rest =>
      if is_dollar c then
        match rest with
        | String c' rest' =>
            if Nat.eqb (nat_of_ascii c') 36
            then String c (expand_replacement rest' matched before after)
            else if Nat.eqb (nat_of_ascii c') 38
            then matched ++ expand_replacement rest' matched before after
            else if Nat.eqb (nat_of_ascii c') 96
            then before ++ expand_replacement rest' matched before after
            else if Nat.eqb (nat_of_ascii c') 39
            then after ++ expand_replacement rest' matched before after
            else String c (expand_replacement rest matched before after)
        | EmptyString => String c EmptyString
        end
      else String c (expand_replacement rest matched before after)
  end.

(** [s] without the prefix [p], when [p] is a prefix of [s]. *)
Fixpoint strip_prefix (p s : string) : option string :=
  match p, s with
  | EmptyString, _ => Some s
  | String a p', String b s' =>
      if Nat.eqb (nat_of_ascii a) (nat_of_ascii b) then strip_prefix p' s' else None
  | String _ _, EmptyString => None
  end.

(** The text before and the text after the first occurrence of [p] in [s]. *)
Fixpoint find_first (p s : string) : option (string * string) :=
  match strip_prefix p s with
  | Some after => Some (EmptyString, after)
  | None =>
      match s with
      | EmptyString => None
      | String c s' =>
          match find_first p s' with
          | Some (before, after) => Some (String c before, after)
          | None => None
          end
      end
  end.

(** [s.replace(value, replacement)] with a string [value]. *)
Definition replace_first (s value replacement : string) : string :=
  match find_first value s with
  | Some (before, after) =>
      before ++ expand_replacement replacement value before after ++ after
  | None => s
  end.

Definition getEndpointName (request : NextRequest)
    (params : option (list (string * string))) : string :=
  let pathname :=
    fold_left (fun pathname '(key, value) =>
                 replace_first pathname value ("[" ++ key ++ "]"))
              (default [] params) (req_pathname request) in
  req_method request ++ ":" ++ pathname.

Lemma expand_replacement_plain (r matched before after : string) :
  occurs is_dollar r = false -> expand_replacement r matched before after = r.
Proof.
  induction r as [|c r IH]; simpl; [reflexivity|].
  intros H. apply orb_false_iff in H as [Hc Hr]. rewrite Hc, (IH Hr). reflexivity.
Qed.

Lemma append_assoc (a b c : string) : (a ++ b) ++ c = a ++ b ++ c.
Proof.
  induction a as [|x a IH]; [reflexivity|].
  rewrite !append_cons, IH. reflexivity.
Qed.

Lemma occurs_append (p : ascii -> bool) (a b : string) :
  occurs p (a ++ b) = occurs p a || occurs p b.
Proof.
  induction a as [|x a IH]; [reflexivity|].
  rewrite append_cons. simpl. rewrite IH, orb_assoc. reflexivity.
Qed.

Lemma strip_prefix_append (p s : string) : strip_prefix p (p ++ s) = Some s.
Proof.
  induction p as [|c p IH]; [destruct s; reflexivity|].
  rewrite append_cons. simpl. rewrite Nat.eqb_refl. exact IH.
Qed.

(** The character [c] as a test. *)
Definition is_char (c : ascii) (x : ascii) : bool :=
  Nat.eqb (nat_of_ascii c) (nat_of_ascii x).

Lemma find_first_at (c : ascii) (v before after : string) :
  occurs (is_char c) before = false ->
  find_first (String c v) (before ++ String c v ++ after) = Some (before, after).
Proof.
  intros Hfree. induction before as [|b before IH].
  - rewrite append_empty_l.
    destruct (String c v ++ after) eqn:Hs; [discriminate|].
    unfold find_first; fold find_first. rewrite <- Hs, strip_prefix_append. reflexivity.
  - simpl in Hfree. apply orb_false_iff in Hfree as [Hb Hfree].
    rewrite append_cons. unfold find_first; fold find_first.
    simpl strip_prefix. unfold is_char in Hb. rewrite Hb.
    rewrite (IH Hfree). reflexivity.
Qed.

Lemma getEndpointName_one_param (request : NextRequest) (key value before after : string) :
  occurs is_dollar key = false ->
  find_first value (req_pathname request) = Some (before, after) ->
  getEndpointName request (Some [(key, value)])
  = req_method request ++ ":" ++ before ++ "[" ++ key ++ "]" ++ after.
Proof.
  intros Hkey Hfind. unfold getEndpointName. simpl. unfold replace_first.
  rewrite Hfind. rewrite expand_replacement_plain; [rewrite !append_assoc; reflexivity|].
  rewrite !occurs_append. simpl. rewrite Hkey. reflexivity.
Qed.

(** X18.  Requests to one route share one endpoint name.  Two requests with
    the same method whose paths differ only in the value of the one route
    parameter get the same endpoint name, the path with the placeholder
    [[key]] in place of the value, provided the parameter's name contains no
    dollar sign and the first character of each value does not occur in the
    path before it. *)
Theorem getEndpointName_shared (r1 r2 : NextRequest) (key before after : string)
    (c1 c2 : ascii) (v1 v2 : string) :
  req_method r1 = req_method r2 ->
  req_pathname r1 = before ++ String c1 v1 ++ after ->
  req_pathname r2 = before ++ String c2 v2 ++ after ->
  occurs is_dollar key = false ->
  occurs (is_char c1) before = false -> occurs (is_char c2) before = false ->
  getEndpointName r1 (Some [(key, String c1 v1)])
  = getEndpointName r2 (Some [(key, String c2 v2)])
  /\ getEndpointName r1 (Some [(key, String c1 v1)])
     = req_method r1 ++ ":" ++ before ++ "[" ++ key ++ "]" ++ after.
Proof.
  intros Hm H1 H2 Hkey Hc1 Hc2.
  rewrite (getEndpointName_one_param r1 key (String c1 v1) before after Hkey)
    by (rewrite H1; apply find_first_at, Hc1).
  rewrite (getEndpointName_one_param r2 key (String c2 v2) before after Hkey)
    by (rewrite H2; apply find_first_at, Hc2).
  rewrite Hm. split; reflexivity.
Qed.

Section Middleware.

Context {LimiterState : Type}.
Variable slidingWindow_limit :
  Ratelimit -> string -> Z -> LimiterState -> LimiterState * RatelimitResponse.

Notation "'let*' x ':=' m 'in' k" := (bind m (fun x => k))
  (at level 10, x pattern, m at level 100, k at level 200).
Notation "m '>>' k" := (bind m (fun _ => k))
  (at level 100, k at level 200, right associativity).

(** The fields of the JWT that the middleware reads. *)
Record JWT := {
  sub : option string;
  role : option UserRole
}.

(** A handler passed in the options: any computation on the world. *)
Definition Handler : Type :=
  RateLimitContext -> RateLimitResult -> @M LimiterState unit.

Record RateLimitMiddlewareOptions := {
  opt_configKey : string;
  opt_customConfig : option RateLimitConfig;
  opt_operationType : option string;
  opt_skipAuthCheck : option bool;
  onViolation : option Handler;
  onSuccess : option Handler
}.

(** [console.warn(msg, error)] *)
Definition console_warn_error (msg : string) (e : Exn) : @M LimiterState unit :=
  fun w => (set_console (console w ++ [(msg, Some e)])%list w, inr tt).

(** An outcome computed without the world, as a computation. *)
Definition lift {A} (o : Exn + A) : @M LimiterState A := fun w => (w, o).

(** The context that the middleware builds for a request.  [token] is the
    outcome of [getToken]: an exception, [null] or a token. *)
Definition middleware_context (options : RateLimitMiddlewareOptions)
    (request : NextRequest) (params : option (list (string * string)))
    (user : option string * option UserRole) : RateLimitContext :=
  {| userId := fst user; userRole := snd user;
     ip := getClientIP request;
     userAgent := or_string (req_headers request "user-agent") "unknown";
     endpoint := getEndpointName request params;
     operationType := opt_operationType options |}.

(** Lines 40-58: the user of the request, read from the token unless the
    options skip it; a failure to read the token is logged and leaves the
    request anonymous. *)
Definition middleware_user (options : RateLimitMiddlewareOptions)
    (token : Exn + option JWT) : @M LimiterState (option string * option UserRole) :=
  if negb (truthy_opt_bool (opt_skipAuthCheck options)) then
    try_catch
      (let* t := lift token in
       match t with
       | Some t => ret (sub t, role t)
       | None => ret (None, None)
       end)
      (fun e => console_warn_error "Failed to get token for rate limiting:" e >>
                ret (None, None))
  else ret (None, None).

Definition run_handler (h : option Handler) (context : RateLimitContext)
    (result : RateLimitResult) : @M LimiterState unit :=
  match h with
  | Some f => f context result
  | None => ret tt
  end.

(** The [try] block of the function that [createRateLimitMiddleware]
    returns. *)
Definition middleware_try (options : RateLimitMiddlewareOptions) (env : Env)
    (token : Exn + option JWT) (request : NextRequest)
    (params : option (list (string * string))) : @M LimiterState NextResponse :=
  let* user := middleware_user options token in
  let context := middleware_context options request params user in
  let* result :=
    checkRateLimit slidingWindow_limit env context (opt_configKey options)
      (opt_customConfig options) in
  if negb (success result) then
    run_handler (onViolation options) context result >>
    lift (createRateLimitResponse result)
  else
    run_handler (onSuccess options) context result >>
    let response := NextResponse_next in
    let response := headers_set "X-RateLimit-Limit" (HNumber (limit result)) response in
    let response :=
      headers_set "X-RateLimit-Remaining" (HNumber (remaining result)) response in
    let* resetText := lift (iso_header (reset result)) in
    ret (headers_set "X-RateLimit-Reset" resetText response).

Definition createRateLimitMiddleware (options : RateLimitMiddlewareOptions) (env : Env)
    (token : Exn + option JWT) (request : NextRequest)
    (params : option (list (string * string))) : @M LimiterState NextResponse :=
  try_catch (middleware_try options env token request params)
    (fun e => console_error "Rate limiting middleware error:" e >> ret NextResponse_next).

(** The object that [checkApiRateLimit] returns. *)
Record ApiRateLimit := {
  allowed : bool;
  api_response : option NextResponse
}.

Definition checkApiRateLimit (env : Env) (token : Exn + option JWT)
    (request : NextRequest) (configKey : string) (customConfig : option RateLimitConfig)
    : @M LimiterState ApiRateLimit :=
  let middleware :=
    createRateLimitMiddleware
      {| opt_configKey := configKey; opt_customConfig := customConfig;
         opt_operationType := None; opt_skipAuthCheck := None;
         onViolation := None; onSuccess := None |} in
  let* result := middleware env token request None in
  if status result =? 429 then ret {| allowed := false; api_response := Some result |}
  else ret {| allowed := true; api_response := None |}.

(** X19.  The middleware fails open and never throws.  Whatever the token
    lookup, the engine, the handlers and the response builder do, the
    function that [createRateLimitMiddleware] returns yields a response, and
    that response either lets the request pass (status 200) or is the 429 of
    [createRateLimitResponse]; it is a 429 only when the engine returned a
    refusal for the context built from the request. *)
Theorem middleware_fails_open (options : RateLimitMiddlewareOptions) (env : Env)
    (token : Exn + option JWT) (request : NextRequest)
    (params : option (list (string * string))) (w : @World LimiterState) :
  exists w' response,
    createRateLimitMiddleware options env token request params w = (w', inr response)
    /\ ((status response = 200 /\ passes response = true)
        \/ (status response = 429 /\ passes response = false
            /\ exists w0 user w1 result,
                 middleware_user options token w = (w0, inr user)
                 /\ checkRateLimit slidingWindow_limit env
                      (middleware_context options request params user)
                      (opt_configKey options) (opt_customConfig options) w0
                    = (w1, inr result)
                 /\ success result = false
                 /\ createRateLimitResponse result = inr response)).
Proof.
  unfold createRateLimitMiddleware, try_catch.
  destruct (middleware_try options env token request params w) as [w' [e|response]] eqn:Htry.
  { eexists _, _. split; [reflexivity|]. left. split; reflexivity. }
  exists w', response. split; [reflexivity|].
  unfold middleware_try in Htry.
  apply bind_inv in Htry as [(e & _ & He) | (w0 & user & Hu & Htry)]; [discriminate|].
  apply bind_inv in Htry as [(e & _ & He) | (w1 & result & Hc & Htry)]; [discriminate|].
  destruct (negb (success result)) eqn:Hs.
  - apply bind_inv in Htry as [(e & _ & He) | (w2 & [] & _ & Htry)]; [discriminate|].
    unfold lift in Htry. inversion Htry as [[Hw Hresp]].
    right.
    assert (H429 : status response = 429 /\ passes response = false).
    { unfold createRateLimitResponse in Hresp.
      destruct (iso_header (reset result)); [discriminate|].
      destruct (truthy_opt_number (retryAfter result));
        destruct (truthy_opt_bool (blocked result));
        try destruct (truthy_opt_number (blockUntil result));
        try destruct (iso_header (default 0 (blockUntil result)));
        inversion Hresp; split; reflexivity. }
    destruct H429 as [H1 H2]. split; [exact H1|]. split; [exact H2|].
    exists w0, user, w1, result. repeat split; try assumption.
    apply negb_true_iff, Hs.
  - apply bind_inv in Htry as [(e & _ & He) | (w2 & [] & _ & Htry)]; [discriminate|].
    apply bind_inv in Htry as [(e & _ & He) | (w3 & resetText & _ & Htry)]; [discriminate|].
    inversion Htry. left. split; reflexivity.
Qed.

(** The user that the middleware takes from the outcome of [getToken]. *)
Definition token_user (options : RateLimitMiddlewareOptions) (token : Exn + option JWT)
    : option string * option UserRole :=
  if negb (truthy_opt_bool (opt_skipAuthCheck options)) then
    match token with
    | inr (Some t) => (sub t, role t)
    | _ => (None, None)
    end
  else (None, None).

Lemma middleware_user_is_token_user options token (w : @World LimiterState) :
  exists w',
    middleware_user options token w = (w', inr (token_user options token))
    /\ same_stores w w' /\ securityLog w' = securityLog w.
Proof.
  unfold middleware_user, token_user.
  destruct (negb (truthy_opt_bool (opt_skipAuthCheck options)));
    [|eexists; split; [reflexivity | split; [apply same_stores_refl | reflexivity]]].
  unfold try_catch, bind, lift. destruct token as [e|[t|]];
    eexists; (split; [reflexivity|]);
    (split; [unfold same_stores; simpl; repeat split | reflexivity]).
Qed.

(** X20.  A refusal can be lost on the way out.  When the engine refuses a
    request and the violation handler of the options throws, or the refusal
    carries a [reset] that is not a valid date, the middleware catches the
    exception and lets the request pass: the response is the plain
    [NextResponse.next()], without any rate-limit header. *)
Theorem refusal_lost_on_exception (options : RateLimitMiddlewareOptions) (env : Env)
    (token : Exn + option JWT) (request : NextRequest)
    (params : option (list (string * string)))
    (w w0 w1 : @World LimiterState) (result : RateLimitResult) :
  middleware_user options token w = (w0, inr (token_user options token)) ->
  checkRateLimit slidingWindow_limit env
    (middleware_context options request params (token_user options token))
    (opt_configKey options) (opt_customConfig options) w0 = (w1, inr result) ->
  success result = false ->
  (exists f w2 e,
     onViolation options = Some f
     /\ f (middleware_context options request params (token_user options token))
          result w1 = (w2, inl e))
  \/ ((forall f, onViolation options = Some f ->
         exists w2,
           f (middleware_context options request params (token_user options token))
             result w1 = (w2, inr tt))
      /\ valid_time (reset result) = false) ->
  exists w',
    createRateLimitMiddleware options env token request params w
    = (w', inr NextResponse_next)
    /\ response_headers NextResponse_next = [].
Proof.
  intros Hu Hc Hs Hlost.
  unfold createRateLimitMiddleware, try_catch, middleware_try.
  unfold bind at 1. rewrite Hu. unfold bind at 1. rewrite Hc. rewrite Hs. simpl.
  destruct Hlost as [(f & w2 & e & Hf & Hthrow) | [Hok Hinvalid]].
  - unfold bind, run_handler. rewrite Hf, Hthrow. unfold console_error, ret.
    eexists. split; reflexivity.
  - unfold bind, run_handler.
    destruct (onViolation options) as [f|].
    + destruct (Hok f eq_refl) as (w2 & Hf). rewrite Hf. unfold lift.
      rewrite (createRateLimitResponse_invalid_reset result Hinvalid).
      unfold console_error, ret. eexists. split; reflexivity.
    + unfold ret at 1, lift.
      rewrite (createRateLimitResponse_invalid_reset result Hinvalid).
      unfold console_error, ret. eexists. split; reflexivity.
Qed.

Lemma active_block_same_stores env context until (w w' : @World LimiterState) :
  same_stores w w' -> active_block env context until w -> active_block env context until w'.
Proof.
  intros (Hr & _) (store & ttlEnd & Hs & H). exists store, ttlEnd.
  split; [rewrite Hr; exact Hs | exact H].
Qed.

(** X21.  A blocked client is stopped at the door.  For a regular call (it
    reads its headers, carries no bypass token and its ledger lookup answers)
    under a configuration with a block duration and a first rule: when the
    ledger holds a block in force for the identifier of the context that the
    middleware builds from the request, [checkApiRateLimit] answers
    [allowed = false] with a response of status 429 that carries
    [X-RateLimit-Blocked: true] and a [Retry-After]; the limiter, its cache,
    the counter table and the ledger are left as they were. *)
Theorem checkApiRateLimit_blocked (env : Env) (token : Exn + option JWT)
    (request : NextRequest) (configKey : string) (customConfig : option RateLimitConfig)
    (w : @World LimiterState) (until : Z) (rule0 : RateLimitRule)
    (more : list RateLimitRule) (context : RateLimitContext) :
  context
  = middleware_context
      {| opt_configKey := configKey; opt_customConfig := customConfig;
         opt_operationType := None; opt_skipAuthCheck := None;
         onViolation := None; onSuccess := None |}
      request None
      (token_user
         {| opt_configKey := configKey; opt_customConfig := customConfig;
            opt_operationType := None; opt_skipAuthCheck := None;
            onViolation := None; onSuccess := None |} token) ->
  truthy_opt_number
    (blockDurationMs (selectConfig context configKey customConfig)) = true ->
  rules (selectConfig context configKey customConfig) = rule0 :: more ->
  regular_call env -> 0 <= now env -> until <= 8640000000000000 ->
  active_block env context until w ->
  exists w' response seconds,
    checkApiRateLimit env token request configKey customConfig w
    = (w', inr {| allowed := false; api_response := Some response |})
    /\ status response = 429
    /\ headers_get "X-RateLimit-Blocked" response = Some (HText "true")
    /\ headers_get "Retry-After" response = Some (HNumber (Finite seconds))
    /\ 1 <= seconds
    /\ same_stores w w'.
Proof.
  intros Hctx Hd Hrules Hreg Hnow Hmax Hact.
  set (options := {| opt_configKey := configKey; opt_customConfig := customConfig;
                     opt_operationType := None; opt_skipAuthCheck := None;
                     onViolation := None; onSuccess := None |}) in *.
  destruct (middleware_user_is_token_user options token w) as (w0 & Hu & Hs0 & _).
  pose proof (active_block_same_stores env context until w w0 Hs0 Hact) as Hact0.
  destruct (checkRateLimit_blocked slidingWindow_limit env context configKey customConfig
              until rule0 more w0 Hd Hrules Hreg Hnow Hmax Hact0) as (w1 & Hc & Hs1).
  assert (Hlt : now env < until) by (destruct Hact as (? & ? & _ & _ & _ & ?); assumption).
  destruct (blocked_result_response env rule0 until Hnow Hlt Hmax)
    as (response & seconds & Hresp & Hst & Hb & Hra & Hsec).
  exists w1, response, seconds.
  split.
  - unfold checkApiRateLimit, bind at 1, createRateLimitMiddleware, try_catch,
      middleware_try. fold options.
    unfold bind at 1. rewrite Hu. unfold bind at 1. rewrite <- Hctx.
    change (opt_configKey options) with configKey.
    change (opt_customConfig options) with customConfig.
    rewrite Hc. unfold bind, run_handler, lift. rewrite Hresp.
    subst options. simpl. rewrite Hst. reflexivity.
  - repeat split; try assumption; eapply same_stores_trans; eassumption.
Qed.

End Middleware.

(** ** The further properties at concrete inputs *)

Definition sample_request : NextRequest :=
  {| req_headers :=
       fun h => if String.eqb h "x-forwarded-for" then Some " 203.0.113.5 , 10.0.0.1"
                else if String.eqb h "user-agent" then Some "Mozilla/5.0"
                else None;
     req_ip := Some "10.0.0.1"; req_method := "POST";
     req_pathname := "/api/auth/login" |}.

Definition bare_request : NextRequest :=
  {| req_headers := fun _ => None; req_ip := None; req_method := "GET";
     req_pathname := "/api/users/42" |}.

Lemma resolved_config_is_enforceable_witness :
  enforceable (selectConfig client "auth_login" None)
  /\ selectConfig client "constructor" None = inherited_value.
Proof.
  split.
  - apply (proj1 (resolved_config_is_enforceable client "auth_login")).
    intros Hin. vm_compute in Hin. intuition discriminate.
  - apply (proj2 (resolved_config_is_enforceable client "constructor")).
    right. left. reflexivity.
Defined.

Lemma resolved_severity_is_medium_witness :
  ENDPOINT_SEVERITY !! "auth_login" = Some CRITICAL
  /\ exists w' row,
       logRateLimitViolation (request_at 1005) client (selectConfig client "auth_login" None)
         "exceeded" None (fresh_world (Some ∅)) = (w', inr tt)
       /\ securityLog w' = (securityLog (fresh_world (Some ∅)) ++ [row])%list
       /\ log_action row = RATE_LIMIT_EXCEEDED
       /\ detail "severity" (log_details row) = Some (DString "medium").
Proof.
  split; [reflexivity|].
  apply (resolved_severity_is_medium (request_at 1005) client "auth_login" "exceeded"
           None (fresh_world (Some ∅))).
  - discriminate.
  - reflexivity.
  - intros t Ht. discriminate Ht.
Defined.

Lemma role_tiers_witness :
  getRateLimitConfig "auth_login" (Some ADMIN) = getRateLimitConfig "auth_login" None.
Proof.
  apply (proj2 (proj2 (proj2 (role_tiers "auth_login" (Some ADMIN) None)))).
  discriminate.
Defined.

Lemma getClientIP_forwarded_witness :
  getClientIP sample_request = "203.0.113.5"
  /\ occurs is_comma (getClientIP sample_request) = false.
Proof.
  destruct (getClientIP_forwarded sample_request " 203.0.113.5 , 10.0.0.1"
              eq_refl ltac:(discriminate)) as (Hip & Hcomma & _).
  split; [rewrite Hip; reflexivity | exact Hcomma].
Defined.

Lemma getClientIP_fallback_nonempty_witness :
  getClientIP bare_request <> EmptyString /\ getClientIP bare_request = "unknown".
Proof.
  destruct (getClientIP_fallback_nonempty bare_request eq_refl) as [Hne Hunknown].
  split; [exact Hne | apply Hunknown; reflexivity].
Defined.

Definition signed_in : RateLimitContext :=
  {| userId := Some "u1"; userRole := Some USER; ip := "203.0.113.5";
     userAgent := "Mozilla/5.0"; endpoint := "/api/auth/login";
     operationType := None |}.

(** The same user from the same address, on another route with another
    browser. *)
Definition signed_in_elsewhere : RateLimitContext :=
  {| userId := Some "u1"; userRole := Some USER; ip := "203.0.113.5";
     userAgent := "curl/8.0"; endpoint := "/api/profile";
     operationType := Some "profile_update" |}.

Lemma createRateLimitIdentifier_injective_witness :
  identified_user signed_in = identified_user signed_in_elsewhere
  /\ ip signed_in = ip signed_in_elsewhere.
Proof.
  apply (createRateLimitIdentifier_injective signed_in signed_in_elsewhere).
  - intros u Hu. inversion Hu. reflexivity.
  - intros u Hu. inversion Hu. reflexivity.
  - reflexivity.
Defined.

(** A ledger whose block of the client ended at instant 1000. *)
Definition expired_world : @World (gmap string Z) :=
  fresh_world (Some {[ "block:ip:203.0.113.5" := (RNumber 1000, 2000) ]}).

Lemma no_block_in_fresh_world (env : Env) :
  no_active_block env client (fresh_world (Some ∅)).
Proof.
  intros u (store & ttlEnd & Hr & Hk & _). inversion Hr; subst store.
  rewrite lookup_empty in Hk. discriminate.
Defined.

Lemma no_block_in_exhausted_world (env : Env) : no_active_block env client exhausted_world.
Proof.
  intros u (store & ttlEnd & Hr & Hk & _). inversion Hr; subst store.
  rewrite lookup_empty in Hk. discriminate.
Defined.

Lemma block_status_reflects_ledger_witness :
  checkBlockStatus (request_at 1006) client (catalog "auth_login") blocked_world
  = (blocked_world, inr (Blocked 1801005))
  /\ checkBlockStatus (request_at 1500) client (catalog "auth_login") expired_world
     = (expired_world, inr NotBlocked).
Proof.
  split.
  - apply (proj1 (block_status_reflects_ledger (request_at 1006) client
                    (catalog "auth_login") blocked_world
                    {[ "block:ip:203.0.113.5" := (RNumber 1801005, 1801005) ]}
                    eq_refl eq_refl ltac:(simpl; lia) eq_refl)).
    exists {[ "block:ip:203.0.113.5" := (RNumber 1801005, 1801005) ]}, 1801005.
    repeat split; simpl; lia.
  - apply (proj2 (proj2 (block_status_reflects_ledger (request_at 1500) client
                    (catalog "auth_login") expired_world
                    {[ "block:ip:203.0.113.5" := (RNumber 1000, 2000) ]}
                    eq_refl eq_refl ltac:(simpl; lia) eq_refl)) 2000 1000).
    + reflexivity.
    + simpl. lia.
Defined.

Definition login_limiter : Ratelimit :=
  {| tokens := 5; interval := "15 m"; prefix := "ratelimit:auth:login" |}.

Lemma fast_path_admits_witness :
  exists w',
    checkRateLimit counting_limit (request_at 1000) client "auth_login" None
      (fresh_world (Some ∅))
    = (w', inr {| success := true; limit := Finite 5; remaining := Finite 4;
                  reset := 61000; blocked := None; blockUntil := None;
                  retryAfter := None; error := None |}).
Proof.
  eexists.
  apply (fast_path_admits counting_limit (request_at 1000) client "auth_login" None
           (fresh_world (Some ∅)) ∅ login_limiter
           {[ "ratelimit:auth:login:ip:203.0.113.5" := 1 ]}
           {| resp_success := true; resp_limit := 5; resp_remaining := 4;
              resp_reset := 61000 |}).
  - apply regular_request_at.
  - reflexivity.
  - reflexivity.
  - right. split; [reflexivity | apply no_block_in_fresh_world].
  - reflexivity.
  - reflexivity.
  - reflexivity.
Defined.

Definition refusal_response : RatelimitResponse :=
  {| resp_success := false; resp_limit := 5; resp_remaining := 0; resp_reset := 61005 |}.

Lemma fast_path_refuses_and_blocks_witness :
  exists w',
    checkRateLimit counting_limit (request_at 1005) client "auth_login" None exhausted_world
    = (w', inr (exceeded_result (request_at 1005) refusal_response))
    /\ blocked (exceeded_result (request_at 1005) refusal_response) = None
    /\ (forall env', 1005 <= now env' < 1005 + 1800000 ->
          active_block env' client (1005 + 1800000) w')
    /\ rateLimitEntry w' = rateLimitEntry exhausted_world.
Proof.
  apply (fast_path_refuses_and_blocks counting_limit (request_at 1005) client
           "auth_login" None exhausted_world ∅ login_limiter
           {[ "ratelimit:auth:login:ip:203.0.113.5" := 6 ]} refusal_response 1800000).
  - apply regular_request_at.
  - reflexivity.
  - reflexivity.
  - reflexivity.
  - reflexivity.
  - lia.
  - apply no_block_in_exhausted_world.
  - reflexivity.
  - reflexivity.
  - reflexivity.
Defined.

Lemma violation_then_blocked_witness :
  exists outs w',
    snd (run_checks counting_limit [request_at 1005; request_at 61005; request_at 1801004]
           client "auth_login" None exhausted_world)
    = inr (exceeded_result (request_at 1005) refusal_response) :: outs
    /\ Forall2 (fun env out =>
                  out = inr (blocked_result env
                               {| requests := 5; window := "15 m";
                                  windowMs := 15 * 60 * 1000 |} (1005 + 1800000)))
               [request_at 61005; request_at 1801004] outs
    /\ fst (run_checks counting_limit
              [request_at 1005; request_at 61005; request_at 1801004]
              client "auth_login" None exhausted_world) = w'
    /\ limiterState w' = {[ "ratelimit:auth:login:ip:203.0.113.5" := 6 ]}.
Proof.
  apply (violation_then_blocked counting_limit (request_at 1005)
           [request_at 61005; request_at 1801004] client "auth_login" None
           exhausted_world ∅ login_limiter
           {[ "ratelimit:auth:login:ip:203.0.113.5" := 6 ]} refusal_response 1800000
           {| requests := 5; window := "15 m"; windowMs := 15 * 60 * 1000 |} []).
  - apply regular_request_at.
  - reflexivity.
  - reflexivity.
  - reflexivity.
  - simpl. lia.
  - simpl. lia.
  - reflexivity.
  - lia.
  - reflexivity.
  - apply no_block_in_exhausted_world.
  - reflexivity.
  - reflexivity.
  - reflexivity.
  - repeat constructor; try apply regular_request_at; simpl; lia.
Defined.

(** The limiter of ["auth:login"] is already in the cache. *)
Definition cached_world : @World (gmap string Z) :=
  {| redis := Some ∅; limiterState := ∅;
     rateLimiters := {[ Some "auth:login" := login_limiter ]};
     rateLimitEntry := []; securityLog := []; console := [] |}.

(** A custom configuration under the identifier of the login catalog entry,
    with a stricter rule. *)
Definition strict_login : RateLimitConfig :=
  {| identifier := Some "auth:login"; rules := [ one_per_minute ];
     blockDuration := Some "30 m"; blockDurationMs := Some (30 * 60 * 1000) |}.

Lemma cached_limiter_ignores_rules_witness :
  checkRateLimit counting_limit (request_at 1000) client "auth_login"
    (Some (catalog "auth_login")) cached_world
  = checkRateLimit counting_limit (request_at 1000) client "auth_login"
      (Some strict_login) cached_world.
Proof.
  apply (cached_limiter_ignores_rules counting_limit (request_at 1000) client
           "auth_login" (catalog "auth_login") strict_login cached_world ∅ login_limiter);
    try reflexivity.
  intros u (store & ttlEnd & Hr & Hk & _). inversion Hr; subst store.
  rewrite lookup_empty in Hk. discriminate.
Defined.

Definition login_rule : RateLimitRule :=
  {| requests := 5; window := "15 m"; windowMs := 15 * 60 * 1000 |}.

(** The first row of the table, the counter of the client, with [k]
    attempts in a window that ends at instant 901000. *)
Definition counter_row (k : Z) : RateLimitEntry :=
  {| entry_id := 1; entry_userId := None; entry_ip := "203.0.113.5";
     entry_endpoint := "/api/auth/login"; attempts := k; windowStart := 1000;
     expiresAt := 901000; updatedAt := 1004 |}.

Definition counted_world (k : Z) : @World (gmap string Z) :=
  {| redis := None; limiterState := ∅; rateLimiters := ∅;
     rateLimitEntry := [counter_row k]; securityLog := []; console := [] |}.

Lemma database_refusal_is_earned_witness :
  exists w' r,
    checkRateLimitDatabase (request_at 2000) client (catalog "auth_login")
      (counted_world 5) = (w', inr r)
    /\ (success r = false ->
        findFirstFails (request_at 2000) = false
        /\ rateLimitEntry w' = rateLimitEntry (counted_world 5)
        /\ exists e, In e (rateLimitEntry (counted_world 5))
             /\ entry_matches (request_at 2000) client e = true
             /\ requests login_rule <= attempts e
             /\ reset r = expiresAt e /\ remaining r = Finite 0).
Proof.
  exact (database_refusal_is_earned client (catalog "auth_login") login_rule []
           eq_refl (request_at 2000) (counted_world 5)).
Defined.

Lemma database_error_admits_uncounted_witness :
  exists w',
    checkRateLimitDatabase (outage_at 2000) client (catalog "auth_login")
      (counted_world 5)
    = (w', inr (database_fail_open (outage_at 2000) login_rule))
    /\ rateLimitEntry w' = rateLimitEntry (counted_world 5)
    /\ securityLog w' = securityLog (counted_world 5).
Proof.
  apply (database_error_admits_uncounted client (catalog "auth_login") login_rule []
           eq_refl (outage_at 2000) (counted_world 5)).
  left. reflexivity.
Defined.

Lemma expired_window_restarts_witness :
  exists w' fresh,
    checkRateLimitDatabase (request_at 901000) client (catalog "auth_login")
      (counted_world 5)
    = (w', inr {| success := true; limit := Finite 5; remaining := Finite 4;
                  reset := 901000 + 900000; blocked := None;
                  blockUntil := None; retryAfter := None; error := None |})
    /\ rateLimitEntry w' = (rateLimitEntry (counted_world 5) ++ [fresh])%list
    /\ attempts fresh = 1 /\ expiresAt fresh = 901000 + 900000
    /\ ~ In (entry_id fresh) (List.map entry_id (rateLimitEntry (counted_world 5))).
Proof.
  apply (expired_window_restarts client (catalog "auth_login") login_rule []
           eq_refl (request_at 901000) (counted_world 5)).
  - reflexivity.
  - reflexivity.
  - reflexivity.
  - intros e [<- | []] _ _. simpl. lia.
Defined.

Lemma database_counter_within_quota_witness :
  within_quota 5
    (rateLimitEntry (fst (checkRateLimitDatabase (request_at 2000) client
                            (catalog "auth_login") (counted_world 4)))).
Proof.
  apply (database_counter_within_quota client (catalog "auth_login") login_rule []
           eq_refl (request_at 2000) (counted_world 4)).
  - simpl. lia.
  - split.
    + repeat constructor. intros [].
    + repeat constructor. simpl. lia.
Defined.

Lemma createRateLimitResponse_headers_witness :
  exists response,
    createRateLimitResponse (exceeded_result (request_at 1005) refusal_response)
    = inr response
    /\ status response = 429 /\ passes response = false
    /\ headers_get "X-RateLimit-Limit" response = Some (HNumber (Finite 5))
    /\ headers_get "X-RateLimit-Remaining" response = Some (HNumber (Finite 0))
    /\ headers_get "X-RateLimit-Reset" response = Some (HDate 61005)
    /\ headers_get "Retry-After" response = Some (HNumber (Finite 60))
    /\ headers_get "X-RateLimit-Blocked" response = None.
Proof.
  apply (createRateLimitResponse_headers
           (exceeded_result (request_at 1005) refusal_response)).
  - reflexivity.
  - intros u Hu. discriminate Hu.
Defined.

Lemma blocked_response_witness :
  exists response seconds minutes,
    createRateLimitResponse (blocked_result (request_at 1006) login_rule 1801005)
    = inr response
    /\ status response = 429
    /\ headers_get "X-RateLimit-Blocked" response = Some (HText "true")
    /\ headers_get "X-RateLimit-Block-Until" response = Some (HDate 1801005)
    /\ headers_get "Retry-After" response = Some (HNumber (Finite seconds))
    /\ 1 <= seconds
    /\ (body_message <$> body response) = Some (BlockedMessage (Some minutes))
    /\ 1 <= minutes.
Proof.
  apply (blocked_response (request_at 1006) login_rule 1801005); simpl; lia.
Defined.

Definition other_user_request : NextRequest :=
  {| req_headers := fun _ => None; req_ip := None; req_method := "GET";
     req_pathname := "/api/users/7" |}.

Lemma getEndpointName_shared_witness :
  getEndpointName bare_request (Some [("id", "42")])
  = getEndpointName other_user_request (Some [("id", "7")])
  /\ getEndpointName bare_request (Some [("id", "42")]) = "GET:/api/users/[id]".
Proof.
  apply (getEndpointName_shared bare_request other_user_request "id" "/api/users/"
           EmptyString (Stdlib.Strings.Ascii.ascii_of_nat 52)
           (Stdlib.Strings.Ascii.ascii_of_nat 55) "2" EmptyString); reflexivity.
Defined.

(** Options whose violation handler throws. *)
Definition throwing_options : @RateLimitMiddlewareOptions (gmap string Z) :=
  {| opt_configKey := "auth_login"; opt_customConfig := None;
     opt_operationType := None; opt_skipAuthCheck := None;
     onViolation := Some (fun _ _ w => (w, inl (ExternalError "onViolation")));
     onSuccess := None |}.

(** The request of the anonymous client as the middleware sees it. *)
Definition login_request : NextRequest :=
  {| req_headers :=
       fun h => if String.eqb h "x-forwarded-for" then Some "203.0.113.5"
                else if String.eqb h "user-agent" then Some "Mozilla/5.0"
                else None;
     req_ip := None; req_method := "POST"; req_pathname := "/api/auth/login" |}.

Lemma refusal_lost_on_exception_witness :
  exists w',
    createRateLimitMiddleware counting_limit throwing_options (request_at 1005)
      (inr None) login_request None exhausted_world
    = (w', inr NextResponse_next)
    /\ response_headers NextResponse_next = [].
Proof.
  eapply (refusal_lost_on_exception counting_limit throwing_options (request_at 1005)
            (inr None) login_request None exhausted_world).
  - reflexivity.
  - reflexivity.
  - reflexivity.
  - left. eexists _, _, _. split; reflexivity.
Defined.

Lemma checkApiRateLimit_blocked_witness :
  exists w' response seconds,
    checkApiRateLimit counting_limit (request_at 1006) (inr None) login_request
      "auth_login" None blocked_world
    = (w', inr {| allowed := false; api_response := Some response |})
    /\ status response = 429
    /\ headers_get "X-RateLimit-Blocked" response = Some (HText "true")
    /\ headers_get "Retry-After" response = Some (HNumber (Finite seconds))
    /\ 1 <= seconds
    /\ same_stores blocked_world w'.
Proof.
  eapply (checkApiRateLimit_blocked counting_limit (request_at 1006) (inr None)
            login_request "auth_login" None blocked_world 1801005 login_rule []).
  - reflexivity.
  - reflexivity.
  - reflexivity.
  - apply regular_request_at.
  - simpl. lia.
  - lia.
  - exists {[ "block:ip:203.0.113.5" := (RNumber 1801005, 1801005) ]}, 1801005.
    repeat split; simpl; lia.
Defined.

(** A custom configuration whose window is not a duration. *)
Definition soon_config : RateLimitConfig :=
  {| identifier := Some "custom:soon";
     rules := [ {| requests := 1; window := "soon"; windowMs := 60 * 1000 |} ];
     blockDuration := None; blockDurationMs := None |}.

Lemma inherited_key_fails_open_witness :
  exists w' l,
    checkRateLimit counting_limit (request_at 1000) client "constructor" None
      exhausted_world
    = (w', inr (fail_open_result (request_at 1000)))
    /\ same_stores exhausted_world w'
    /\ console_added exhausted_world w' (("Rate limiting error:", Some TypeError) :: l).
Proof.
  apply (inherited_key_fails_open counting_limit (request_at 1000) client "constructor"
           no_headers exhausted_world).
  - right. left. reflexivity.
  - reflexivity.
  - reflexivity.
  - reflexivity.
Defined.

Lemma unparsable_window_fails_open_witness :
  exists w' l,
    checkRateLimit counting_limit (request_at 1000) client "auth_login" (Some soon_config)
      exhausted_world
    = (w', inr (fail_open_result (request_at 1000)))
    /\ same_stores exhausted_world w'
    /\ console_added exhausted_world w'
         (("Rate limiting error:", Some (ExternalError "ratelimit")) :: l).
Proof.
  apply (unparsable_window_fails_open counting_limit (request_at 1000) client "auth_login"
           (Some soon_config) exhausted_world ∅
           {| requests := 1; window := "soon"; windowMs := 60 * 1000 |} []).
  - apply regular_request_at.
  - reflexivity.
  - left. reflexivity.
  - reflexivity.
  - reflexivity.
  - reflexivity.
Defined.

(** * [security.ts]: the validators *)

(** A JavaScript string as its sequence of UTF-16 code units; [length s] is
    [s.length]. *)
Definition JsString : Type := list Z.

(** ** Regular expressions *)

(** The syntax that the literals of [security.ts] use: a character class, a
    sequence, and [+]. *)
Inductive regex :=
| Class (p : Z -> bool)
| Seq (r1 r2 : regex)
| Plus (r : regex).

(** A literal with its anchors, [^] in front and [$] behind (no flags). *)
Record RegExp := {
  anchored_start : bool;
  pattern : regex;
  anchored_end : bool
}.

(** The iterations of [r+] from [s] on: one match of [r], then either the
    continuation or a further iteration, which must have consumed input. *)
Fixpoint plus_loop (step : JsString -> (JsString -> bool) -> bool)
    (k : JsString -> bool) (n : nat) (s : JsString) : bool :=
  match n with
  | O => false
  | S n' =>
      step s (fun s' => k s' || ((length s' <? length s)%nat && plus_loop step k n' s'))
  end.

(** The backtracking matcher: [regex_match r s k] tries the matches of [r] at
    the front of [s] and hands the rest to the continuation [k]. *)
Fixpoint regex_match (r : regex) (s : JsString) (k : JsString -> bool) : bool :=
  match r with
  | Class p =>
      match s with
      | c :: s' => p c && k s'
      | [] => false
      end
  | Seq r1 r2 => regex_match r1 s (fun s' => regex_match r2 s' k)
  | Plus r1 => plus_loop (regex_match r1) k (S (length s)) s
  end.

Definition at_end (s : JsString) : bool :=
  match s with [] => true | _ => false end.

(** The search of an unanchored pattern: from every position, left to right. *)
Fixpoint regex_search (r : regex) (k : JsString -> bool) (s : JsString) : bool :=
  regex_match r s k
  || match s with
     | [] => false
     | _ :: s' => regex_search r k s'
     end.

(** [re.test(s)] *)
Definition regex_test (re : RegExp) (s : JsString) : bool :=
  let k := if anchored_end re then at_end else (fun _ => true) in
  if anchored_start re then regex_match (pattern re) s k
  else regex_search (pattern re) k s.

Definition in_range (lo hi c : Z) : bool := (lo <=? c) && (c <=? hi).

(** [\s]: white space and line terminators. *)
Definition is_whitespace (c : Z) : bool :=
  in_range 9 13 c || (c =? 32) || (c =? 160) || (c =? 5760) || in_range 8192 8202 c
  || (c =? 8232) || (c =? 8233) || (c =? 8239) || (c =? 8287) || (c =? 12288)
  || (c =? 65279).

Definition code_at : Z := 64.
Definition code_dot : Z := 46.

(** [[^\s@]] *)
Definition not_space_at (c : Z) : bool := negb (is_whitespace c || (c =? code_at)).

(** [/^[^\s@]+@[^\s@]+\.[^\s@]+$/] *)
Definition emailRegex : RegExp :=
  {| anchored_start := true;
     pattern :=
       Seq (Plus (Class not_space_at))
         (Seq (Class (Z.eqb code_at))
            (Seq (Plus (Class not_space_at))
               (Seq (Class (Z.eqb code_dot)) (Plus (Class not_space_at)))));
     anchored_end := true |}.

Definition validateEmail (email : JsString) : bool := regex_test emailRegex email.

(** The unanchored one-class literals: [/[A-Z]/], [/[a-z]/], [/[0-9]/] and the
    class of special characters. *)
Definition unanchored (p : Z -> bool) : RegExp :=
  {| anchored_start := false; pattern := Class p; anchored_end := false |}.

Definition is_uppercase : Z -> bool := in_range 65 90.
Definition is_lowercase : Z -> bool := in_range 97 122.
Definition is_digit : Z -> bool := in_range 48 57.

(** The class of the last test, by code unit: ! @ # $ % ^ & * ( ) , . ?
    the double quote : { } | < > *)
Definition is_special (c : Z) : bool :=
  existsb (Z.eqb c)
    [33; 64; 35; 36; 37; 94; 38; 42; 40; 41; 44; 46; 63; 34; 58; 123; 125; 124; 60; 62].

Record PasswordValidation := {
  isValid : bool;
  errors : list string
}.

(** [errors.push(msg)] under [if (cond)] *)
Definition push_if (cond : bool) (msg : string) (errs : list string) : list string :=
  if cond then (errs ++ [msg])%list else errs.

Definition validatePassword (password : JsString) : PasswordValidation :=
  let errs := [] in
  let errs :=
    push_if (Z.of_nat (length password) <? 12)
      "Password must be at least 12 characters long" errs in
  let errs :=
    push_if (negb (regex_test (unanchored is_uppercase) password))
      "Password must contain at least one uppercase letter" errs in
  let errs :=
    push_if (negb (regex_test (unanchored is_lowercase) password))
      "Password must contain at least one lowercase letter" errs in
  let errs :=
    push_if (negb (regex_test (unanchored is_digit) password))
      "Password must contain at least one number" errs in
  let errs :=
    push_if (negb (regex_test (unanchored is_special) password))
      "Password must contain at least one special character" errs in
  {| isValid := (length errs =? 0)%nat; errors := errs |}.

(** ** What the matcher accepts *)

Lemma plus_class_loop (p : Z -> bool) (k : JsString -> bool) (n : nat) :
  forall s, (length s < n)%nat ->
    plus_loop (regex_match (Class p)) k n s = true
    <-> exists a rest, a <> [] /\ s = (a ++ rest)%list
          /\ forallb p a = true /\ k rest = true.
Proof.
  induction n as [|n IH]; intros s Hn; [lia|].
  destruct s as [|c s']; simpl.
  - split; [discriminate|]. intros (a & rest & Ha & Hs & _).
    destruct a; [congruence | discriminate].
  - assert (Hlen : (length s' <? S (length s'))%nat = true) by (apply Nat.ltb_lt; lia).
    rewrite Hlen. simpl in Hn. split.
    + intros H. apply andb_true_iff in H as [Hp H].
      apply orb_true_iff in H as [Hk | Hloop].
      * exists [c], s'. simpl. rewrite Hp. repeat split; [discriminate | exact Hk].
      * simpl in Hloop. apply IH in Hloop as (a & rest & Ha & Hs & Hall & Hk); [|lia].
        exists (c :: a), rest. simpl. rewrite Hp, Hall, Hs.
        repeat split; [discriminate | exact Hk].
    + intros (a & rest & Ha & Hs & Hall & Hk).
      destruct a as [|c' a']; [congruence|]. simpl in Hs, Hall.
      inversion Hs; subst c' s'. apply andb_true_iff in Hall as [Hp Hall].
      rewrite Hp. simpl. destruct a' as [|c2 a2].
      * simpl. rewrite Hk. reflexivity.
      * apply orb_true_iff. right.
        apply IH; [lia|]. exists (c2 :: a2), rest.
        repeat split; [discriminate | exact Hall | exact Hk].
Qed.

(** [[p]+] takes a non-empty run of code units of the class. *)
Lemma regex_match_plus_class (p : Z -> bool) (k : JsString -> bool) (s : JsString) :
  regex_match (Plus (Class p)) s k = true
  <-> exists a rest, a <> [] /\ s = (a ++ rest)%list
        /\ forallb p a = true /\ k rest = true.
Proof. apply plus_class_loop. lia. Qed.

Lemma regex_match_class (p : Z -> bool) (k : JsString -> bool) (s : JsString) :
  regex_match (Class p) s k = true
  <-> exists c rest, s = c :: rest /\ p c = true /\ k rest = true.
Proof.
  destruct s as [|c s']; simpl.
  - split; [discriminate | intros (? & ? & H & _); discriminate].
  - split.
    + intros H. apply andb_true_iff in H as [Hp Hk]. exists c, s'. auto.
    + intros (c' & rest & Hs & Hp & Hk). inversion Hs; subst. rewrite Hp, Hk. reflexivity.
Qed.

(** An unanchored class matches when some code unit is in the class. *)
Lemma regex_test_class (p : Z -> bool) (s : JsString) :
  regex_test (unanchored p) s = existsb p s.
Proof.
  unfold regex_test, unanchored. simpl.
  induction s as [|c s IH]; simpl; [reflexivity|].
  rewrite IH, andb_true_r. reflexivity.
Qed.

(** The shape of an address: a local part, [@], a domain, [.], a last label,
    the three of them non-empty and free of white space and [@]. *)
Definition email_shape (email : JsString) : Prop :=
  exists a b c,
    email = (a ++ code_at :: b ++ code_dot :: c)%list
    /\ a <> [] /\ b <> [] /\ c <> []
    /\ forallb not_space_at a = true /\ forallb not_space_at b = true
    /\ forallb not_space_at c = true.

Lemma at_end_nil (s : JsString) : at_end s = true <-> s = [].
Proof. destruct s; simpl; split; congruence. Qed.

(** X22.  What [validateEmail] accepts.  The test succeeds exactly on the
    strings made of a non-empty local part, one [@], a non-empty domain part,
    a dot and a non-empty last part, none of the three parts containing
    white space or [@]: so an accepted address has exactly one [@], no white
    space, and a dot after the [@] with something on both sides. *)
Theorem validateEmail_accepts (email : JsString) :
  validateEmail email = true <-> email_shape email.
Proof.
  unfold validateEmail, regex_test, emailRegex, email_shape.
  cbn [anchored_start anchored_end pattern]. cbn [regex_match].
  fold (regex_match (Plus (Class not_space_at))).
  split.
  - intros H.
    change (regex_match (Plus (Class not_space_at)) email
              (fun s1 => regex_match (Class (Z.eqb code_at)) s1
                 (fun s2 => regex_match (Plus (Class not_space_at)) s2
                    (fun s3 => regex_match (Class (Z.eqb code_dot)) s3
                       (fun s4 => regex_match (Plus (Class not_space_at)) s4 at_end))))
            = true) in H.
    apply regex_match_plus_class in H as (a & r1 & Ha & He & Hpa & H).
    apply regex_match_class in H as (x & r2 & Hr1 & Hx & H).
    apply regex_match_plus_class in H as (b & r3 & Hb & Hr2 & Hpb & H).
    apply regex_match_class in H as (y & r4 & Hr3 & Hy & H).
    apply regex_match_plus_class in H as (c & r5 & Hc & Hr4 & Hpc & H).
    apply at_end_nil in H. apply Z.eqb_eq in Hx, Hy. subst.
    exists a, b, c. rewrite app_nil_r. repeat split; assumption.
  - intros (a & b & c & He & Ha & Hb & Hc & Hpa & Hpb & Hpc).
    change (regex_match (Plus (Class not_space_at)) email
              (fun s1 => regex_match (Class (Z.eqb code_at)) s1
                 (fun s2 => regex_match (Plus (Class not_space_at)) s2
                    (fun s3 => regex_match (Class (Z.eqb code_dot)) s3
                       (fun s4 => regex_match (Plus (Class not_space_at)) s4 at_end))))
            = true).
    apply regex_match_plus_class. exists a, (code_at :: b ++ code_dot :: c)%list.
    split; [exact Ha|]. split; [exact He|]. split; [exact Hpa|].
    apply regex_match_class. exists code_at, (b ++ code_dot :: c)%list.
    split; [reflexivity|]. split; [apply Z.eqb_refl|].
    apply regex_match_plus_class. exists b, (code_dot :: c)%list.
    split; [exact Hb|]. split; [reflexivity|]. split; [exact Hpb|].
    apply regex_match_class. exists code_dot, c.
    split; [reflexivity|]. split; [apply Z.eqb_refl|].
    apply regex_match_plus_class. exists c, []. rewrite app_nil_r.
    split; [exact Hc|]. split; [reflexivity|]. split; [exact Hpc | reflexivity].
Qed.

(** ** The password rules *)

(** The five requirements of [validatePassword] on a password. *)
Definition long_enough (password : JsString) : bool :=
  negb (Z.of_nat (length password) <? 12).

Definition meets_all (password : JsString) : bool :=
  long_enough password && existsb is_uppercase password
  && existsb is_lowercase password && existsb is_digit password
  && existsb is_special password.

Lemma validatePassword_isValid (password : JsString) :
  isValid (validatePassword password) = meets_all password.
Proof.
  unfold validatePassword, meets_all, long_enough, push_if.
  rewrite !regex_test_class.
  destruct (Z.of_nat (length password) <? 12), (existsb is_uppercase password),
    (existsb is_lowercase password), (existsb is_digit password),
    (existsb is_special password); reflexivity.
Qed.

(** An error message is reported exactly when its requirement fails. *)
Lemma validatePassword_errors (password : JsString) (msg : string) :
  In msg (errors (validatePassword password))
  <-> (long_enough password = false
       /\ msg = "Password must be at least 12 characters long")
      \/ (existsb is_uppercase password = false
          /\ msg = "Password must contain at least one uppercase letter")
      \/ (existsb is_lowercase password = false
          /\ msg = "Password must contain at least one lowercase letter")
      \/ (existsb is_digit password = false
          /\ msg = "Password must contain at least one number")
      \/ (existsb is_special password = false
          /\ msg = "Password must contain at least one special character").
Proof.
  unfold validatePassword, long_enough, push_if.
  rewrite !regex_test_class.
  destruct (Z.of_nat (length password) <? 12), (existsb is_uppercase password),
    (existsb is_lowercase password), (existsb is_digit password),
    (existsb is_special password); simpl; intuition congruence.
Qed.

Lemma existsb_false_extension (p : Z -> bool) (before s after : JsString) :
  existsb p (before ++ s ++ after)%list = false -> existsb p s = false.
Proof.
  rewrite !existsb_app. intros H.
  apply orb_false_iff in H as [_ H]. apply orb_false_iff in H as [H _]. exact H.
Qed.

Lemma long_enough_extension (before s after : JsString) :
  long_enough (before ++ s ++ after)%list = false -> long_enough s = false.
Proof.
  unfold long_enough. rewrite !negb_false_iff, !Z.ltb_lt, !length_app. lia.
Qed.

(** X23.  Adding characters never breaks a password.  Every error that
    [validatePassword] reports for a password with characters added in front
    of it or behind it is reported for the password itself; so a valid
    password stays valid, and a valid password has at least twelve code
    units. *)
Theorem validatePassword_extension (before password after : JsString) :
  (forall msg, In msg (errors (validatePassword (before ++ password ++ after)%list)) ->
               In msg (errors (validatePassword password)))
  /\ (isValid (validatePassword password) = true ->
      isValid (validatePassword (before ++ password ++ after)%list) = true
      /\ (12 <= length password)%nat).
Proof.
  split.
  - intros msg H. apply validatePassword_errors in H. apply validatePassword_errors.
    destruct H as [[H ->] | [[H ->] | [[H ->] | [[H ->] | [H ->]]]]].
    + left. split; [eapply long_enough_extension, H | reflexivity].
    + right. left. split; [eapply existsb_false_extension, H | reflexivity].
    + right. right. left. split; [eapply existsb_false_extension, H | reflexivity].
    + right. right. right. left.
      split; [eapply existsb_false_extension, H | reflexivity].
    + right. right. right. right.
      split; [eapply existsb_false_extension, H | reflexivity].
  - rewrite !validatePassword_isValid. unfold meets_all. intros H.
    repeat (apply andb_true_iff in H as [H ?]).
    assert (Hlen : (12 <= length password)%nat).
    { unfold long_enough in H. apply negb_true_iff, Z.ltb_ge in H. lia. }
    split; [|exact Hlen].
    repeat (apply andb_true_iff; split);
      try (rewrite !existsb_app; apply orb_true_iff; right;
           apply orb_true_iff; left; assumption).
    unfold long_enough. apply negb_true_iff, Z.ltb_ge. rewrite !length_app. lia.
Qed.

(** The code units of "Tr0ub4dor&3x!" *)
Definition sample_password : JsString :=
  [84; 114; 48; 117; 98; 52; 100; 111; 114; 38; 51; 120; 33].

Lemma validatePassword_extension_witness :
  isValid (validatePassword ([32] ++ sample_password ++ [32; 32])%list) = true
  /\ (12 <= length sample_password)%nat.
Proof.
  apply (proj2 (validatePassword_extension [32] sample_password [32; 32])).
  reflexivity.
Defined.
